(** * browser-docx-merger: the merge engine of [src/index.ts], embedded in Rocq

    The development follows the TypeScript source function by function.

    - JavaScript values: strings are [string]; a value that may be [null] or
      [undefined] is an [option]; a number is [option Z], [None] being [NaN]
      (the IDs handled by the merge are integers; fractions, exponents,
      hexadecimal literals and [Infinity] are read as [NaN], and integers are
      exact, without the rounding of doubles above 2^53).
    - DOM trees: [node], an element with a namespace-qualified name, an
      attribute list and a child list, or character data.  A node of a live
      tree is designated by its path from the root, so that in-place updates
      of a tree that other references still see are updates at a path.
    - A package (a JSZip instance) is a finite map from part paths to
      contents; parsing and serialising a part are inverse to each other and
      are not represented: an XML part is stored as its tree.
    - Exceptions are the [Err] results of the [result] monad.  The objects
      that one merge call mutates are threaded through every call: the base
      document, and the record [base] of the base package, the base
      relationships, the content types and the note-ID stash. *)

From Stdlib Require Import ZArith Ascii String Decimal DecimalString DecimalZ DecimalPos.
From stdpp Require Import base tactics option list numbers strings gmap.

Local Open Scope Z_scope.

(* ===================================================================== *)
(** ** JavaScript strings and numbers *)
(* ===================================================================== *)

Module Js.

(** A number: [None] is [NaN]. *)
Abbreviation number := (option Z).
Abbreviation NaN := (@None Z).
Abbreviation Int z := (@Some Z z).

(** Truthiness of a possibly-null string: [null], [undefined] and the empty
    string are falsy. *)
Definition truthy (o : option string) : bool :=
  match o with
  | Some s => negb (String.eqb s EmptyString)
  | None => false
  end.

(** [a || b] on possibly-null strings. *)
Definition or (a b : option string) : option string :=
  if truthy a then a else b.

(** [a || 'lit']: the chain ends in a literal, so the result is a string. *)
Definition orLit (a : option string) (lit : string) : string :=
  match a with
  | Some s => if String.eqb s EmptyString then lit else s
  | None => lit
  end.

(** String concatenation with a possibly-null operand: [null] prints as
    the text null. *)
Definition str (o : option string) : string := default "null" o.

Definition startsWith (s p : string) : bool := String.prefix p s.

Definition endsWith (s p : string) : bool :=
  String.prefix (String.rev p) (String.rev s).

(** [s.indexOf(t)], [None] standing for -1. *)
Definition indexOf (s t : string) : option nat := String.index 0 t s.

Definition includes (s t : string) : bool := bool_decide (is_Some (indexOf s t)).

(** [s.lastIndexOf(c)] for a one-character needle: [None] stands for -1. *)
Fixpoint lastIndexOf (s : string) (c : ascii) : option nat :=
  match s with
  | EmptyString => None
  | String a r =>
      match lastIndexOf r c with
      | Some i => Some (S i)
      | None => if Ascii.eqb a c then Some O else None
      end
  end.

(** [s.substring(i)] and [s.substring(i, j)] for [i <= j]. *)
Definition substringFrom (i : nat) (s : string) : string :=
  String.substring i (String.length s - i) s.
Definition substring (i j : nat) (s : string) : string :=
  String.substring i (j - i) s.

(** [s.split('/')]. *)
Fixpoint split_go (sep : ascii) (cur : string) (s : string) : list string :=
  match s with
  | EmptyString => [String.rev cur]
  | String a r =>
      if Ascii.eqb a sep then String.rev cur :: split_go sep EmptyString r
      else split_go sep (String a cur) r
  end.
Definition split (sep : ascii) (s : string) : list string := split_go sep EmptyString s.

(** [l.join('/')]. *)
Definition join (sep : string) (l : list string) : string := String.concat sep l.

Definition lowerChar (c : ascii) : ascii :=
  let n := nat_of_ascii c in
  if ((65 <=? n)%nat && (n <=? 90)%nat)%bool then ascii_of_nat (n + 32) else c.

(** [s.toLowerCase()] on the ASCII letters. *)
Fixpoint toLowerCase (s : string) : string :=
  match s with
  | EmptyString => EmptyString
  | String a r => String (lowerChar a) (toLowerCase r)
  end.

Definition isDigit (c : ascii) : bool :=
  let n := nat_of_ascii c in ((48 <=? n)%nat && (n <=? 57)%nat)%bool.

Definition isWordChar (c : ascii) : bool :=
  let n := nat_of_ascii c in
  (((65 <=? n)%nat && (n <=? 90)%nat) || ((97 <=? n)%nat && (n <=? 122)%nat)
   || isDigit c || Ascii.eqb c "_" || Ascii.eqb c "-")%bool.

(** [s.replace(/[^A-Za-z0-9_\-]/g, '_')]. *)
Fixpoint sanitize (s : string) : string :=
  match s with
  | EmptyString => EmptyString
  | String a r => String (if isWordChar a then a else "_"%char) (sanitize r)
  end.

(** White space is trimmed before a string is read as a number. *)
Fixpoint trimStart (s : string) : string :=
  match s with
  | EmptyString => EmptyString
  | String a r => if Ascii.is_space a then trimStart r else s
  end.
Fixpoint trimEnd (s : string) : string :=
  match s with
  | EmptyString => EmptyString
  | String a r =>
      let r' := trimEnd r in
      if (Ascii.is_space a && String.eqb r' EmptyString)%bool then EmptyString else String a r'
  end.
Definition trim (s : string) : string := trimEnd (trimStart s).

(** Unary plus on a string: the empty string is 0, an optionally signed
    run of decimal digits is that integer, anything else is [NaN]. *)
Definition toNumber (s : string) : number :=
  let t := trim s in
  match t with
  | EmptyString => Int 0
  | String a r =>
      if Ascii.eqb a "+" then Z.of_uint <$> NilZero.uint_of_string r
      else Z.of_int <$> NilZero.int_of_string t
  end.

(** [String(n)]. *)
Definition ofZ (z : Z) : string := NilZero.string_of_int (Z.to_int z).
Definition ofNumber (n : number) : string :=
  match n with
  | Some z => ofZ z
  | None => "NaN"
  end.

Definition isFinite (n : number) : bool := bool_decide (is_Some n).

(** [x < 0] and [x >= 0]: both are false on [NaN]. *)
Definition ltZero (n : number) : bool :=
  match n with Some z => bool_decide (z < 0) | None => false end.
Definition geZero (n : number) : bool :=
  match n with Some z => bool_decide (0 <= z) | None => false end.

(** [Math.max(a, b)]: [NaN] if either is. *)
Definition max (a b : number) : number :=
  match a, b with
  | Some x, Some y => Some (Z.max x y)
  | _, _ => None
  end.
(** [Math.max(0, ...l)]. *)
Definition maxList (l : list number) : number := foldl max (Int 0) l.

(** [++x] on a number variable. *)
Definition incr (n : number) : number := Z.succ <$> n.

(** The capture of [/rId(\d+)/.exec(s)]: the digits that follow the first
    occurrence of the text rId that is followed by a digit. *)
Fixpoint takeDigits (s : string) : string :=
  match s with
  | EmptyString => EmptyString
  | String a r => if isDigit a then String a (takeDigits r) else EmptyString
  end.
Fixpoint execRId (s : string) : option string :=
  match s with
  | EmptyString => None
  | String _ r =>
      let d := if String.prefix "rId" s then takeDigits (substringFrom 3 s) else EmptyString in
      if String.eqb d EmptyString then execRId r else Some d
  end.

End Js.

(* ===================================================================== *)
(** ** XML trees and the DOM operations the merge uses *)
(* ===================================================================== *)

(** The namespaces [NS] and the part paths [P] of the source. *)
Definition NS_w : string := "http://schemas.openxmlformats.org/wordprocessingml/2006/main".
Definition NS_r : string := "http://schemas.openxmlformats.org/officeDocument/2006/relationships".
Definition NS_pr : string := "http://schemas.openxmlformats.org/package/2006/relationships".

Definition P_document : string := "word/document.xml".
Definition P_docRels : string := "word/_rels/document.xml.rels".
Definition P_numbering : string := "word/numbering.xml".
Definition P_styles : string := "word/styles.xml".
Definition P_footnotes : string := "word/footnotes.xml".
Definition P_endnotes : string := "word/endnotes.xml".
Definition P_fontTable : string := "word/fontTable.xml".
Definition P_theme : string := "word/theme/theme1.xml".
Definition P_webSettings : string := "word/webSettings.xml".
Definition P_settings : string := "word/settings.xml".
Definition P_ct : string := "[Content_Types].xml".

(** A namespace-qualified name: the namespace URI (empty for no namespace),
    the prefix (empty for none) and the local name. *)
Record qname := QName { q_ns : string; q_prefix : string; q_local : string }.

(** The qualified name, [prefix:local], as [Attr.name] and [Element.tagName]
    give it. *)
Definition q_name (q : qname) : string :=
  if String.eqb (q_prefix q) EmptyString then q_local q
  else q_prefix q +:+ ":" +:+ q_local q.

Record attr := Attr { a_qname : qname; a_value : string }.

(** A DOM node: an element, or a node of another type (character data). *)
Local Unset Elimination Schemes.
Inductive node :=
| Elem (q : qname) (attrs : list attr) (children : list node)
| Text (data : string).
Local Set Elimination Schemes.

#[global] Instance qname_eq_dec : EqDecision qname.
Proof. solve_decision. Defined.
#[global] Instance attr_eq_dec : EqDecision attr.
Proof. solve_decision. Defined.

(** [node.nodeType === 1]. *)
Definition isElement (n : node) : bool :=
  match n with Elem _ _ _ => true | Text _ => false end.

Definition attributes (n : node) : list attr :=
  match n with Elem _ a _ => a | Text _ => [] end.

Definition childNodes (n : node) : list node :=
  match n with Elem _ _ cs => cs | Text _ => [] end.

(** The test of [getElementsByTagNameNS(ns, local)] on one element. *)
Definition hasTagNS (ns loc : string) (n : node) : bool :=
  match n with
  | Elem q _ _ => (String.eqb (q_ns q) ns && String.eqb (q_local q) loc)%bool
  | Text _ => false
  end.

(** The test of [getElementsByTagName(name)] on one element. *)
Definition hasTagName (name : string) (n : node) : bool :=
  match n with
  | Elem q _ _ => String.eqb (q_name q) name
  | Text _ => false
  end.

(** The elements of a tree in document order, the root included: what a
    tree walker over the root yields, and what [getElementsByTagNameNS]
    called on a [Document] filters. *)
Fixpoint elements (n : node) : list node :=
  match n with
  | Text _ => []
  | Elem _ _ cs => n :: flat_map elements cs
  end.

(** The elements below a node, in document order: [descendants(node)] of
    the source, and what [getElementsByTagNameNS] called on an [Element]
    filters. *)
Definition descendants (n : node) : list node := flat_map elements (childNodes n).

Definition docElementsByTagNameNS (ns loc : string) (doc : node) : list node :=
  filter (λ n, hasTagNS ns loc n = true) (elements doc).
Definition getElementsByTagNameNS (ns loc : string) (el : node) : list node :=
  filter (λ n, hasTagNS ns loc n = true) (descendants el).
Definition docElementsByTagName (name : string) (doc : node) : list node :=
  filter (λ n, hasTagName name n = true) (elements doc).

(** [node.textContent]. *)
Fixpoint textContent (n : node) : string :=
  match n with
  | Text s => s
  | Elem _ _ cs => foldr (λ c acc, textContent c +:+ acc) EmptyString cs
  end.

(** *** Attributes *)

Definition attrIsNS (ns loc : string) (a : attr) : bool :=
  (String.eqb (q_ns (a_qname a)) ns && String.eqb (q_local (a_qname a)) loc)%bool.
Definition attrIsNamed (name : string) (a : attr) : bool :=
  String.eqb (q_name (a_qname a)) name.

(** [el.getAttributeNS(ns, local)] and [el.getAttribute(name)]: [None] is
    [null]. *)
Definition getAttributeNS (ns loc : string) (el : node) : option string :=
  a_value <$> find (attrIsNS ns loc) (attributes el).
Definition getAttribute (name : string) (el : node) : option string :=
  a_value <$> find (attrIsNamed name) (attributes el).

(** Replace the value of the first attribute that passes the test, or
    append a new attribute when none does. *)
Fixpoint setAttr (test : attr → bool) (new : attr) (l : list attr) : list attr :=
  match l with
  | [] => [new]
  | a :: l' =>
      if test a then Attr (a_qname a) (a_value new) :: l'
      else a :: setAttr test new l'
  end.

Fixpoint removeAttr (test : attr → bool) (l : list attr) : list attr :=
  match l with
  | [] => []
  | a :: l' => if test a then l' else a :: removeAttr test l'
  end.

(** [el.setAttributeNS(ns, prefix:local, value)]; the qualified name is
    given by its prefix and its local name. *)
Definition setAttributeNS (ns pre loc value : string) (el : node) : node :=
  match el with
  | Elem q a cs => Elem q (setAttr (attrIsNS ns loc) (Attr (QName ns pre loc) value) a) cs
  | Text _ => el
  end.

(** [el.setAttribute(name, value)] for a name without a prefix. *)
Definition setAttribute (name value : string) (el : node) : node :=
  match el with
  | Elem q a cs =>
      Elem q (setAttr (attrIsNamed name) (Attr (QName EmptyString EmptyString name) value) a) cs
  | Text _ => el
  end.

(** [el.removeAttributeNS(ns, local)]. *)
Definition removeAttributeNS (ns loc : string) (el : node) : node :=
  match el with
  | Elem q a cs => Elem q (removeAttr (attrIsNS ns loc) a) cs
  | Text _ => el
  end.

(** [doc.createElementNS(ns, prefix:local)] and [doc.createElement(name)]. *)
Definition createElementNS (ns pre loc : string) : node := Elem (QName ns pre loc) [] [].
Definition createElement (name : string) : node :=
  Elem (QName EmptyString EmptyString name) [] [].

(** *** Children *)

(** [parent.appendChild(c)] for a node [c] that is not in the tree. *)
Definition appendChild (c : node) (parent : node) : node :=
  match parent with
  | Elem q a cs => Elem q a (cs ++ [c])
  | Text _ => parent
  end.

(** [parent.insertBefore(c, ref)] where [ref] is the child of index [i]. *)
Definition insertBeforeAt (i : nat) (c : node) (parent : node) : node :=
  match parent with
  | Elem q a cs => Elem q a (take i cs ++ c :: drop i cs)
  | Text _ => parent
  end.

(** [parent.removeChild(ref)] where [ref] is the child of index [i]. *)
Definition removeChildAt (i : nat) (parent : node) : node :=
  match parent with
  | Elem q a cs => Elem q a (delete i cs)
  | Text _ => parent
  end.

(** *** Nodes of a live tree: paths *)

(** A node of a tree is designated by the child indices that lead to it
    from the root. *)
Abbreviation path := (list nat).

Fixpoint get_at (p : path) (n : node) : option node :=
  match p with
  | [] => Some n
  | i :: p' => childNodes n !! i ≫= get_at p'
  end.

(** In-place update of the node at path [p]. *)
Fixpoint update_at (p : path) (f : node → node) (n : node) : node :=
  match p with
  | [] => f n
  | i :: p' =>
      match n with
      | Elem q a cs => Elem q a (alter (update_at p' f) i cs)
      | Text _ => n
      end
  end.

(** The paths of the elements of a tree in document order, the root
    ([[]]) included. *)
Fixpoint elementPaths (n : node) : list path :=
  match n with
  | Text _ => []
  | Elem _ _ cs =>
      [] :: (fix go (i : nat) (l : list node) : list path :=
               match l with
               | [] => []
               | c :: l' => ((i ::.) <$> elementPaths c) ++ go (S i) l'
               end) O cs
  end.

(** The paths of the elements that pass [test], in document order: with
    the root (a call on a [Document]) or below it (a call on an
    [Element]). *)
Definition pathsWhere (test : node → bool) (n : node) : list path :=
  filter (λ p, (test <$> get_at p n) = Some true) (elementPaths n).
Definition pathsBelow (test : node → bool) (n : node) : list path :=
  filter (λ p, p ≠ []) (pathsWhere test n).

(* ===================================================================== *)
(** ** Exceptions, packages and the state of one merge call *)
(* ===================================================================== *)

(** What the merge can throw. *)
Inductive error :=
| InsufficientSources   (** 'Need at least two DOCX sources' *)
| NoInsertionMode       (** 'Provide a pattern or set insertStart/insertEnd' *)
| NoInsertionPerformed  (** 'No insertion was performed (nothing to do).' *)
| MissingPart (part : string)  (** 'Missing ' + path *)
| XmlParseError         (** a part that is read as XML and is not XML *)
| NotFoundError         (** [removeChild] of a node that is not a child *)
| TypeError.            (** a property read on [null] or [undefined] *)

Inductive result (A : Type) :=
| OK (a : A)
| Err (e : error).
Arguments OK {A} a.
Arguments Err {A} e.

#[global] Instance result_ret : MRet result := λ A a, OK a.
#[global] Instance result_bind : MBind result :=
  λ A B f m, match m with OK a => f a | Err e => Err e end.

#[global] Instance result_fmap : FMap result :=
  λ A B f m, match m with OK a => OK (f a) | Err e => Err e end.

#[global] Instance error_eq_dec : EqDecision error.
Proof. solve_decision. Defined.

(** A file of a package: a part that parses as XML, kept as its tree, or
    any other payload. *)
Inductive content :=
| Xml (root : node)
| Bin (data : string).

(** A package: the files of a JSZip instance by path. *)
Abbreviation package := (gmap string content).

(** [Map<number, number>]. *)
Abbreviation idmap := (gmap (option Z) (option Z)).

Inductive noteKind := footnotes | endnotes.

(** The objects of the base that importing a source mutates: the base
    package, the relationships and the content types of the base document
    (both kept parsed in memory until the end of the call), and the
    [__noteMap] property stashed on the package object.  The base document
    is threaded separately: the import of a source receives it only as the
    owner of the nodes it copies, and neither reads nor writes its tree. *)
Record base := Base {
  baseZip : package;
  baseRels : node;
  baseCT : node;
  noteMap : option (option idmap * option idmap)
}.

Definition withZip (z : package) (b : base) : base :=
  Base z (baseRels b) (baseCT b) (noteMap b).
Definition withRels (r : node) (b : base) : base :=
  Base (baseZip b) r (baseCT b) (noteMap b).
Definition withCT (c : node) (b : base) : base :=
  Base (baseZip b) (baseRels b) c (noteMap b).
Definition withNoteMap (m : option (option idmap * option idmap)) (b : base) : base :=
  Base (baseZip b) (baseRels b) (baseCT b) m.

(** *** XML and ZIP helpers *)

(** [parseXml] on the content of a file: a document has a root element. *)
Definition parseXml (c : content) : result node :=
  match c with
  | Xml t => if isElement t then OK t else Err XmlParseError
  | Bin _ => Err XmlParseError
  end.

Definition readXml (zip : package) (part : string) : result node :=
  match zip !! part with
  | None => Err (MissingPart part)
  | Some f => parseXml f
  end.

Definition readXmlOrCreate (zip : package) (part : string) (fallback : node) : result node :=
  match zip !! part with
  | None => OK fallback
  | Some f => parseXml f
  end.

Definition writeXml (part : string) (xmlDoc : node) (zip : package) : package :=
  <[part := Xml xmlDoc]> zip.

(** The namespace declaration [xmlns:pre="uri"] or [xmlns="uri"] of a
    skeleton root. *)
Definition xmlnsAttr (pre uri : string) : attr :=
  if String.eqb pre EmptyString
  then Attr (QName "http://www.w3.org/2000/xmlns/" EmptyString "xmlns") uri
  else Attr (QName "http://www.w3.org/2000/xmlns/" "xmlns" pre) uri.

Definition relsSkeleton : node :=
  Elem (QName NS_pr EmptyString "Relationships") [xmlnsAttr EmptyString NS_pr] [].
Definition wSkeleton (loc : string) : node :=
  Elem (QName NS_w "w" loc) [xmlnsAttr "w" NS_w] [].
Definition numberingSkeleton : node := wSkeleton "numbering".
Definition stylesSkeleton : node := wSkeleton "styles".
Definition footnotesSkeleton : node := wSkeleton "footnotes".
Definition endnotesSkeleton : node := wSkeleton "endnotes".
Definition fontTableSkeleton : node := wSkeleton "fonts".
Definition settingsSkeleton : node := wSkeleton "settings".
Definition webSettingsSkeleton : node := wSkeleton "webSettings".
(** The root of the theme skeleton; its children are left out, the merge
    never reads this skeleton ([mergeOptionalStylePart] ignores it when no
    element name is given). *)
Definition themeSkeleton : node :=
  Elem (QName "http://schemas.openxmlformats.org/drawingml/2006/main" "a" "theme")
    [xmlnsAttr "a" "http://schemas.openxmlformats.org/drawingml/2006/main";
     Attr (QName EmptyString EmptyString "name") "Office Theme"] [].

(** [bodyEl(doc)]: the first [w:body] of the document, as the path of that
    live element; [None] is [undefined]. *)
Definition bodyEl (doc : node) : option path :=
  head (pathsWhere (hasTagNS NS_w "body") doc).

(** [lastSectPr(body)]: the last [w:sectPr] below the body, as its path
    from the body. *)
Definition lastSectPr (body : node) : option path :=
  last (pathsBelow (hasTagNS NS_w "sectPr") body).

(** [body.removeChild(n)] for the node [n] at path [p] below [body]:
    [NotFoundError] unless [n] is a child of [body]. *)
Definition removeChild (p : path) (body : node) : result node :=
  match p with
  | [i] => OK (removeChildAt i body)
  | _ => Err NotFoundError
  end.

Definition makePageBreak : node :=
  Elem (QName NS_w "w" "p") []
    [Elem (QName NS_w "w" "r") []
       [Elem (QName NS_w "w" "br") [Attr (QName NS_w "w" "type") "page"] []]].

(** *** Path arithmetic of the source *)

(** [s.substring(0, s.lastIndexOf(c) + 1)]. *)
Definition upToLast (c : ascii) (s : string) : string :=
  match Js.lastIndexOf s c with
  | Some i => Js.substring 0 (S i) s
  | None => EmptyString
  end.

Definition splitNameExt (p : string) : string * string :=
  match Js.lastIndexOf p "." with
  | Some i => (Js.substring 0 i p, Js.toLowerCase (Js.substringFrom (S i) p))
  | None => (p, EmptyString)
  end.

(** The [do ... while(zip.file(cand))] loops: the first candidate from
    index [n] on that is not a file of the package.  At most [size zip]
    candidates can be taken, which bounds the search. *)
Fixpoint firstFree (fuel : nat) (cand : nat → string) (zip : package) (n : nat) : string :=
  match fuel with
  | O => cand n
  | S fuel' =>
      match zip !! cand n with
      | Some _ => firstFree fuel' cand zip (S n)
      | None => cand n
      end
  end.

Definition uniqueMediaName (zip : package) (baseName ext : string) : string :=
  let folder := "word/media/" in
  let stem := Js.sanitize
    (match Js.lastIndexOf baseName "/" with
     | Some i => Js.substringFrom (S i) baseName
     | None => baseName
     end) in
  firstFree (size zip)
    (λ i, folder +:+ "merged_" +:+ stem +:+ "_" +:+ Js.ofZ (Z.of_nat i) +:+ "." +:+ ext)
    zip 1%nat.

Definition uniquePartPath (zip : package) (srcFull : string) : string :=
  let '(stem, ext) :=
    match Js.lastIndexOf srcFull "." with
    | Some i => (Js.substring 0 i srcFull, Js.substringFrom i srcFull)
    | None => (srcFull, EmptyString)
    end in
  firstFree (size zip)
    (λ n, stem +:+ "_merged_" +:+ Js.ofZ (Z.of_nat n) +:+ ext) zip 1%nat.

Definition normalizePath (base target : string) : string :=
  let baseDir := upToLast "/" base in
  let stack := Js.split "/" (baseDir +:+ target) in
  let out := foldl (λ out seg,
    if String.eqb seg ".." then removelast out
    else if (String.eqb seg "." || String.eqb seg EmptyString)%bool then out
    else out ++ [seg]) [] stack in
  Js.join "/" out.

Definition canonicalizeMediaPath (p : string) : string :=
  if Js.startsWith p "word/media/" then p
  else match Js.indexOf p "word/" with
       | Some idx =>
           let rest := Js.substringFrom (idx + 5) p in
           if Js.startsWith rest "media/" then "word/" +:+ rest else p
       | None => p
       end.

Definition relativeTo (from to : string) : string :=
  let fromDir := upToLast "/" from in
  if Js.startsWith to fromDir then Js.substringFrom (String.length fromDir) to else to.

(* ===================================================================== *)
(** ** Relationships *)
(* ===================================================================== *)

(** [relXml.getElementsByTagNameNS(NS.pr, 'Relationship')]. *)
Definition relationships (relXml : node) : list node :=
  docElementsByTagNameNS NS_pr "Relationship" relXml.

Definition findRelationshipById (relXml : node) (id : string) : option node :=
  find (λ el, bool_decide (getAttribute "Id" el = Some id)) (relationships relXml).

Definition findRelationshipByTypeAndTarget
    (relXml : node) (type target mode : option string) : option node :=
  find (λ el,
      (bool_decide (getAttribute "Type" el = type)
       && bool_decide (getAttribute "Target" el = target)
       && String.eqb (Js.orLit (getAttribute "TargetMode" el) EmptyString)
                     (Js.orLit mode EmptyString))%bool)
    (relationships relXml).

Definition addRelationship
    (id type target : string) (mode : option string) (relXml : node) : node :=
  let rel := createElementNS NS_pr EmptyString "Relationship" in
  let rel := setAttribute "Id" id rel in
  let rel := setAttribute "Type" type rel in
  let rel := setAttribute "Target" target rel in
  let rel := match mode with
             | Some m => if Js.truthy mode then setAttribute "TargetMode" m rel else rel
             | None => rel
             end in
  appendChild rel relXml.

(** The closure of [makeRidAllocator(relXml)], called on the current state
    of the relationship document. *)
Definition allocRid (relXml : node) : string :=
  let max := foldl (λ max el,
      match Js.execRId (Js.orLit (getAttribute "Id" el) EmptyString) with
      | Some m1 => Js.max max (Js.toNumber m1)
      | None => max
      end) (Js.Int 0) (relationships relXml) in
  "rId" +:+ Js.ofNumber (Js.incr max).

(** The table of [makeContentTypesEnsurer]. *)
Definition contentTypeOf (ext : string) : string :=
  let map := [("bmp", "image/bmp"); ("gif", "image/gif"); ("jpg", "image/jpeg");
              ("jpeg", "image/jpeg"); ("png", "image/png"); ("tif", "image/tiff");
              ("tiff", "image/tiff"); ("emf", "image/x-emf"); ("wmf", "image/x-wmf")] in
  match find (λ kv, String.eqb (fst kv) ext) map with
  | Some kv => snd kv
  | None => "application/octet-stream"
  end.

(** The closure of [makeContentTypesEnsurer(ctXml)]. *)
Definition ensureCT (ext : string) (ctXml : node) : node :=
  let defaults := docElementsByTagName "Default" ctXml in
  if existsb (λ d, String.eqb
        (Js.toLowerCase (Js.orLit (getAttribute "Extension" d) EmptyString))
        (Js.toLowerCase ext)) defaults
  then ctXml
  else
    let d := createElement "Default" in
    let d := setAttribute "Extension" ext d in
    let d := setAttribute "ContentType" (contentTypeOf ext) d in
    appendChild d ctXml.

(** [remapRelationship(oldRid, srcRelXml, baseRelXml, srcZip, baseZip,
    nextRid, ensureCT)]: the new local ID, or [None] for [null]. *)
Definition remapRelationship
    (oldRid : string) (srcRelXml : node) (srcZip : package) (b : base)
    : result (option string * base) :=
  if String.eqb oldRid EmptyString then OK (None, b) else
  match findRelationshipById srcRelXml oldRid with
  | None => OK (None, b)
  | Some srcRel =>
      let type := getAttribute "Type" srcRel in
      let target := getAttribute "Target" srcRel in
      let mode := if Js.truthy (getAttribute "TargetMode" srcRel)
                  then getAttribute "TargetMode" srcRel else None in
      match findRelationshipByTypeAndTarget (baseRels b) type target mode with
      | Some existing => OK (getAttribute "Id" existing, b)
      | None =>
          let newId := allocRid (baseRels b) in
          match type with
          | None => Err TypeError
          | Some ty =>
              if Js.endsWith ty "/hyperlink" then
                OK (Some newId,
                    withRels (addRelationship newId ty (Js.str target)
                                (Some (Js.orLit mode "External")) (baseRels b)) b)
              else if Js.endsWith ty "/image" then
                let srcPath := normalizePath P_document (Js.str target) in
                let srcMediaPath := canonicalizeMediaPath srcPath in
                match srcZip !! srcMediaPath with
                | Some data =>
                    let '(name, ext) := splitNameExt srcMediaPath in
                    let dest := uniqueMediaName (baseZip b) name ext in
                    let ct := ensureCT ext (baseCT b) in
                    let zip := <[dest := data]> (baseZip b) in
                    let relTarget := relativeTo P_document dest in
                    OK (Some newId,
                        Base zip (addRelationship newId ty relTarget mode (baseRels b))
                          ct (noteMap b))
                | None =>
                    OK (Some newId,
                        withRels (addRelationship newId ty (Js.str target) mode
                                    (baseRels b)) b)
                end
              else
                let srcFull := normalizePath P_document (Js.str target) in
                match srcZip !! srcFull with
                | Some data =>
                    let unique := uniquePartPath (baseZip b) srcFull in
                    let zip := <[unique := data]> (baseZip b) in
                    let relTarget := relativeTo P_document unique in
                    OK (Some newId,
                        withRels (addRelationship newId ty relTarget mode (baseRels b))
                          (withZip zip b))
                | None =>
                    OK (Some newId,
                        withRels (addRelationship newId ty (Js.str target) mode
                                    (baseRels b)) b)
                end
          end
      end
  end.

(* ===================================================================== *)
(** ** Numbering *)
(* ===================================================================== *)

Fixpoint foldlM {A B : Type} (f : B → A → result B) (b : B) (l : list A) : result B :=
  match l with
  | [] => OK b
  | x :: l' => b' ← f b x; foldlM f b' l'
  end.

(** The attribute reads of the source, each a chain
    [getAttributeNS(NS.w, ..) || getAttribute(..) || getAttribute(..) || lit]
    under a unary plus. *)
Definition readW (loc second third lit : string) (x : node) : Js.number :=
  Js.toNumber (Js.orLit (Js.or (getAttributeNS NS_w loc x)
                           (Js.or (getAttribute second x) (getAttribute third x))) lit).

(** IDs as [mergeNumberingParts] reads them in the base table and in the
    source table. *)
Definition baseAbstractNumId : node → Js.number :=
  readW "abstractNumId" "w:abstractNumId" "w:abstractNumId" "0".
Definition baseNumId : node → Js.number := readW "numId" "w:numId" "w:numId" "0".
Definition srcAbstractNumId : node → Js.number :=
  readW "abstractNumId" "w:abstractNumId" "abstractNumId" "0".
Definition srcNumId : node → Js.number := readW "numId" "w:numId" "numId" "0".
Definition valOr (lit : string) : node → Js.number := readW "val" "w:val" "val" lit.

(** The first loop of [mergeNumberingParts]: one [w:abstractNum] of the
    source, the live element at path [p] of the source tree. *)
Definition mergeAbstractNum
    (st : node * node * Js.number * idmap) (p : path) : node * node * Js.number * idmap :=
  let '(src, baseRoot, _absMax, absIdMap) := st in
  match get_at p src with
  | None => st
  | Some abs =>
      let oldId := srcAbstractNumId abs in
      let newId := Js.incr _absMax in
      let abs := setAttributeNS NS_w "w" "abstractNumId" (Js.ofNumber newId) abs in
      (update_at p (λ _, abs) src, appendChild abs baseRoot, newId, <[oldId := newId]> absIdMap)
  end.

(** The abstract-ID reference of a [w:num]: its first [w:abstractNumId]
    descendant, as a path from the [w:num]. *)
Definition abstractNumIdRef (num : node) : option path :=
  head (pathsBelow (hasTagNS NS_w "abstractNumId") num).

(** The second loop: one [w:num] of the source. *)
Definition mergeNum (absIdMap : idmap)
    (st : node * node * Js.number * idmap) (p : path) : node * node * Js.number * idmap :=
  let '(src, baseRoot, _numMax, numIdMap) := st in
  match get_at p src with
  | None => st
  | Some num =>
      let oldNumId := srcNumId num in
      let newNumId := Js.incr _numMax in
      let num := setAttributeNS NS_w "w" "numId" (Js.ofNumber newNumId) num in
      let num :=
        match abstractNumIdRef num with
        | Some q =>
            match get_at q num with
            | Some a =>
                let oldAbs := valOr "0" a in
                let newAbs := default oldAbs (absIdMap !! oldAbs) in
                update_at q (setAttributeNS NS_w "w" "val" (Js.ofNumber newAbs)) num
            | None => num
            end
        | None => num
        end in
      (update_at p (λ _, num) src, appendChild num baseRoot, newNumId,
       <[oldNumId := newNumId]> numIdMap)
  end.

(** [mergeNumberingParts(baseZip, srcZip, baseDoc)]: the two maps and the
    base with its numbering part rewritten. *)
Definition mergeNumberingParts (srcZip : package) (b : base)
    : result (idmap * idmap * base) :=
  baseNum ← readXmlOrCreate (baseZip b) P_numbering numberingSkeleton;
  srcNum ← readXmlOrCreate srcZip P_numbering numberingSkeleton;
  let baseAbsIds := baseAbstractNumId <$> getElementsByTagNameNS NS_w "abstractNum" baseNum in
  let baseNumIds := baseNumId <$> getElementsByTagNameNS NS_w "num" baseNum in
  let _absMax := Js.maxList baseAbsIds in
  let _numMax := Js.maxList baseNumIds in
  let '(srcNum, baseNum, _, absIdMap) :=
    foldl mergeAbstractNum (srcNum, baseNum, _absMax, ∅)
      (pathsBelow (hasTagNS NS_w "abstractNum") srcNum) in
  let '(_, baseNum, _, numIdMap) :=
    foldl (mergeNum absIdMap) (srcNum, baseNum, _numMax, ∅)
      (pathsBelow (hasTagNS NS_w "num") srcNum) in
  OK (numIdMap, absIdMap, withZip (writeXml P_numbering baseNum (baseZip b)) b).

(** The numbering reference of a paragraph: the first [w:numId] below its
    first [w:numPr], as a path from the paragraph. *)
Definition numIdRef (p : node) : option path :=
  q ← head (pathsBelow (hasTagNS NS_w "numPr") p);
  numPr ← get_at q p;
  r ← head (pathsBelow (hasTagNS NS_w "numId") numPr);
  Some (q ++ r).

(** The body of the loop of [remapNumberingInBody], on one paragraph. *)
Definition remapParagraph (numIdMap : idmap) (p : node) : node :=
  match numIdRef p with
  | None => p
  | Some r =>
      match get_at r p with
      | None => p
      | Some numId =>
          let v := valOr "NaN" numId in
          match numIdMap !! v with
          | Some new =>
              if Js.isFinite v
              then update_at r (setAttributeNS NS_w "w" "val" (Js.ofNumber new)) p
              else p
          | None => p
          end
      end
  end.

(** [remapNumberingInBody(body, numIdMap)]: every [w:p] below the body is
    visited once, in document order, and rewritten in place. *)
Definition remapNumberingInBody (numIdMap : idmap) (body : node) : node :=
  foldl (λ body pp, update_at pp (remapParagraph numIdMap) body) body
    (pathsBelow (hasTagNS NS_w "p") body).

(* ===================================================================== *)
(** ** Styles *)
(* ===================================================================== *)

(** [s.getAttributeNS(NS.w, loc) || s.getAttribute('w:' + loc) ||
    s.getAttribute(loc)]. *)
Definition readName (loc : string) (s : node) : option string :=
  Js.or (getAttributeNS NS_w loc s)
    (Js.or (getAttribute ("w:" +:+ loc) s) (getAttribute loc s)).

Definition styleId : node → option string := readName "styleId".

(** The loop shared by the styles table and the font table: a source
    element is appended when its key is truthy and not yet in [existing]. *)
Definition mergeKeyed (key : node → option string)
    (st : node * gset (option string)) (s : node) : node * gset (option string) :=
  let '(baseRoot, existing) := st in
  let id := key s in
  if (Js.truthy id && bool_decide (id ∉ existing))%bool
  then (appendChild s baseRoot, {[id]} ∪ existing)
  else st.

Definition mergeOptionalStylePart
    (srcZip : package) (partPath : string) (skeleton : node)
    (mergeElementName : option string) (zip : package) : result package :=
  match srcZip !! partPath with
  | None => OK zip
  | Some srcFile =>
      match mergeElementName with
      | Some name =>
          basePart ← readXmlOrCreate zip partPath skeleton;
          srcPart ← readXml srcZip partPath;
          let existing : gset (option string) :=
            list_to_set ((λ el, Some (Js.orLit (readName "name" el) EmptyString))
                           <$> docElementsByTagNameNS NS_w name basePart) in
          let '(basePart, _) :=
            foldl (mergeKeyed (readName "name")) (basePart, existing)
              (docElementsByTagNameNS NS_w name srcPart) in
          OK (writeXml partPath basePart zip)
      | None =>
          match zip !! partPath with
          | None => OK (<[partPath := srcFile]> zip)
          | Some _ => OK zip
          end
      end
  end.

Definition mergeSettingsPart (srcZip : package) (zip : package) : result package :=
  match srcZip !! P_settings with
  | None => OK zip
  | Some _ =>
      baseSettings ← readXmlOrCreate zip P_settings settingsSkeleton;
      srcSettingsDoc ← readXml srcZip P_settings;
      let styleElements :=
        ["defaultTabStop"; "characterSpacingControl"; "printTwoOnOne";
         "printColorBlackWhite"; "doNotPromptForConvert"; "mwSmallCaps"] in
      let baseSettings := foldl (λ baseSettings elementName,
          match head (docElementsByTagNameNS NS_w elementName srcSettingsDoc),
                head (docElementsByTagNameNS NS_w elementName baseSettings) with
          | Some srcElement, None => appendChild srcElement baseSettings
          | _, _ => baseSettings
          end) baseSettings styleElements in
      OK (writeXml P_settings baseSettings zip)
  end.

Definition mergeStylesPart (srcZip : package) (zip : package) : result package :=
  baseStyles ← readXmlOrCreate zip P_styles stylesSkeleton;
  srcStyles ← readXmlOrCreate srcZip P_styles stylesSkeleton;
  let existing : gset (option string) :=
    list_to_set (styleId <$> docElementsByTagNameNS NS_w "style" baseStyles) in
  let '(baseStyles, _) :=
    foldl (mergeKeyed styleId) (baseStyles, existing)
      (docElementsByTagNameNS NS_w "style" srcStyles) in
  let zip := writeXml P_styles baseStyles zip in
  zip ← mergeOptionalStylePart srcZip P_fontTable fontTableSkeleton (Some "font") zip;
  zip ← mergeOptionalStylePart srcZip P_theme themeSkeleton None zip;
  zip ← mergeOptionalStylePart srcZip P_webSettings webSettingsSkeleton None zip;
  mergeSettingsPart srcZip zip.

Definition ensureStyleRelationships (baseRels : node) : node :=
  let rel := "http://schemas.openxmlformats.org/officeDocument/2006/relationships/" in
  let styleParts :=
    [(P_styles, rel +:+ "styles"); (P_fontTable, rel +:+ "fontTable");
     (P_theme, rel +:+ "theme"); (P_webSettings, rel +:+ "webSettings");
     (P_settings, rel +:+ "settings")] in
  foldl (λ baseRels part,
      let target := relativeTo P_document (fst part) in
      match findRelationshipByTypeAndTarget baseRels (Some (snd part)) (Some target) None with
      | Some _ => baseRels
      | None => addRelationship (allocRid baseRels) (snd part) target None baseRels
      end) baseRels styleParts.

(* ===================================================================== *)
(** ** Footnotes and endnotes *)
(* ===================================================================== *)

Definition noteId (lit : string) : node → Js.number := readW "id" "w:id" "id" lit.

(** The loop of [mergeNotes] over the notes of the source: a note whose ID
    is negative is only recorded, any other note is renumbered and copied.
    The loop writes the root attributes of the note it visits and nothing
    else, so the live note is its subtree in the parsed source. *)
Definition mergeNote (st : node * Z * idmap) (n : node) : node * Z * idmap :=
  let '(baseNotes, maxId, idMap) := st in
  let oldId := noteId "0" n in
  if Js.ltZero oldId then (baseNotes, maxId, <[oldId := oldId]> idMap)
  else
    let newId := Z.succ maxId in
    let n := setAttributeNS NS_w "w" "id" (Js.ofZ newId) n in
    (appendChild n baseNotes, newId, <[oldId := Js.Int newId]> idMap).

(** [Math.max(0, ...ids.filter(n => n >= 0))]. *)
Definition maxNonNegative (ids : list Js.number) : Z :=
  foldl (λ m n, match n with Some z => if bool_decide (0 <= z) then Z.max m z else m
                           | None => m end) 0 ids.

(** The loop of [mergeNotes] over the relationships of the source notes
    part. *)
Definition mergeNoteRel (part : string) (srcZip : package)
    (st : node * package) (el : node) : node * package :=
  let '(baseRel, zip) := st in
  let type := getAttribute "Type" el in
  let target := getAttribute "Target" el in
  let mode := Js.orLit (getAttribute "TargetMode" el) EmptyString in
  let modeArg := if String.eqb mode EmptyString then None else Some mode in
  match findRelationshipByTypeAndTarget baseRel type target modeArg with
  | Some _ => st
  | None =>
      let newId := allocRid baseRel in
      let baseRel := addRelationship newId (Js.str type) (Js.str target) modeArg baseRel in
      if String.eqb mode EmptyString then
        let srcFull := normalizePath part (Js.str target) in
        match srcZip !! srcFull with
        | Some data => (baseRel, <[uniquePartPath zip srcFull := data]> zip)
        | None => (baseRel, zip)
        end
      else (baseRel, zip)
  end.

Definition setNoteMap (kind : noteKind) (idMap : idmap)
    (m : option (option idmap * option idmap)) : option (option idmap * option idmap) :=
  let '(f, e) := default (None, None) m in
  match kind with
  | footnotes => Some (Some idMap, e)
  | endnotes => Some (f, Some idMap)
  end.

Definition mergeNotes (srcZip : package) (kind : noteKind) (b : base) : result base :=
  let part := match kind with footnotes => P_footnotes | endnotes => P_endnotes end in
  let relPath := "word/_rels/" +:+
    match kind with footnotes => "footnotes.xml.rels" | endnotes => "endnotes.xml.rels" end in
  let skel := match kind with footnotes => footnotesSkeleton | endnotes => endnotesSkeleton end in
  baseNotes ← readXmlOrCreate (baseZip b) part skel;
  srcNotes ← readXmlOrCreate srcZip part skel;
  let tag := match kind with footnotes => "footnote" | endnotes => "endnote" end in
  let baseIds := noteId "0" <$> docElementsByTagNameNS NS_w tag baseNotes in
  let maxId := maxNonNegative baseIds in
  let '(baseNotes, _, idMap) :=
    foldl mergeNote (baseNotes, maxId, ∅) (docElementsByTagNameNS NS_w tag srcNotes) in
  let stash := setNoteMap kind idMap (noteMap b) in
  baseRel ← readXmlOrCreate (baseZip b) relPath relsSkeleton;
  srcRel ← readXmlOrCreate srcZip relPath relsSkeleton;
  let '(baseRel, zip) :=
    foldl (mergeNoteRel part srcZip) (baseRel, baseZip b) (relationships srcRel) in
  let zip := writeXml part baseNotes zip in
  let zip := writeXml relPath baseRel zip in
  OK (withNoteMap stash (withZip zip b)).

Definition getNoteIdRemap (kind : noteKind) (b : base) : idmap :=
  match noteMap b with
  | Some (f, e) => default ∅ (match kind with footnotes => f | endnotes => e end)
  | None => ∅
  end.

(** The body of the inner loop of [remapNoteRefsInBody], on one reference
    element. *)
Definition remapNoteRef (idMap : idmap) (r : node) : node :=
  let v := noteId "NaN" r in
  match idMap !! v with
  | Some new => setAttributeNS NS_w "w" "id" (Js.ofNumber new) r
  | None => r
  end.

(** [remapNoteRefsInBody(body, idMap)]: both kinds of reference elements
    are rewritten with the one map, first every [w:footnoteReference], then
    every [w:endnoteReference]. *)
Definition remapNoteRefsInBody (idMap : idmap) (body : node) : node :=
  if bool_decide (size idMap = O) then body
  else
    foldl (λ body tag,
        foldl (λ body p, update_at p (remapNoteRef idMap) body) body
          (pathsBelow (hasTagNS NS_w tag) body))
      body ["footnoteReference"; "endnoteReference"].

(* ===================================================================== *)
(** ** Importing the body of a source *)
(* ===================================================================== *)

Record MergeOptions := {
  pattern : option string;
  insertStart : option bool;
  insertEnd : option bool;
  pageBreaks : option bool;
  mergeNumbering : option bool;
  mergeStyles : option bool;
  mergeFootnotes : option bool
}.

Record RequiredMergeOptions := {
  r_pattern : option string;
  r_insertStart : bool;
  r_insertEnd : bool;
  r_pageBreaks : bool;
  r_mergeNumbering : bool;
  r_mergeStyles : bool;
  r_mergeFootnotes : bool
}.

Definition withDefaults (o : MergeOptions) : RequiredMergeOptions := {|
  r_pattern := pattern o;
  r_insertStart := default false (insertStart o);
  r_insertEnd := default false (insertEnd o);
  r_pageBreaks := negb (bool_decide (pageBreaks o = Some false));
  r_mergeNumbering := negb (bool_decide (mergeNumbering o = Some false));
  r_mergeStyles := negb (bool_decide (mergeStyles o = Some false));
  r_mergeFootnotes := negb (bool_decide (mergeFootnotes o = Some false))
|}.

(** The test [needs] of [importBodyNodes] on one attribute. *)
Definition needsRemap (a : attr) : bool :=
  ((String.eqb (q_local (a_qname a)) "id" && String.eqb (q_ns (a_qname a)) NS_r)
   || String.eqb (q_name (a_qname a)) "r:id")%bool.

(** [attr.value] for an attribute of the copy [Array.from(el.attributes)]:
    the attribute objects are live, so the value is the one the element
    holds now, or the one the copy was taken with when the attribute has
    been removed from the element in the meantime. *)
Definition liveValue (el : node) (a : attr) : string :=
  default (a_value a)
    (a_value <$> find (attrIsNS (q_ns (a_qname a)) (q_local (a_qname a))) (attributes el)).

(** One turn of the loop over the attributes of an imported element.  The
    loop runs over a copy of the attribute list. *)
Definition remapAttribute (srcRels : node) (srcZip : package)
    (st : node * base) (a : attr) : result (node * base) :=
  let '(el, b) := st in
  if needsRemap a then
    let oldRid := liveValue el a in
    '(newRid, b) ← remapRelationship oldRid srcRels srcZip b;
    match newRid with
    | Some rid =>
        if Js.truthy newRid then OK (setAttributeNS NS_r "r" "id" rid el, b)
        else OK (removeAttributeNS NS_r "id" el, b)
    | None => OK (removeAttributeNS NS_r "id" el, b)
    end
  else OK st.

(** The loop over [[imported, ...descendants(imported)]]: every element of
    the imported subtree in document order. *)
Fixpoint remapRelIds (srcRels : node) (srcZip : package) (n : node) (b : base)
    : result (node * base) :=
  match n with
  | Text _ => OK (n, b)
  | Elem q attrs cs =>
      '(el, b) ← foldlM (remapAttribute srcRels srcZip) (n, b) attrs;
      '(cs', b) ←
        (fix go (l : list node) (b : base) : result (list node * base) :=
           match l with
           | [] => OK ([], b)
           | c :: l' =>
               '(c', b) ← remapRelIds srcRels srcZip c b;
               '(l'', b) ← go l' b;
               OK (c' :: l'', b)
           end) cs b;
      OK (Elem q (attributes el) cs', b)
  end.

(** A use of [srcBody] that throws when the source document has no
    [w:body]. *)
Definition onBody (f : node → node) (srcBody : option node) : result (option node) :=
  match srcBody with
  | Some body => OK (Some (f body))
  | None => Err TypeError
  end.

(** [importBodyNodes] up to its import loop: the source body as prepared
    for the import, the source relationships, and the base after the
    auxiliary parts are merged. *)
Definition prepareBody (srcZip : package) (opt : RequiredMergeOptions) (b : base)
    : result (option node * node * base) :=
  srcDoc ← readXml srcZip P_document;
  let srcBody := bodyEl srcDoc ≫= (λ bp, get_at bp srcDoc) in
  srcBody ← match srcBody ≫= (λ body, pair body <$> lastSectPr body) with
            | Some (body, srcSect) => Some <$> removeChild srcSect body
            | None => OK srcBody
            end;
  srcRels ← readXmlOrCreate srcZip P_docRels relsSkeleton;
  '(srcBody, b) ←
    (if r_mergeNumbering opt then
       '(numIdMap, _, b) ← mergeNumberingParts srcZip b;
       srcBody ← onBody (remapNumberingInBody numIdMap) srcBody;
       OK (srcBody, b)
     else OK (srcBody, b));
  b ← (if r_mergeStyles opt then
         zip ← mergeStylesPart srcZip (baseZip b);
         OK (withRels (ensureStyleRelationships (baseRels b)) (withZip zip b))
       else OK b);
  '(srcBody, b) ←
    (if r_mergeFootnotes opt then
       b ← mergeNotes srcZip footnotes b;
       b ← mergeNotes srcZip endnotes b;
       srcBody ← (if bool_decide (size (getNoteIdRemap footnotes b) = O) then OK srcBody
                  else onBody (remapNoteRefsInBody (getNoteIdRemap footnotes b)) srcBody);
       srcBody ← (if bool_decide (size (getNoteIdRemap endnotes b) = O) then OK srcBody
                  else onBody (remapNoteRefsInBody (getNoteIdRemap endnotes b)) srcBody);
       OK (srcBody, b)
     else OK (srcBody, b));
  OK (srcBody, srcRels, b).

(** The import loop over the child nodes of the prepared body. *)
Definition importNodes (srcRels : node) (srcZip : package)
    (st : list node * base) (n : node) : result (list node * base) :=
  let '(importedNodes, b) := st in
  if isElement n then
    '(imported, b) ← remapRelIds srcRels srcZip n b;
    OK (importedNodes ++ [imported], b)
  else OK st.

Definition importBodyNodes (srcZip : package) (opt : RequiredMergeOptions) (b : base)
    : result (list node * base) :=
  '(srcBody, srcRels, b) ← prepareBody srcZip opt b;
  match srcBody with
  | Some srcBody => foldlM (importNodes srcRels srcZip) ([], b) (childNodes srcBody)
  | None => Err TypeError
  end.

(* ===================================================================== *)
(** ** The orchestrator *)
(* ===================================================================== *)

Definition appendDocInto (srcZip : package) (opt : RequiredMergeOptions) (atEnd : bool)
    (st : node * base) : result (node * base) :=
  let '(baseDoc, b) := st in
  let baseBody := bodyEl baseDoc in
  '(importedNodes, b) ← importBodyNodes srcZip opt b;
  match baseBody with
  | Some bp =>
      let doc :=
        if (r_pageBreaks opt
            && bool_decide (is_Some (get_at bp baseDoc ≫= (λ body, last (childNodes body)))))%bool
        then update_at bp (appendChild makePageBreak) baseDoc else baseDoc in
      let doc := foldl (λ doc n, update_at bp (appendChild n) doc) doc importedNodes in
      OK (doc, b)
  | None =>
      if r_pageBreaks opt then Err TypeError
      else match importedNodes with
           | [] => OK (baseDoc, b)
           | _ :: _ => Err TypeError
           end
  end.

(** An anchor paragraph of the live base document: the path of its parent
    and its index among the children of that parent. *)
Definition anchorRef : Type := path * nat.

Definition insertDocBefore (srcZip : package) (opt : RequiredMergeOptions)
    (st : anchorRef * node * base) : result (anchorRef * node * base) :=
  let '(anchorP, baseDoc, b) := st in
  '(importedNodes, b) ← importBodyNodes srcZip opt b;
  let parent := fst anchorP in
  let '(doc, i) :=
    foldl (λ '(doc, i) n, (update_at parent (insertBeforeAt i n) doc, S i))
      (baseDoc, snd anchorP) importedNodes in
  OK ((parent, i), doc, b).

(** The text of a paragraph as [findParagraphsContainingText] builds it. *)
Definition paragraphText (p : node) : string :=
  foldl (λ t r, t +:+ textContent r) EmptyString (getElementsByTagNameNS NS_w "t" p).

Definition paragraphMatches (text : string) (p : node) : bool :=
  Js.includes (paragraphText p) text.

(** [findParagraphsContainingText(doc, text)]: the matching paragraphs, as
    paths in the document. *)
Definition findParagraphsContainingText (doc : node) (text : string) : result (list path) :=
  match bodyEl doc with
  | None => Err TypeError
  | Some bp =>
      match get_at bp doc with
      | None => Err TypeError
      | Some body =>
          OK ((bp ++.) <$>
              filter (λ p, (paragraphMatches text <$> get_at p body) = Some true)
                (pathsBelow (hasTagNS NS_w "p") body))
      end
  end.

Definition splitAnchor (p : path) : option anchorRef :=
  match reverse p with
  | i :: rp => Some (reverse rp, i)
  | [] => None
  end.

Inductive logLevel := info | ok | warn | err.

(** The three parts of the base that [mergeDocx] reads first. *)
Definition loadBase (zip0 : package) : result (node * base) :=
  baseDoc ← readXml zip0 P_document;
  baseRels ← readXmlOrCreate zip0 P_docRels relsSkeleton;
  baseCT ← readXml zip0 P_ct;
  OK (baseDoc, Base zip0 baseRels baseCT None).

(** Detaching the trailing section properties of the base body: the
    detached element, if any, and the document without it. *)
Definition detachSectPr (baseDoc : node) : result (option node * node) :=
  match bodyEl baseDoc with
  | None => OK (None, baseDoc)
  | Some bp =>
      match get_at bp baseDoc with
      | None => OK (None, baseDoc)
      | Some baseBody =>
          match lastSectPr baseBody with
          | None => OK (None, baseDoc)
          | Some sp =>
              baseBody' ← removeChild sp baseBody;
              OK (get_at sp baseBody, update_at bp (λ _, baseBody') baseDoc)
          end
      end
  end.

(** The insertStart and insertEnd loops. *)
Definition appendAll (srcs : list package) (opt : RequiredMergeOptions) (atEnd : bool)
    (st : node * base) : result (node * base) :=
  foldlM (λ st srcZip, appendDocInto srcZip opt atEnd st) st srcs.

(** The pattern step: the document and the base after it, the number of
    insertions it counts and what it logs. *)
Definition insertAtPattern (srcs : list package) (opt : RequiredMergeOptions)
    (text : string) (st : node * base)
    : result (node * base * nat * list (string * logLevel)) :=
  matches ← findParagraphsContainingText (fst st) text;
  match matches with
  | [] => OK (st, O, [("Pattern not found in base document", warn)])
  | m0 :: _ =>
      match splitAnchor m0 with
      | None => Err TypeError
      | Some anchor =>
          '(_, doc, b) ← foldlM (λ st srcZip, insertDocBefore srcZip opt st)
                           (anchor, fst st, snd st) srcs;
          OK (doc, b, 1%nat, [])
      end
  end.

(** [mergeDocx(inputBuffers, options)] on inputs that are opened packages:
    the merged package and the calls made to the logging callback. *)
Definition mergeDocx (zips : list package) (options : MergeOptions)
    : result (package * list (string * logLevel)) :=
  let opt := withDefaults options in
  if bool_decide (length zips < 2)%nat then Err InsufficientSources else
  if (negb (Js.truthy (r_pattern opt)) && negb (r_insertStart opt)
      && negb (r_insertEnd opt))%bool then Err NoInsertionMode else
  match zips with
  | [] => Err InsufficientSources
  | zip0 :: srcs =>
      let log := [("Reading " +:+ Js.ofZ (Z.of_nat (length zips)) +:+ " DOCX files ...", info)] in
      '(baseDoc, b) ← loadBase zip0;
      let baseBody := bodyEl baseDoc in
      '(baseSectPr, baseDoc) ← detachSectPr baseDoc;
      let totalReplacements :=
        (0 + (if r_insertStart opt then 1 else 0) + (if r_insertEnd opt then 1 else 0))%nat in
      st ← (if r_insertStart opt then appendAll srcs opt false (baseDoc, b)
            else OK (baseDoc, b));
      '(st, n, l) ←
        match r_pattern opt with
        | Some text =>
            if Js.truthy (r_pattern opt) then insertAtPattern srcs opt text st
            else OK (st, O, [])
        | None => OK (st, O, [])
        end;
      let totalReplacements := (totalReplacements + n)%nat in
      let log := log ++ l in
      '(baseDoc, b) ← (if r_insertEnd opt then appendAll srcs opt true st else OK st);
      if bool_decide (totalReplacements = O) then Err NoInsertionPerformed else
      let baseDoc :=
        match baseSectPr, baseBody with
        | Some s, Some bp => update_at bp (appendChild s) baseDoc
        | _, _ => baseDoc
        end in
      let zip := writeXml P_document baseDoc (baseZip b) in
      let zip := writeXml P_docRels (baseRels b) zip in
      let zip := writeXml P_ct (baseCT b) zip in
      let log := log ++ [("Packaging merged .docx ...", info); ("Done.", info)] in
      OK (zip, log)
  end.

(* ===================================================================== *)
(** ** Definitions used by the statements *)
(* ===================================================================== *)

(** Induction on trees: the children of an element satisfy the property. *)
Fixpoint node_ind (P : node → Prop)
    (HT : ∀ s, P (Text s))
    (HE : ∀ q a cs, Forall P cs → P (Elem q a cs)) (n : node) : P n :=
  match n with
  | Text s => HT s
  | Elem q a cs =>
      HE q a cs
        ((fix go (l : list node) : Forall P l :=
            match l with
            | [] => @List.Forall_nil node P
            | c :: l0 => @List.Forall_cons node P c l0 (node_ind P HT HE c) (go l0)
            end) cs)
  end.

(** The paths of the elements of a child list whose first child has index
    [i], all of them or those that pass [test]. *)
Fixpoint childPaths (i : nat) (l : list node) : list path :=
  match l with
  | [] => []
  | c :: l' => ((i ::.) <$> elementPaths c) ++ childPaths (S i) l'
  end.

Fixpoint childrenWhere (test : node → bool) (i : nat) (l : list node) : list path :=
  match l with
  | [] => []
  | c :: l' => ((i ::.) <$> pathsWhere test c) ++ childrenWhere test (S i) l'
  end.

(** The body of a document sits at path [bp] and carries the name [q] and
    the attributes [a]. *)
Definition bodyAt (bp : path) (q : qname) (a : list attr) (d : node) : Prop :=
  bodyEl d = Some bp ∧ ∃ cs, get_at bp d = Some (Elem q a cs).

(** Whether a call returned. *)
Definition returned {A} (r : result A) : bool :=
  match r with OK _ => true | Err _ => false end.

(** The errors that the steps of a merge throw, as opposed to the checks
    of the orchestrator itself. *)
Definition thrownBelow (e : error) : Prop :=
  match e with
  | MissingPart _ | XmlParseError | NotFoundError | TypeError => True
  | InsufficientSources | NoInsertionMode | NoInsertionPerformed => False
  end.

(** The pattern step of [mergeDocx]. *)
Definition patternStep (srcs : list package) (opt : RequiredMergeOptions) (st : node * base)
    : result (node * base * nat * list (string * logLevel)) :=
  match r_pattern opt with
  | Some text =>
      if Js.truthy (r_pattern opt) then insertAtPattern srcs opt text st
      else OK (st, O, [])
  | None => OK (st, O, [])
  end.

(** The nodes that importing the sources one after the other yields, one
    list per source, in the order of the source array. *)
Fixpoint importAll (srcs : list package) (opt : RequiredMergeOptions) (b : base)
    : result (list (list node) * base) :=
  match srcs with
  | [] => OK ([], b)
  | srcZip :: rest =>
      '(ns, b) ← importBodyNodes srcZip opt b;
      '(nss, b) ← importAll rest opt b;
      OK (ns :: nss, b)
  end.

(** The children of an element with the nodes [ns] put in front of the
    child of index [i]. *)
Definition insertManyAt (i : nat) (ns : list node) (parent : node) : node :=
  match parent with
  | Elem q a cs => Elem q a (take i cs ++ ns ++ drop i cs)
  | Text _ => parent
  end.

(** The IDs of a relationship set, as the allocator reads them. *)
Definition relIds (relXml : node) : list string :=
  (λ el, Js.orLit (getAttribute "Id" el) EmptyString) <$> relationships relXml.

(** The number the allocator reads in an ID: the digits that follow the
    first occurrence of rId followed by a digit; 0 when there is none. *)
Definition ridNumber (id : string) : Z := default 0 (Js.execRId id ≫= Js.toNumber).

Definition ridMax (relXml : node) : Z := foldr Z.max 0 (ridNumber <$> relIds relXml).

(** Modelled from the spec: the numeric suffix [N] of an ID that has the
    form rId<N>, the text rId followed by decimal digits and nothing
    else. *)
Definition ridSuffix (id : string) : option Z :=
  if String.prefix "rId" id then
    let d := Js.substringFrom 3 id in
    if (negb (String.eqb d EmptyString) && String.eqb (Js.takeDigits d) d)%bool
    then Js.toNumber d else None
  else None.

(** Modelled from the spec: the allocator returns rId<N+1> for the maximum
    [N] over the entries whose ID has the form rId<N>. *)
Definition specAllocRid (relXml : node) : string :=
  "rId" +:+ Js.ofZ (foldr Z.max 0 (omap ridSuffix (relIds relXml)) + 1).

(** Repeated allocation as the merge performs it: every ID that is
    allocated is added to the relationship set before the next one is. *)
Fixpoint allocMany (reqs : list (string * string * option string)) (relXml : node)
    : list string :=
  match reqs with
  | [] => []
  | (type, target, mode) :: rest =>
      let id := allocRid relXml in
      id :: allocMany rest (addRelationship id type target mode relXml)
  end.

Definition relsWithForeignId : node :=
  Elem (QName NS_pr EmptyString "Relationships") []
    [Elem (QName NS_pr EmptyString "Relationship")
       [Attr (QName EmptyString EmptyString "Id") "xrId9";
        Attr (QName EmptyString EmptyString "Type") "t";
        Attr (QName EmptyString EmptyString "Target") "u"] []].

(** *** Small documents for the examples *)

Definition wName (loc : string) : qname := QName NS_w "w" loc.

(** [<w:p><w:r><w:t>text</w:t></w:r></w:p>]. *)
Definition paragraph (text : string) : node :=
  Elem (wName "p") [] [Elem (wName "r") [] [Elem (wName "t") [] [Text text]]].

Definition documentOf (bodyChildren : list node) : node :=
  Elem (wName "document") [xmlnsAttr "w" NS_w] [Elem (wName "body") [] bodyChildren].

Definition contentTypes : node :=
  Elem (QName "http://schemas.openxmlformats.org/package/2006/content-types"
          EmptyString "Types") []
    [Elem (QName "http://schemas.openxmlformats.org/package/2006/content-types"
             EmptyString "Default")
       [Attr (QName EmptyString EmptyString "Extension") "xml";
        Attr (QName EmptyString EmptyString "ContentType") "application/xml"] []].

(** A minimal package: a document and the content types. *)
Definition packageOf (bodyChildren : list node) : package :=
  <[P_document := Xml (documentOf bodyChildren)]> (<[P_ct := Xml contentTypes]> ∅).

Definition packageWithRels (bodyChildren : list node) (rels : list node) : package :=
  <[P_docRels := Xml (Elem (QName NS_pr EmptyString "Relationships") [] rels)]>
    (packageOf bodyChildren).

Definition relationship (id type target : string) : node :=
  Elem (QName NS_pr EmptyString "Relationship")
    [Attr (QName EmptyString EmptyString "Id") id;
     Attr (QName EmptyString EmptyString "Type") type;
     Attr (QName EmptyString EmptyString "Target") target] [].

Definition noOptions : MergeOptions :=
  {| pattern := None; insertStart := None; insertEnd := None; pageBreaks := Some false;
     mergeNumbering := None; mergeStyles := None; mergeFootnotes := None |}.
Definition startOnly : MergeOptions :=
  {| pattern := None; insertStart := Some true; insertEnd := None; pageBreaks := Some false;
     mergeNumbering := None; mergeStyles := None; mergeFootnotes := None |}.
Definition endOnly : MergeOptions :=
  {| pattern := None; insertStart := None; insertEnd := Some true; pageBreaks := Some false;
     mergeNumbering := None; mergeStyles := None; mergeFootnotes := None |}.
Definition patternOnly (text : string) : MergeOptions :=
  {| pattern := Some text; insertStart := None; insertEnd := None; pageBreaks := Some false;
     mergeNumbering := None; mergeStyles := None; mergeFootnotes := None |}.

(** The children of the body of the merged document, the relationships of
    the merged document and the log of a merge. *)
Definition mergedBody (r : result (package * list (string * logLevel)))
    : option (list node) :=
  match r with
  | OK (zip, _) =>
      match zip !! P_document with
      | Some (Xml d) => childNodes <$> (bodyEl d ≫= λ bp, get_at bp d)
      | _ => None
      end
  | Err _ => None
  end.

Definition mergedRels (r : result (package * list (string * logLevel)))
    : option (list node) :=
  match r with
  | OK (zip, _) =>
      match zip !! P_docRels with
      | Some (Xml rels) => Some (relationships rels)
      | _ => None
      end
  | Err _ => None
  end.

Definition mergedLog (r : result (package * list (string * logLevel)))
    : option (list (string * logLevel)) :=
  match r with
  | OK (_, log) => Some log
  | Err _ => None
  end.

(** A reference [r:id] whose prefix is bound to a namespace other than
    [NS.r], here that of the strict variant of the format. *)
Definition strictHyperlink : node :=
  Elem (wName "hyperlink")
    [Attr (QName "http://purl.oclc.org/ooxml/officeDocument/relationships" "r" "id") "rId9"]
    [Elem (wName "r") [] [Elem (wName "t") [] [Text "link"]]].

(** A reference to an image relationship whose payload is not in the
    package. *)
Definition imageRef : node :=
  Elem (wName "p") [] [Elem (wName "pict") [Attr (QName NS_r "r" "id") "rId1"] []].
Definition imageType : string :=
  "http://schemas.openxmlformats.org/officeDocument/2006/relationships/image".

(** [parent.appendChild(c)] for every [c] of a list, in order. *)
Definition appendChildren (l : list node) (parent : node) : node :=
  foldl (λ parent c, appendChild c parent) parent l.

(** The style entries of a styles table, and the IDs they define: a style
    whose [styleId] is absent or empty defines none. *)
Definition styles (root : node) : list node := docElementsByTagNameNS NS_w "style" root.

Definition definedStyleId (s : node) : option string :=
  match styleId s with
  | Some id => if String.eqb id EmptyString then None else Some id
  | None => None
  end.

Definition styleIdsOf (root : node) : list string := omap definedStyleId (styles root).

(** The elements that the loop [mergeKeyed] appends, without the table. *)
Fixpoint keptKeyed (key : node → option string) (existing : gset (option string))
    (l : list node) : list node :=
  match l with
  | [] => []
  | s :: l' =>
      if (Js.truthy (key s) && bool_decide (key s ∉ existing))%bool
      then s :: keptKeyed key ({[key s]} ∪ existing) l'
      else keptKeyed key existing l'
  end.

Definition style (id : string) (children : list node) : node :=
  Elem (wName "style") [Attr (QName NS_w "w" "styleId") id] children.

Definition stylesPart (l : list node) : package :=
  <[P_styles := Xml (Elem (wName "styles") [] l)]> ∅.

(** The shape of a tree: its elements and their names, without attributes
    and character data. *)
Fixpoint shape (n : node) : node :=
  match n with
  | Elem q _ cs => Elem q [] (map shape cs)
  | Text _ => Text EmptyString
  end.

(** A function on nodes that rewrites the attributes of an element and
    nothing else. *)
Definition rootAttrOnly (f : node → node) : Prop :=
  (∀ q a cs, ∃ a', f (Elem q a cs) = Elem q a' cs) ∧ (∀ s, f (Text s) = Text s).

(** The part, the fallback document and the element name of a kind of
    notes, as [mergeNotes] selects them. *)
Definition notePart (kind : noteKind) : string :=
  match kind with footnotes => P_footnotes | endnotes => P_endnotes end.
Definition noteSkeleton (kind : noteKind) : node :=
  match kind with footnotes => footnotesSkeleton | endnotes => endnotesSkeleton end.
Definition notesOf (kind : noteKind) (doc : node) : list node :=
  docElementsByTagNameNS NS_w
    (match kind with footnotes => "footnote" | endnotes => "endnote" end) doc.

(** The source notes that [mergeNotes] copies: those whose ID is not
    negative. *)
Definition copied (l : list node) : list node :=
  filter (λ n, Js.ltZero (noteId "0" n) = false) l.

(** The copies, numbered upwards from the counter. *)
Definition renumber (maxId : Z) (l : list node) : list node :=
  imap (λ k n, setAttributeNS NS_w "w" "id" (Js.ofZ (maxId + 1 + Z.of_nat k)) n) l.

(** A notes part with the given notes. *)
Definition note (kind : noteKind) (id : string) : node :=
  Elem (wName (match kind with footnotes => "footnote" | endnotes => "endnote" end))
       [Attr (wName "id") id] [].
Definition notesPart (kind : noteKind) (l : list node) : node :=
  Elem (wName (match kind with footnotes => "footnotes" | endnotes => "endnotes" end)) [] l.
Definition notesPackage (kind : noteKind) (l : list node) : package :=
  <[notePart kind := Xml (notesPart kind l)]> ∅.

(** The two loops of [mergeNumberingParts] have one form: the entry at a
    path of the source table is given the next number, rewritten by [g],
    copied to the end of the base table, and its old number is mapped to
    the new one. *)
Definition tableStep (g : Js.number → node → node) (key : node → Js.number)
    (st : node * node * Js.number * idmap) (p : path) : node * node * Js.number * idmap :=
  let '(src, baseRoot, mx, m) := st in
  match get_at p src with
  | None => st
  | Some x =>
      let new := Js.incr mx in
      (update_at p (λ _, g new x) src, appendChild (g new x) baseRoot, new,
       <[key x := new]> m)
  end.

Definition renumberAbstractNum (new : Js.number) (abs : node) : node :=
  setAttributeNS NS_w "w" "abstractNumId" (Js.ofNumber new) abs.

Definition renumberNum (absIdMap : idmap) (new : Js.number) (num : node) : node :=
  let num := setAttributeNS NS_w "w" "numId" (Js.ofNumber new) num in
  match abstractNumIdRef num with
  | Some q =>
      match get_at q num with
      | Some a =>
          let oldAbs := valOr "0" a in
          let newAbs := default oldAbs (absIdMap !! oldAbs) in
          update_at q (setAttributeNS NS_w "w" "val" (Js.ofNumber newAbs)) num
      | None => num
      end
  | None => num
  end.

(** The numbers drawn for a list of entries, each with its entry. *)
Fixpoint assign (mx : Js.number) (xs : list node) : list (Js.number * node) :=
  match xs with
  | [] => []
  | x :: xs => (Js.incr mx, x) :: assign (Js.incr mx) xs
  end.

Definition assignedMap (key : node → Js.number) (m : idmap)
    (l : list (Js.number * node)) : idmap :=
  foldl (λ m nx, <[key nx.2 := nx.1]> m) m l.

(** The instances and the abstract definitions of a numbering table, the
    number an instance refers to and the number a paragraph refers to. *)
Definition instances (table : node) : list node := getElementsByTagNameNS NS_w "num" table.
Definition abstractDefinitions (table : node) : list node :=
  getElementsByTagNameNS NS_w "abstractNum" table.
Definition instanceIds (table : node) : list Js.number := srcNumId <$> instances table.
Definition abstractIds (table : node) : list Js.number :=
  srcAbstractNumId <$> abstractDefinitions table.

Definition abstractRef (num : node) : option Js.number :=
  q ← abstractNumIdRef num; a ← get_at q num; Some (valOr "0" a).

Definition paragraphNumRef (p : node) : option Js.number :=
  r ← numIdRef p; e ← get_at r p; Some (valOr "NaN" e).

(** Every instance of the table refers to an abstract definition of the
    table. *)
Definition tableConsistent (table : node) : Prop :=
  ∀ num v, num ∈ instances table → abstractRef num = Some v → v ∈ abstractIds table.

(** Every paragraph below [body] that refers to an instance by a number
    refers to one of [ids]. *)
Definition resolvesIn (ids : list Js.number) (body : node) : Prop :=
  ∀ pp p v, pp ∈ pathsBelow (hasTagNS NS_w "p") body → get_at pp body = Some p →
            paragraphNumRef p = Some v → Js.isFinite v = true → v ∈ ids.

(** The entries of the table are children of its root, as the schema of
    the numbering part has them. *)
Definition flatTable (table : node) : bool :=
  forallb (λ p, Nat.eqb (length p) 1)
    (pathsBelow (hasTagNS NS_w "abstractNum") table ++ pathsBelow (hasTagNS NS_w "num") table).

(** The invariant of the loop of [remapNumberingInBody]: the body keeps
    its shape, and the number read at a path is the one of the body the loop
    started from or one that the map binds to.  A visited paragraph refers to
    a number that the map binds to, or to its first number, one that the
    loop does not rewrite. *)
Definition valAt (e : path) (b : node) : option Js.number := valOr "NaN" <$> get_at e b.
Definition remapMapped (M : idmap) (o : option Js.number) : Prop :=
  ∃ x k, o = Some x ∧ M !! k = Some x.
Definition remapInv (M : idmap) (body0 b : node) : Prop :=
  shape b = shape body0 ∧ ∀ e, valAt e b = valAt e body0 ∨ remapMapped M (valAt e b).
Definition remapDone (M : idmap) (body0 : node) (pp : path) (b : node) : Prop :=
  ∀ p r, get_at pp body0 = Some p → numIdRef p = Some r →
    remapMapped M (valAt (pp ++ r) b)
    ∨ (valAt (pp ++ r) b = valAt (pp ++ r) body0
       ∧ ∀ v, valAt (pp ++ r) body0 = Some v → M !! v = None ∨ Js.isFinite v = false).
Definition remapStep (M : idmap) (b : node) (pp : path) : node :=
  update_at pp (remapParagraph M) b.

(** A numbering part and a numbered paragraph. *)
Definition abstractNumEntry (id : string) : node :=
  Elem (wName "abstractNum") [Attr (wName "abstractNumId") id] [].
Definition numEntry (id abs : string) : node :=
  Elem (wName "num") [Attr (wName "numId") id]
    [Elem (wName "abstractNumId") [Attr (wName "val") abs] []].
Definition numberingPart (entries : list node) : node :=
  Elem (wName "numbering") [] entries.
Definition numberingPackage (entries : list node) : package :=
  <[P_numbering := Xml (numberingPart entries)]> ∅.
Definition numberedParagraph (numId : string) : node :=
  Elem (wName "p") []
    [Elem (wName "pPr") []
       [Elem (wName "numPr") [] [Elem (wName "numId") [Attr (wName "val") numId] []]]].

(** The attributes that the numbering code reads on a numbering reference:
    those that [getAttributeNS(NS.w, 'val')], [getAttribute('w:val')] or
    [getAttribute('val')] can return. *)
Definition numberingAttr (a : attr) : bool :=
  (attrIsNS NS_w "val" a || attrIsNamed "w:val" a || attrIsNamed "val" a)%bool.

(** A tree as the numbering code sees it: every other attribute is left
    out. *)
Fixpoint numberingView (n : node) : node :=
  match n with
  | Elem q a cs => Elem q (filter (λ x, numberingAttr x = true) a) (map numberingView cs)
  | Text _ => n
  end.

(** Every paragraph of [ps] that refers to an instance by a number refers
    to one of [ids]. *)
Definition paragraphsResolve (ids : list Js.number) (ps : list node) : Prop :=
  ∀ p v, p ∈ ps → paragraphNumRef p = Some v → Js.isFinite v = true → v ∈ ids.

(** Whether [t] occurs in [s]. *)
Fixpoint hasInfix (t s : string) : bool :=
  (String.prefix t s
   || match s with EmptyString => false | String _ r => hasInfix t r end)%bool.

(** A source package with a numbering part and a document. *)
Definition numberedPackage (entries bodyChildren : list node) : package :=
  <[P_numbering := Xml (numberingPart entries)]> (packageOf bodyChildren).

(** Section properties, and the state of a merge whose base is the
    package of a body. *)
Definition sectPr : node := Elem (wName "sectPr") [] [].
Definition loaded (bodyChildren : list node) : base :=
  Base (packageOf bodyChildren) relsSkeleton contentTypes None.

(** The errors of a part that does not parse, or of a document without
    the element that the code dereferences. *)
Definition malformed (e : error) : Prop :=
  match e with XmlParseError | TypeError => True | _ => False end.

(** The last section properties below the body of a document are not a
    child of the body. *)
Definition nestedSectPr (d : node) : bool :=
  match (bodyEl d ≫= (λ bp, get_at bp d)) ≫= lastSectPr with
  | Some sp => bool_decide (length sp ≠ 1%nat)
  | None => false
  end.

(** What an error thrown while the package [zip] is read says about it:
    a missing part is its main document, and a node that is not a child is
    the last section properties of its document. *)
Definition blames (zip : package) (e : error) : Prop :=
  match e with
  | MissingPart p => p = P_document ∧ zip !! P_document = None
  | NotFoundError => ∃ d, readXml zip P_document = OK d ∧ nestedSectPr d = true
  | XmlParseError | TypeError => True
  | _ => False
  end.

(** A package with a document and no content types. *)
Definition documentOnly (bodyChildren : list node) : package :=
  <[P_document := Xml (documentOf bodyChildren)]> ∅.

(** A paragraph that ends a section: its properties hold section
    properties. *)
Definition sectionParagraph : node :=
  Elem (wName "p") [] [Elem (wName "pPr") [] [Elem (wName "sectPr") [] []]].

(** The entry that [addRelationship] appends to a relationship set. *)
Definition newRelationship (id type target : string) (mode : option string) : node :=
  let rel := createElementNS NS_pr EmptyString "Relationship" in
  let rel := setAttribute "Id" id rel in
  let rel := setAttribute "Type" type rel in
  let rel := setAttribute "Target" target rel in
  match mode with
  | Some m => if Js.truthy mode then setAttribute "TargetMode" m rel else rel
  | None => rel
  end.

(** A hyperlink entry, with a TargetMode and without one, and the sets
    that hold it. *)
Definition hyperlinkType : string :=
  "http://schemas.openxmlformats.org/officeDocument/2006/relationships/hyperlink".
Definition externalLink : node :=
  Elem (QName NS_pr EmptyString "Relationship")
    [Attr (QName EmptyString EmptyString "Id") "rId1";
     Attr (QName EmptyString EmptyString "Type") hyperlinkType;
     Attr (QName EmptyString EmptyString "Target") "http://example.org/";
     Attr (QName EmptyString EmptyString "TargetMode") "External"] [].
Definition relsOf (entries : list node) : node :=
  Elem (QName NS_pr EmptyString "Relationships") [] entries.
Definition emptyBase : base := Base ∅ relsSkeleton contentTypes None.

(** A source package that holds a header, and the type of the
    relationship to it. *)
Definition headerType : string :=
  "http://schemas.openxmlformats.org/officeDocument/2006/relationships/header".
Definition headerPackage : package := <["word/header1.xml" := Bin "header"]> ∅.

(** A source package that holds one image. *)
Definition imagePackage : package := <["word/media/image1.png" := Bin "PNG"]> ∅.

(** The test of a search among relationships reads attributes only. *)
Definition readsAttributes (P : node → bool) : Prop :=
  ∀ el el', attributes el = attributes el' → P el = P el'.

(** The parts that a merge with the given options writes by name. *)
Definition writtenParts (opt : RequiredMergeOptions) : list string :=
  [P_document; P_docRels; P_ct]
  ++ (if r_mergeNumbering opt then [P_numbering] else [])
  ++ (if r_mergeStyles opt then [P_styles; P_fontTable; P_settings] else [])
  ++ (if r_mergeFootnotes opt
      then [P_footnotes; "word/_rels/footnotes.xml.rels";
            P_endnotes; "word/_rels/endnotes.xml.rels"]
      else []).

(** The package [z'] has every file of [z], with its content unless the
    file is one of [W]. *)
Definition keeps (W : list string) (z z' : package) : Prop :=
  ∀ k, (is_Some (z !! k) → is_Some (z' !! k))
       ∧ (k ∉ W → ∀ c, z !! k = Some c → z' !! k = Some c).

(** A base package with a header part besides its document. *)
Definition packageWithHeader : package :=
  <["word/header1.xml" := Bin "header"]> (packageOf [paragraph "Base"]).

(** The children of the base body after one source is appended: a page
    break first, when page breaks are asked for and the body is not empty,
    then the imported nodes. *)
Definition appendBlock (pageBreaks : bool) (cs ns : list node) : list node :=
  cs ++ (if (pageBreaks && bool_decide (cs ≠ []))%bool then [makePageBreak] else []) ++ ns.

Definition appendBlocks (pageBreaks : bool) (cs : list node) (nss : list (list node))
    : list node :=
  foldl (appendBlock pageBreaks) cs nss.

Definition endWithBreaks : MergeOptions :=
  {| pattern := None; insertStart := None; insertEnd := Some true; pageBreaks := None;
     mergeNumbering := None; mergeStyles := None; mergeFootnotes := None |}.

(** The relationships that [ensureStyleRelationships] looks for, each by
    its type and its target relative to the main document. *)
Definition styleRelationships : list (string * string) :=
  let rel := "http://schemas.openxmlformats.org/officeDocument/2006/relationships/" in
  [(rel +:+ "styles", "styles.xml"); (rel +:+ "fontTable", "fontTable.xml");
   (rel +:+ "theme", "theme/theme1.xml"); (rel +:+ "webSettings", "webSettings.xml");
   (rel +:+ "settings", "settings.xml")].

(** One round of the loop of [ensureStyleRelationships]. *)
Definition ensureRelationship (baseRels : node) (tt : string * string) : node :=
  match findRelationshipByTypeAndTarget baseRels (Some (fst tt)) (Some (snd tt)) None with
  | Some _ => baseRels
  | None => addRelationship (allocRid baseRels) (fst tt) (snd tt) None baseRels
  end.

(** The IDs rId<m+1>, ..., rId<m+k>. *)
Definition ridsFrom (m : Z) (k : nat) : list string :=
  (λ j, "rId" +:+ Js.ofZ (m + 1 + Z.of_nat j)) <$> seq 0 k.

(** A function on nodes whose effect on the attributes of a node depends
    on these attributes only. *)
Definition readsOwnAttributes (f : node → node) : Prop :=
  ∀ x y, isElement x = isElement y → attributes x = attributes y →
         attributes (f x) = attributes (f y).

(** A reference to a note, of either kind. *)
Definition isNoteReference (r : node) : bool :=
  (hasTagNS NS_w "footnoteReference" r || hasTagNS NS_w "endnoteReference" r)%bool.

Definition noteReference (tag id : string) : node :=
  Elem (wName tag) [Attr (wName "id") id] [].

(** The map that sends the note 1 to the note 5. *)
Definition oneToFive : idmap := <[Some 1 := Some 5]> ∅.

(** The attributes that an import writes: [w:val] (on a numbering
    reference), [w:id] (on a note reference) and [r:id] (on an element that
    refers to a relationship), each by its namespace and local name. *)
Definition rewritableName (ns loc : string) : bool :=
  ((String.eqb ns NS_w && (String.eqb loc "val" || String.eqb loc "id"))
   || (String.eqb ns NS_r && String.eqb loc "id"))%bool.

Definition rewritable (a : attr) : bool :=
  rewritableName (q_ns (a_qname a)) (q_local (a_qname a)).

(** A tree without the attributes that an import writes: its elements
    with their names, every other attribute, and the character data. *)
Fixpoint importView (n : node) : node :=
  match n with
  | Elem q a cs => Elem q (filter (λ x, rewritable x = false) a) (map importView cs)
  | Text _ => n
  end.

(** The body of a source once its last section properties, a child of the
    body, are detached. *)
Definition withoutSectPr (srcBody : node) : node :=
  match lastSectPr srcBody with
  | Some [i] => removeChildAt i srcBody
  | _ => srcBody
  end.

(** A picture that refers to its image by [r:embed]. *)
Definition blip (rid : string) : node :=
  Elem (wName "p") []
    [Elem (QName "http://schemas.openxmlformats.org/drawingml/2006/main" "a" "blip")
       [Attr (QName NS_r "r" "embed") rid] []].

(** The fonts of a font table and the name a font is merged by. *)
Definition fonts (root : node) : list node := docElementsByTagNameNS NS_w "font" root.
Definition fontName : node → option string := readName "name".

(** The settings that [mergeSettingsPart] carries over. *)
Definition settingNames : list string :=
  ["defaultTabStop"; "characterSpacingControl"; "printTwoOnOne";
   "printColorBlackWhite"; "doNotPromptForConvert"; "mwSmallCaps"].

(** One round of the loop of [mergeSettingsPart]. *)
Definition mergeSetting (srcSettingsDoc baseSettings : node) (elementName : string) : node :=
  match head (docElementsByTagNameNS NS_w elementName srcSettingsDoc),
        head (docElementsByTagNameNS NS_w elementName baseSettings) with
  | Some srcElement, None => appendChild srcElement baseSettings
  | _, _ => baseSettings
  end.

(** Packages with a theme, a font table or settings. *)
Definition themePackage (data : string) : package := <[P_theme := Bin data]> ∅.
Definition font (name : string) : node :=
  Elem (wName "font") [Attr (QName NS_w "w" "name") name] [].
Definition fontPackage (l : list node) : package :=
  <[P_fontTable := Xml (Elem (wName "fonts") [] l)]> ∅.
Definition setting (name val : string) : node :=
  Elem (wName name) [Attr (QName NS_w "w" "val") val] [].
Definition settingsPackage (l : list node) : package :=
  <[P_settings := Xml (Elem (wName "settings") [] l)]> ∅.

(* ===================================================================== *)
(** * Properties *)
(* ===================================================================== *)

(** ** Facts on the JavaScript layer *)

Definition allDigits (s : string) : Prop :=
  ∀ c, In c (list_ascii_of_string s) → Js.isDigit c = true.

Lemma string_of_uint_digits (d : uint) : allDigits (NilEmpty.string_of_uint d).
Proof.
  induction d; intros c; simpl; try tauto; intros [<- | Hc]; auto.
Qed.

Lemma digit_not_space (c : ascii) : Js.isDigit c = true → Ascii.is_space c = false.
Proof. destruct c as [[] [] [] [] [] [] [] []]; vm_compute; congruence. Qed.

Lemma digit_uint_of_char (c : ascii) (u : uint) :
  Js.isDigit c = true → is_Some (uint_of_char c (Some u)).
Proof.
  destruct c as [[] [] [] [] [] [] [] []]; vm_compute; intros; try discriminate; eauto.
Qed.

Lemma allDigits_cons c s : allDigits (String c s) ↔ Js.isDigit c = true ∧ allDigits s.
Proof.
  unfold allDigits; simpl; split.
  - intros H; split; [apply H; auto | intros c' Hc'; apply H; auto].
  - intros [H1 H2] c' [<- | Hc']; auto.
Qed.

Lemma trimStart_digits s : allDigits s → Js.trimStart s = s.
Proof.
  destruct s as [|c s]; [done|]. intros [Hc _]%allDigits_cons. simpl.
  by rewrite (digit_not_space c Hc).
Qed.

Lemma trimEnd_digits s : allDigits s → Js.trimEnd s = s.
Proof.
  induction s as [|c s IH]; [done|]. intros [Hc Hs]%allDigits_cons. simpl.
  rewrite (digit_not_space c Hc), (IH Hs). done.
Qed.

Lemma uint_of_string_digits s : allDigits s → is_Some (NilEmpty.uint_of_string s).
Proof.
  induction s as [|c s IH]; [by eexists|]. intros [Hc Hs]%allDigits_cons. simpl.
  destruct (IH Hs) as [u ->]. by apply digit_uint_of_char.
Qed.

Lemma takeDigits_digits s : allDigits s → Js.takeDigits s = s.
Proof.
  induction s as [|c s IH]; [done|]. intros [Hc Hs]%allDigits_cons. simpl.
  by rewrite Hc, (IH Hs).
Qed.

Lemma takeDigits_allDigits s : allDigits (Js.takeDigits s).
Proof.
  induction s as [|c s IH]; simpl; [by intros ? []|].
  destruct (Js.isDigit c) eqn:Hc; [|by intros ? []].
  by apply allDigits_cons.
Qed.

Lemma of_uint_nonneg (u : uint) : 0 ≤ Z.of_uint u.
Proof. unfold Z.of_uint. lia. Qed.

(** A non-empty run of digits reads as a natural number. *)
Lemma toNumber_digits s :
  allDigits s → s ≠ EmptyString → ∃ z, Js.toNumber s = Some z ∧ 0 ≤ z.
Proof.
  intros Hd Hne. unfold Js.toNumber, Js.trim.
  rewrite (trimStart_digits s Hd), (trimEnd_digits s Hd).
  destruct s as [|c s]; [done|].
  pose proof Hd as [Hc _]%allDigits_cons.
  assert (Ascii.eqb c "+" = false) as ->
    by (clear -Hc; destruct c as [[] [] [] [] [] [] [] []]; vm_compute in *; congruence).
  unfold NilZero.int_of_string.
  assert (Ascii.eqb c "-" = false) as ->
    by (clear -Hc; destruct c as [[] [] [] [] [] [] [] []]; vm_compute in *; congruence).
  unfold NilZero.uint_of_string.
  destruct (uint_of_string_digits _ Hd) as [u ->]. simpl.
  eexists; split; [done|]. apply of_uint_nonneg.
Qed.

Lemma ofZ_unfold z :
  Js.ofZ z = match z with
             | 0 => "0"
             | Z.pos p => NilEmpty.string_of_uint (Pos.to_uint p)
             | Z.neg p => String "-" (NilEmpty.string_of_uint (Pos.to_uint p))
             end.
Proof.
  unfold Js.ofZ. destruct z as [|p|p]; simpl; [done| |];
    pose proof (Unsigned.to_uint_nonnil p); by destruct (Pos.to_uint p).
Qed.

Lemma ofZ_nonneg_digits z : 0 ≤ z → allDigits (Js.ofZ z) ∧ Js.ofZ z ≠ EmptyString.
Proof.
  intros Hz. rewrite ofZ_unfold. destruct z as [|p|p]; [| |lia].
  - split; [|done]. intros c [<-|[]]. done.
  - split; [apply string_of_uint_digits|].
    pose proof (Unsigned.to_uint_nonnil p). by destruct (Pos.to_uint p).
Qed.

(** Printing a number and reading it back gives the number. *)
Lemma toNumber_ofZ z : Js.toNumber (Js.ofZ z) = Some z.
Proof.
  destruct (decide (0 ≤ z)) as [Hz|Hz].
  - destruct (ofZ_nonneg_digits z Hz) as [Hd Hne].
    unfold Js.toNumber, Js.trim.
    rewrite (trimStart_digits _ Hd), (trimEnd_digits _ Hd).
    destruct (Js.ofZ z) as [|c s] eqn:E; [done|].
    pose proof Hd as [Hc _]%allDigits_cons.
    assert (Ascii.eqb c "+" = false) as ->
      by (clear -Hc; destruct c as [[] [] [] [] [] [] [] []]; vm_compute in *; congruence).
    rewrite <- E. unfold Js.ofZ.
    rewrite NilZero.isi.
    + simpl. by rewrite DecimalZ.of_to.
    + destruct z; simpl; try done. intros [= H]. by apply Unsigned.to_uint_nonnil in H.
    + destruct z; simpl; try done.
  - rewrite ofZ_unfold. destruct z as [|p|p]; [lia|lia|].
    unfold Js.toNumber, Js.trim. cbn [Js.trimStart].
    change (Ascii.is_space "-") with false. cbv iota.
    cbn [Js.trimEnd]. change (Ascii.is_space "-") with false. cbn [andb]. cbv iota.
    rewrite (trimEnd_digits _ (string_of_uint_digits _)).
    change (Ascii.eqb "-" "+") with false. cbv iota.
    replace (String "-" (NilEmpty.string_of_uint (Pos.to_uint p)))
      with (NilZero.string_of_int (Z.to_int (Z.neg p))).
    + rewrite NilZero.isi; [|done|].
      * unfold fmap, option_fmap, option_map. by rewrite DecimalZ.of_to.
      * simpl. intros [= H]. by apply Unsigned.to_uint_nonnil in H.
    + simpl. pose proof (Unsigned.to_uint_nonnil p). by destruct (Pos.to_uint p).
Qed.

Lemma ofZ_inj z1 z2 : Js.ofZ z1 = Js.ofZ z2 → z1 = z2.
Proof.
  intros H. apply (f_equal Js.toNumber) in H. rewrite !toNumber_ofZ in H. congruence.
Qed.

Lemma toNumber_NaN : Js.toNumber "NaN" = None.
Proof. reflexivity. Qed.

Lemma toNumber_ofNumber n : Js.toNumber (Js.ofNumber n) = n.
Proof. destruct n; [apply toNumber_ofZ | done]. Qed.

Lemma filter_fmap {A B} (f : A → B) (P : B → Prop) `{!∀ x, Decision (P x)} (l : list A) :
  filter P (f <$> l) = f <$> filter (P ∘ f) l.
Proof.
  induction l as [|x l IH]; [done|]. rewrite fmap_cons, !filter_cons. simpl.
  destruct (decide (P (f x))); by rewrite IH.
Qed.

(** ** Reading and updating at a path *)

Lemma get_at_app p r n : get_at (p ++ r) n = get_at p n ≫= get_at r.
Proof.
  revert n. induction p as [|i p IH]; intros n; simpl; [done|].
  destruct (childNodes n !! i) as [c|]; simpl; [apply IH | done].
Qed.

Lemma update_at_app p r f n : update_at (p ++ r) f n = update_at p (update_at r f) n.
Proof.
  revert n. induction p as [|i p IH]; intros n; simpl; [done|].
  destruct n as [q a cs|s]; [|done]. f_equal.
  apply list_alter_ext; auto.
Qed.

Lemma get_update_eq p f n e :
  get_at p n = Some e → get_at p (update_at p f n) = Some (f e).
Proof.
  revert n. induction p as [|i p IH]; intros n; simpl; [congruence|].
  destruct n as [q a cs|s]; simpl; [|done].
  rewrite list_lookup_alter_eq. destruct (cs !! i) as [c|]; simpl; [apply IH | done].
Qed.

Lemma update_at_ext p f g n e :
  get_at p n = Some e → f e = g e → update_at p f n = update_at p g n.
Proof.
  revert n. induction p as [|i p IH]; intros n; simpl; [congruence|].
  destruct n as [q a cs|s]; simpl; [|done].
  destruct (cs !! i) as [c|] eqn:Hc; simpl; [|done]. intros H1 H2. f_equal.
  apply list_eq; intros j. destruct (decide (i = j)) as [<-|Hne].
  - rewrite !list_lookup_alter_eq, Hc. simpl. f_equal. by apply IH.
  - by rewrite !list_lookup_alter_ne.
Qed.

Lemma update_at_compose p f g n :
  update_at p g (update_at p f n) = update_at p (g ∘ f) n.
Proof.
  revert n. induction p as [|i p IH]; intros n; simpl; [done|].
  destruct n as [q a cs|s]; simpl; [|done]. f_equal.
  rewrite list_alter_alter_eq. apply list_alter_ext; [|done]. intros x _. apply IH.
Qed.

Lemma update_at_root p f q a cs :
  (∀ q a cs, ∃ cs', f (Elem q a cs) = Elem q a cs') →
  ∃ cs', update_at p f (Elem q a cs) = Elem q a cs'.
Proof. intros Hf. destruct p as [|i p]; simpl; eauto. Qed.

Lemma get_at_isElement_prefix p r n e :
  get_at (p ++ r) n = Some e → is_Some (get_at p n).
Proof. rewrite get_at_app. destruct (get_at p n); eauto. Qed.

(** ** The elements of a tree *)

Lemma elementPaths_Elem q a cs : elementPaths (Elem q a cs) = [] :: childPaths O cs.
Proof. reflexivity. Qed.

Lemma childPaths_app i l1 l2 :
  childPaths i (l1 ++ l2) = childPaths i l1 ++ childPaths (i + length l1) l2.
Proof.
  revert i. induction l1 as [|c l1 IH]; intros i; simpl.
  - by rewrite Nat.add_0_r.
  - rewrite IH, <- app_assoc. do 3 f_equal. lia.
Qed.

Lemma childrenWhere_app test i l1 l2 :
  childrenWhere test i (l1 ++ l2)
  = childrenWhere test i l1 ++ childrenWhere test (i + length l1) l2.
Proof.
  revert i. induction l1 as [|c l1 IH]; intros i; simpl.
  - by rewrite Nat.add_0_r.
  - rewrite IH, <- app_assoc. do 3 f_equal. lia.
Qed.

Lemma pathsWhere_Text test s : pathsWhere test (Text s) = [].
Proof. reflexivity. Qed.

Lemma filter_childPaths test q a pre l :
  filter (λ p, (test <$> get_at p (Elem q a (pre ++ l))) = Some true)
    (childPaths (length pre) l)
  = childrenWhere test (length pre) l.
Proof.
  revert pre. induction l as [|c l IH]; intros pre; simpl; [done|].
  rewrite filter_app. f_equal.
  - unfold pathsWhere. rewrite filter_fmap. f_equal.
    apply list_filter_iff. intros r; simpl.
    rewrite lookup_app_r, Nat.sub_diag by lia. done.
  - specialize (IH (pre ++ [c])). rewrite <- app_assoc in IH. simpl in IH.
    rewrite length_app in IH. simpl in IH.
    replace (length pre + 1)%nat with (S (length pre)) in IH by lia. apply IH.
Qed.

Lemma pathsWhere_Elem test q a cs :
  pathsWhere test (Elem q a cs)
  = (if test (Elem q a cs) then [[]] else []) ++ childrenWhere test O cs.
Proof.
  unfold pathsWhere at 1. rewrite elementPaths_Elem, filter_cons.
  pose proof (filter_childPaths test q a [] cs) as H. simpl in H. rewrite H.
  cbn [get_at fmap option_fmap option_map].
  destruct (test (Elem q a cs)); case_decide; simpl; congruence.
Qed.

(** ** Searches by tag *)

Lemma hasTagNS_Elem ns loc q a cs a' cs' :
  hasTagNS ns loc (Elem q a cs) = hasTagNS ns loc (Elem q a' cs').
Proof. reflexivity. Qed.

Lemma hasTagNS_isElement ns loc n : hasTagNS ns loc n = true → ∃ q a cs, n = Elem q a cs.
Proof. destruct n; [eauto | done]. Qed.

Lemma childrenWhere_first_index test k l p :
  p ∈ childrenWhere test k l → ∃ j r, p = j :: r ∧ (k ≤ j)%nat.
Proof.
  revert k. induction l as [|c l IH]; intros k; simpl; [by intros ?%elem_of_nil|].
  rewrite elem_of_app, list_elem_of_fmap. intros [(r & -> & _)|H]; [eauto|].
  destruct (IH _ H) as (j & r & -> & Hj). exists j, r. split; [done | lia].
Qed.

Lemma childrenWhere_nonempty test k l p : p ∈ childrenWhere test k l → p ≠ [].
Proof. intros (j & r & -> & _)%childrenWhere_first_index. done. Qed.


Lemma filter_nonempty_id (l : list path) : (∀ p, p ∈ l → p ≠ []) → filter (λ p, p ≠ []) l = l.
Proof.
  induction l as [|p l IH]; intros H; [done|].
  rewrite filter_cons_True by (apply H; left). f_equal. apply IH. intros; apply H; by right.
Qed.

Lemma pathsBelow_Elem test q a cs : pathsBelow test (Elem q a cs) = childrenWhere test O cs.
Proof.
  unfold pathsBelow. rewrite pathsWhere_Elem, filter_app.
  rewrite (filter_nonempty_id (childrenWhere _ _ _)) by (intros ?; apply childrenWhere_nonempty).
  destruct (test _); [by rewrite filter_cons_False by auto | done].
Qed.

Lemma pathsWhere_head_test test n p :
  head (pathsWhere test n) = Some p → ∃ e, get_at p n = Some e ∧ test e = true.
Proof.
  intros H%head_Some_elem_of. apply list_elem_of_filter in H as [H _].
  destruct (get_at p n) as [e|]; simplify_eq/=. eauto.
Qed.

Lemma elem_of_pathsBelow test n p :
  p ∈ pathsBelow test n → p ≠ [] ∧ ∃ e, get_at p n = Some e ∧ test e = true.
Proof.
  intros [Hne H]%list_elem_of_filter. split; [done|].
  apply list_elem_of_filter in H as [H _].
  destruct (get_at p n) as [e|]; simplify_eq/=. eauto.
Qed.

(** Replacing the children of nodes on the way to the first match, or the
    match itself by an element of the same tag, does not move the first
    match. *)
Lemma head_childrenWhere_alter test g k i p l :
  head (childrenWhere test k l) = Some ((k + i)%nat :: p) →
  (∀ c, l !! i = Some c → head (pathsWhere test c) = Some p →
        head (pathsWhere test (g c)) = Some p) →
  head (childrenWhere test k (alter g i l)) = Some ((k + i)%nat :: p).
Proof.
  revert k i. induction l as [|c l IH]; intros k i; simpl; [done|].
  destruct (pathsWhere test c) as [|r rs] eqn:Hc.
  - simpl. intros H Hg.
    assert (∃ i', i = S i') as [i' ->].
    { apply head_Some_elem_of, childrenWhere_first_index in H as (j & r & [= <- <-] & Hj).
      destruct i; [lia | eauto]. }
    simpl. rewrite Hc. simpl. replace (k + S i')%nat with (S k + i')%nat in * by lia.
    apply IH; [done|]. intros c' Hc'. by apply Hg.
  - simpl. intros [= Hk <-] Hg. assert (i = O) as -> by lia.
    simpl. specialize (Hg c eq_refl). rewrite Hc in Hg. specialize (Hg eq_refl).
    destruct (pathsWhere test (g c)) as [|r' rs']; simplify_eq/=.
    by rewrite Nat.add_0_r.
Qed.

Lemma head_pathsWhere_update ns loc p n e' :
  head (pathsWhere (hasTagNS ns loc) n) = Some p →
  hasTagNS ns loc e' = true →
  head (pathsWhere (hasTagNS ns loc) (update_at p (λ _, e') n)) = Some p.
Proof.
  revert n. induction p as [|i p IH]; intros n Hh He'; simpl.
  - apply hasTagNS_isElement in He' as Hel. destruct Hel as (q & a & cs & ->).
    rewrite pathsWhere_Elem, He'. done.
  - destruct n as [q a cs|s]; [|done].
    rewrite pathsWhere_Elem in Hh |- *.
    rewrite (hasTagNS_Elem ns loc q a _ a cs).
    destruct (hasTagNS ns loc (Elem q a cs)); [done|]. simpl in *.
    apply (head_childrenWhere_alter _ _ O i); [done|]. intros c _ Hc. by apply IH.
Qed.

(** The last match below an element whose last child matches lies in that
    child. *)
Lemma last_pathsBelow_snoc test q a cs s :
  test s = true → isElement s = true →
  ∃ r, last (pathsBelow test (Elem q a (cs ++ [s]))) = Some (length cs :: r)
       ∧ last (pathsWhere test s) = Some r.
Proof.
  intros Hs Hel. destruct s as [q' a' cs'|]; [|done].
  rewrite pathsBelow_Elem, childrenWhere_app. simpl. rewrite app_nil_r.
  assert (pathsWhere test (Elem q' a' cs') ≠ []) as Hne.
  { rewrite pathsWhere_Elem, Hs. done. }
  destruct (last (pathsWhere test (Elem q' a' cs'))) as [r|] eqn:Hl.
  - exists r. split; [|done]. apply last_Some in Hl as [l' Hl']. rewrite Hl'.
    rewrite fmap_app, app_assoc. simpl. by rewrite last_snoc.
  - by apply last_None in Hl.
Qed.

(** ** The result monad *)

Lemma returned_OK {A} (r : result A) : returned r = true → ∃ a, r = OK a.
Proof. destruct r; [eauto | done]. Qed.

Lemma bind_OK {A B} (m : result A) (f : A → result B) (b : B) :
  m ≫= f = OK b → ∃ a, m = OK a ∧ f a = OK b.
Proof. destruct m; simpl; [eauto | done]. Qed.

Lemma bind_Err {A B} (m : result A) (f : A → result B) (e : error) :
  m ≫= f = Err e → m = Err e ∨ ∃ a, m = OK a ∧ f a = Err e.
Proof. destruct m; simpl; [eauto | intros [= ->]; eauto]. Qed.

Lemma fmap_OK {A B} (f : A → B) (m : result A) (b : B) :
  f <$> m = OK b → ∃ a, m = OK a ∧ b = f a.
Proof. destruct m; simpl; [intros [= <-]; eauto | done]. Qed.

Ltac inv_result :=
  repeat match goal with
  | H : OK _ = OK _ |- _ => injection H as H; subst
  | H : Err _ = OK _ |- _ => discriminate H
  | H : OK _ = Err _ |- _ => discriminate H
  | H : Err _ = Err _ |- _ => injection H as H; subst
  | H : _ ≫= _ = OK _ |- _ =>
      let a := fresh "x" in let Ha := fresh "E" in
      apply bind_OK in H as (a & Ha & H)
  | H : _ <$> _ = OK _ |- _ =>
      let a := fresh "x" in let Ha := fresh "E" in
      apply fmap_OK in H as (a & Ha & H)
  | H : (let '(_, _) := ?x in _) = _ |- _ => destruct x
  | H : (_, _) = (_, _) |- _ => injection H as H; subst
  end.

Lemma foldlM_inv {A B} (I : B → Prop) (f : B → A → result B) l b b' :
  (∀ b x b', I b → f b x = OK b' → I b') →
  I b → foldlM f b l = OK b' → I b'.
Proof.
  intros Hf. revert b. induction l as [|x l IH]; intros b Hb; simpl.
  - by intros [= <-].
  - intros H. inv_result. eauto.
Qed.

Lemma foldl_inv {A B} (I : B → Prop) (f : B → A → B) l b :
  (∀ b x, I b → I (f b x)) → I b → I (foldl f b l).
Proof. intros Hf. revert b. induction l; simpl; auto. Qed.

(** ** The body of the base document stays where it is *)

Lemma bodyAt_update bp q a d f :
  bodyAt bp q a d →
  (∀ cs, ∃ cs', f (Elem q a cs) = Elem q a cs') →
  bodyAt bp q a (update_at bp f d).
Proof.
  intros [Hb (cs & Hg)] Hf. destruct (Hf cs) as [cs' Hcs'].
  rewrite (update_at_ext bp f (λ _, Elem q a cs') d _ Hg Hcs').
  destruct (pathsWhere_head_test _ _ _ Hb) as (e & He & Ht). simplify_eq.
  split.
  - apply head_pathsWhere_update; [done|]. by rewrite (hasTagNS_Elem _ _ q a cs' a cs).
  - exists cs'. by rewrite (get_update_eq _ _ _ _ Hg).
Qed.

Lemma appendChild_root c q a cs : ∃ cs', appendChild c (Elem q a cs) = Elem q a cs'.
Proof. simpl; eauto. Qed.

Lemma insertBeforeAt_root i c q a cs : ∃ cs', insertBeforeAt i c (Elem q a cs) = Elem q a cs'.
Proof. simpl; eauto. Qed.

Lemma appendDocInto_bodyAt bp q a srcZip opt atEnd d b d' b' :
  bodyAt bp q a d →
  appendDocInto srcZip opt atEnd (d, b) = OK (d', b') →
  bodyAt bp q a d'.
Proof.
  intros Hb H. unfold appendDocInto in H. inv_result.
  destruct Hb as [Hb Hg]. rewrite Hb in H. inv_result.
  apply foldl_inv.
  - intros d1 c Hd1. apply bodyAt_update; [done|]. intros; apply appendChild_root.
  - destruct (_ && _)%bool; [|done].
    apply bodyAt_update; [done|]. intros; apply appendChild_root.
Qed.

Lemma appendAll_bodyAt bp q a srcs opt atEnd d b d' b' :
  bodyAt bp q a d →
  appendAll srcs opt atEnd (d, b) = OK (d', b') →
  bodyAt bp q a d'.
Proof.
  intros Hb H. unfold appendAll in H.
  apply (foldlM_inv (λ st, bodyAt bp q a (fst st)) _ _ _ _) in H; [done| |done].
  intros [d1 b1] src [d2 b2] Hd1 Hs.
  exact (appendDocInto_bodyAt _ _ _ _ _ _ _ _ _ _ Hd1 Hs).
Qed.

Lemma insertFold_bodyAt bp r q a ns d i :
  bodyAt bp q a d →
  bodyAt bp q a
    (fst (foldl (λ '(doc, i) n, (update_at (bp ++ r) (insertBeforeAt i n) doc, S i))
            (d, i) ns)).
Proof.
  revert d i. induction ns as [|c l IH]; intros d i Hd; simpl; [done|].
  apply IH. rewrite update_at_app. apply bodyAt_update; [done|]. intros cs.
  apply update_at_root. intros; apply insertBeforeAt_root.
Qed.

Lemma insertDocBefore_bodyAt bp r q a srcZip opt i d b anchor' d' b' :
  bodyAt bp q a d →
  insertDocBefore srcZip opt ((bp ++ r, i), d, b) = OK (anchor', d', b') →
  fst anchor' = bp ++ r ∧ bodyAt bp q a d'.
Proof.
  intros Hb H. unfold insertDocBefore in H.
  apply bind_OK in H as ([ns b1] & _ & H). cbn [fst snd] in H.
  pose proof (insertFold_bodyAt bp r q a ns d i Hb) as Hf.
  destruct (foldl _ _ ns) as [doc i']. injection H as <- <- <-. done.
Qed.

Lemma splitAnchor_snoc p i : splitAnchor (p ++ [i]) = Some (p, i).
Proof. unfold splitAnchor. by rewrite reverse_snoc, reverse_involutive. Qed.

Lemma findParagraphs_head d text m0 ms bp :
  findParagraphsContainingText d text = OK (m0 :: ms) →
  bodyEl d = Some bp →
  ∃ r i, m0 = bp ++ r ++ [i].
Proof.
  unfold findParagraphsContainingText. intros H Hb. rewrite Hb in H.
  destruct (get_at bp d) as [body|]; [|done]. injection H as H.
  assert (∃ rel, m0 = bp ++ rel ∧ rel ∈ pathsBelow (hasTagNS NS_w "p") body)
    as (rel & -> & Hin).
  { assert (m0 ∈ m0 :: ms) as Hm by left. rewrite <- H in Hm.
    apply list_elem_of_fmap in Hm as (rel & -> & Hrel).
    apply list_elem_of_filter in Hrel as [_ Hrel]. eauto. }
  apply elem_of_pathsBelow in Hin as [Hne _].
  destruct rel as [|j rel] using rev_ind; [done|]. eauto.
Qed.

Lemma insertAtPattern_bodyAt bp q a srcs opt text d b d' b' n l :
  bodyAt bp q a d →
  insertAtPattern srcs opt text (d, b) = OK (d', b', n, l) →
  bodyAt bp q a d'.
Proof.
  intros Hb H. unfold insertAtPattern in H. simpl in H. inv_result.
  destruct x as [|m0 ms]; inv_result; [done|].
  destruct (findParagraphs_head _ _ _ _ _ E (proj1 Hb)) as (r & i & ->).
  rewrite app_assoc, splitAnchor_snoc in H. inv_result.
  apply (foldlM_inv (λ st, fst (fst (fst st)) = bp ++ r ∧ bodyAt bp q a (snd (fst st))))
    in E0; simpl in *; [tauto| |done].
  intros [[[p1 i1] d1] b1] src [[[p2 i2] d2] b2] [Hp Hd1] Hs.
  cbn [fst snd] in *. subst p1.
  by apply (insertDocBefore_bodyAt bp r q a) in Hs.
Qed.

(** ** What a merge can throw *)

Lemma fmap_Err {A B} (f : A → B) (m : result A) (e : error) :
  f <$> m = Err e → m = Err e.
Proof. destruct m; simpl; [done | by intros [= ->]]. Qed.

Lemma foldlM_Err {A B} (f : B → A → result B) l b e :
  foldlM f b l = Err e → ∃ b' x, f b' x = Err e.
Proof.
  revert b. induction l as [|x l IH]; intros b; simpl; [done|].
  intros [H | (b1 & _ & H)]%bind_Err; eauto.
Qed.

Ltac err_step :=
  match goal with
  | H : OK _ = Err _ |- _ => discriminate H
  | H : Err _ = Err _ |- _ => injection H as <-
  | H : _ ≫= _ = Err _ |- _ =>
      let a := fresh "x" in apply bind_Err in H as [H | (a & _ & H)]
  | H : _ <$> _ = Err _ |- _ => apply fmap_Err in H
  | H : (let '(_, _) := ?x in _) = Err _ |- _ => destruct x
  | H : (if ?c then _ else _) = Err _ |- _ => destruct c
  | H : match ?x with _ => _ end = Err _ |- _ => destruct x
  end.

Ltac err_solve := repeat err_step; simpl; eauto.

Lemma parseXml_thrown c e : parseXml c = Err e → thrownBelow e.
Proof. unfold parseXml. intros H. err_solve. Qed.

Lemma readXml_thrown zip part e : readXml zip part = Err e → thrownBelow e.
Proof. unfold readXml. intros H. destruct (zip !! part); [by eapply parseXml_thrown|]. err_solve. Qed.

Lemma readXmlOrCreate_thrown zip part fb e :
  readXmlOrCreate zip part fb = Err e → thrownBelow e.
Proof.
  unfold readXmlOrCreate. intros H. destruct (zip !! part); [by eapply parseXml_thrown|]. err_solve.
Qed.

Lemma removeChild_thrown p body e : removeChild p body = Err e → thrownBelow e.
Proof. unfold removeChild. intros H. err_solve. Qed.

Lemma onBody_thrown f body e : onBody f body = Err e → thrownBelow e.
Proof. unfold onBody. intros H. err_solve. Qed.

Create HintDb thrown.
#[local] Hint Resolve parseXml_thrown readXml_thrown readXmlOrCreate_thrown
  removeChild_thrown onBody_thrown : thrown.

Ltac thrown := repeat err_step; simpl; eauto with thrown.

Lemma remapRelationship_thrown oldRid srcRels srcZip b e :
  remapRelationship oldRid srcRels srcZip b = Err e → thrownBelow e.
Proof. unfold remapRelationship. intros H. thrown. Qed.
#[local] Hint Resolve remapRelationship_thrown : thrown.

Lemma remapAttribute_thrown srcRels srcZip st a e :
  remapAttribute srcRels srcZip st a = Err e → thrownBelow e.
Proof. unfold remapAttribute. intros H. thrown. Qed.
#[local] Hint Resolve remapAttribute_thrown : thrown.

Lemma remapRelIds_thrown srcRels srcZip n : ∀ b e,
  remapRelIds srcRels srcZip n b = Err e → thrownBelow e.
Proof.
  induction n as [s|q a cs IH] using node_ind; intros b e; simpl; [done|].
  intros [H | ([el b1] & _ & H)]%bind_Err.
  - apply foldlM_Err in H as (? & ? & H). thrown.
  - apply bind_Err in H as [H | ([cs' b2] & _ & H)]; [|done].
    clear -IH H. revert b1 H. induction cs as [|c cs IHcs]; intros b1; simpl; [done|].
    apply Forall_cons in IH as [Hc Hcs].
    intros [H | ([c' b2] & _ & H)]%bind_Err; [by eapply Hc|].
    apply bind_Err in H as [H | ([l'' b3] & _ & H)]; [by eapply IHcs | done].
Qed.
#[local] Hint Resolve remapRelIds_thrown : thrown.

Lemma mergeNumberingParts_thrown srcZip b e :
  mergeNumberingParts srcZip b = Err e → thrownBelow e.
Proof.
  unfold mergeNumberingParts. intros H.
  apply bind_Err in H as [H | (baseNum & _ & H)]; [thrown|].
  apply bind_Err in H as [H | (srcNum & _ & H)]; [thrown|].
  repeat match type of H with (let '(_, _) := ?x in _) = _ => destruct x end. done.
Qed.

Lemma mergeOptionalStylePart_thrown srcZip part skel name zip e :
  mergeOptionalStylePart srcZip part skel name zip = Err e → thrownBelow e.
Proof.
  unfold mergeOptionalStylePart. intros H.
  destruct (srcZip !! part); [|done]. destruct name; [|by destruct (zip !! part)].
  apply bind_Err in H as [H | (basePart & _ & H)]; [thrown|].
  apply bind_Err in H as [H | (srcPart & _ & H)]; [thrown|].
  by destruct (foldl _ _ _).
Qed.

Lemma mergeSettingsPart_thrown srcZip zip e :
  mergeSettingsPart srcZip zip = Err e → thrownBelow e.
Proof.
  unfold mergeSettingsPart. intros H. destruct (srcZip !! P_settings); [|done].
  apply bind_Err in H as [H | (x & _ & H)]; [thrown|].
  apply bind_Err in H as [H | (y & _ & H)]; [thrown|]. done.
Qed.
#[local] Hint Resolve mergeNumberingParts_thrown mergeOptionalStylePart_thrown
  mergeSettingsPart_thrown : thrown.

Lemma mergeStylesPart_thrown srcZip zip e :
  mergeStylesPart srcZip zip = Err e → thrownBelow e.
Proof.
  unfold mergeStylesPart. intros H.
  apply bind_Err in H as [H | (x & _ & H)]; [thrown|].
  apply bind_Err in H as [H | (y & _ & H)]; [thrown|].
  destruct (foldl _ _ _). thrown.
Qed.

Lemma mergeNotes_thrown srcZip kind b e :
  mergeNotes srcZip kind b = Err e → thrownBelow e.
Proof.
  unfold mergeNotes. intros H.
  apply bind_Err in H as [H | (x & _ & H)]; [thrown|].
  apply bind_Err in H as [H | (y & _ & H)]; [thrown|].
  destruct (foldl mergeNote _ _) as [[? ?] ?].
  apply bind_Err in H as [H | (x' & _ & H)]; [thrown|].
  apply bind_Err in H as [H | (y' & _ & H)]; [thrown|].
  by destruct (foldl _ _ _).
Qed.
#[local] Hint Resolve mergeStylesPart_thrown mergeNotes_thrown : thrown.

Lemma prepareBody_thrown srcZip opt b e :
  prepareBody srcZip opt b = Err e → thrownBelow e.
Proof. unfold prepareBody. intros H. thrown. Qed.
#[local] Hint Resolve prepareBody_thrown : thrown.

Lemma importNodes_thrown srcRels srcZip st n e :
  importNodes srcRels srcZip st n = Err e → thrownBelow e.
Proof. unfold importNodes. intros H. thrown. Qed.
#[local] Hint Resolve importNodes_thrown : thrown.

Lemma importBodyNodes_thrown srcZip opt b e :
  importBodyNodes srcZip opt b = Err e → thrownBelow e.
Proof.
  unfold importBodyNodes. intros H.
  apply bind_Err in H as [H | ([[body rels] b1] & _ & H)]; [thrown|].
  destruct body; [|thrown]. apply foldlM_Err in H as (? & ? & H). thrown.
Qed.
#[local] Hint Resolve importBodyNodes_thrown : thrown.

Lemma appendDocInto_thrown srcZip opt atEnd st e :
  appendDocInto srcZip opt atEnd st = Err e → thrownBelow e.
Proof. unfold appendDocInto. intros H. thrown. Qed.

Lemma insertDocBefore_thrown srcZip opt st e :
  insertDocBefore srcZip opt st = Err e → thrownBelow e.
Proof.
  unfold insertDocBefore. intros H. destruct st as [[anchor d] b].
  apply bind_Err in H as [H | ([ns b1] & _ & H)]; [thrown|].
  by destruct (foldl _ _ _).
Qed.
#[local] Hint Resolve appendDocInto_thrown insertDocBefore_thrown : thrown.

Lemma appendAll_thrown srcs opt atEnd st e :
  appendAll srcs opt atEnd st = Err e → thrownBelow e.
Proof. unfold appendAll. intros (? & ? & H)%foldlM_Err. thrown. Qed.

Lemma findParagraphs_thrown d text e :
  findParagraphsContainingText d text = Err e → thrownBelow e.
Proof. unfold findParagraphsContainingText. intros H. thrown. Qed.
#[local] Hint Resolve appendAll_thrown findParagraphs_thrown : thrown.

Lemma insertAtPattern_thrown srcs opt text st e :
  insertAtPattern srcs opt text st = Err e → thrownBelow e.
Proof.
  unfold insertAtPattern. intros H.
  apply bind_Err in H as [H | (ms & _ & H)]; [thrown|].
  destruct ms as [|m0 ms]; [done|]. destruct (splitAnchor m0); [|thrown].
  apply bind_Err in H as [H | ([[? ?] ?] & _ & H)]; [|done].
  apply foldlM_Err in H as (? & ? & H). thrown.
Qed.

Lemma loadBase_thrown zip0 e : loadBase zip0 = Err e → thrownBelow e.
Proof. unfold loadBase. intros H. thrown. Qed.

Lemma detachSectPr_thrown d e : detachSectPr d = Err e → thrownBelow e.
Proof. unfold detachSectPr. intros H. thrown. Qed.

(** ** The trailing section properties of the base *)

Lemma detachSectPr_trailing bp q a cs s d x :
  bodyEl d = Some bp →
  get_at bp d = Some (Elem q a (cs ++ [s])) →
  hasTagNS NS_w "sectPr" s = true →
  detachSectPr d = OK x →
  x = (Some s, update_at bp (λ _, Elem q a cs) d).
Proof.
  intros Hb Hg Hs H. unfold detachSectPr in H. rewrite Hb, Hg in H.
  destruct (hasTagNS_isElement _ _ _ Hs) as (q' & a' & cs' & ->).
  destruct (last_pathsBelow_snoc (hasTagNS NS_w "sectPr") q a cs _ Hs eq_refl)
    as (r & Hl & _).
  unfold lastSectPr in H. rewrite Hl in H.
  destruct r as [|j r]; [|done]. simpl in H. injection H as <-.
  rewrite lookup_app_r, Nat.sub_diag by lia. simpl. do 2 f_equal.
  f_equal. by rewrite delete_middle, app_nil_r.
Qed.

Lemma loadBase_doc zip0 d b :
  loadBase zip0 = OK (d, b) → readXml zip0 P_document = OK d.
Proof. unfold loadBase. intros H. inv_result. done. Qed.

Lemma readXml_lookup zip part d d' :
  zip !! part = Some (Xml d) → readXml zip part = OK d' → d' = d.
Proof.
  unfold readXml. intros ->. simpl. destruct (isElement d); by intros [= <-].
Qed.

(** C8. For every merge that returns: if the body of the base document
    ends with a section-properties element [s], then the document of the
    merged package has its body at the same place, with the same name and
    attributes, and [s], unchanged, is again the last child of that body,
    whatever the sources and the insertion modes. *)
Theorem C8_sectPr_restored_last zips options zip log zip0 d0 bp q a cs s :
  mergeDocx zips options = OK (zip, log) →
  head zips = Some zip0 →
  zip0 !! P_document = Some (Xml d0) →
  bodyEl d0 = Some bp →
  get_at bp d0 = Some (Elem q a (cs ++ [s])) →
  hasTagNS NS_w "sectPr" s = true →
  ∃ d' cs', zip !! P_document = Some (Xml d')
            ∧ bodyEl d' = Some bp
            ∧ get_at bp d' = Some (Elem q a (cs' ++ [s])).
Proof.
  intros H Hz Hd0 Hb Hg Hs. unfold mergeDocx in H.
  destruct (bool_decide _); [done|]. destruct (_ && _)%bool; [done|].
  destruct zips as [|z srcs]; [done|]. simpl in Hz. injection Hz as ->.
  apply bind_OK in H as ([d b0] & Hload & H).
  apply loadBase_doc in Hload as Hrd.
  apply (readXml_lookup _ _ _ _ Hd0) in Hrd as ->.
  apply bind_OK in H as ([sect d1] & Hdet & H).
  apply (detachSectPr_trailing _ _ _ _ _ _ _ Hb Hg Hs) in Hdet. injection Hdet as -> ->.
  rewrite Hb in H.
  assert (bodyAt bp q a (update_at bp (λ _, Elem q a cs) d0)) as Hd1.
  { apply bodyAt_update; [split; eauto | eauto]. }
  apply bind_OK in H as ([d2 b2] & Hstart & H).
  assert (bodyAt bp q a d2) as Hd2.
  { destruct (r_insertStart _); [|by injection Hstart as <- <-].
    by eapply appendAll_bodyAt. }
  apply bind_OK in H as ([[[d3 b3] n] l] & Hpat & H).
  assert (bodyAt bp q a d3) as Hd3.
  { destruct (r_pattern _) as [text|]; [|by injection Hpat as <- <- <- <-].
    destruct (Js.truthy _); [|by injection Hpat as <- <- <- <-].
    by eapply insertAtPattern_bodyAt. }
  apply bind_OK in H as ([d4 b4] & Hend & H).
  assert (bodyAt bp q a d4) as Hd4.
  { destruct (r_insertEnd _); [|by injection Hend as <- <-].
    by eapply appendAll_bodyAt. }
  destruct (bool_decide _); [done|]. injection H as <- <-.
  destruct (bodyAt_update bp q a d4 (appendChild s) Hd4) as [Hb' _];
    [intros; apply appendChild_root|].
  destruct Hd4 as [_ (cs4 & Hg4)].
  exists (update_at bp (appendChild s) d4), cs4. split_and!.
  - unfold writeXml. rewrite lookup_insert_ne by done. rewrite lookup_insert_ne by done.
    by rewrite lookup_insert_eq.
  - done.
  - by rewrite (get_update_eq _ _ _ _ Hg4).
Qed.

(** ** The insertion count *)

Lemma patternStep_thrown srcs opt st e : patternStep srcs opt st = Err e → thrownBelow e.
Proof.
  unfold patternStep. destruct (r_pattern opt); [|done].
  destruct (Js.truthy _); [apply insertAtPattern_thrown | done].
Qed.

Lemma insertAtPattern_count srcs opt text st st' n l :
  insertAtPattern srcs opt text st = OK (st', n, l) →
  (n = O ↔ findParagraphsContainingText (fst st) text = OK []).
Proof.
  unfold insertAtPattern. intros H. apply bind_OK in H as (ms & Hf & H). rewrite Hf.
  destruct ms as [|m0 ms]; [by injection H as <- <- <-|].
  destruct (splitAnchor m0); [|done].
  apply bind_OK in H as ([[? ?] ?] & _ & H). injection H as <- <- <-. done.
Qed.

(** What [mergeDocx] does once the inputs are validated, the base is
    loaded and its section properties are detached. *)
Lemma mergeDocx_loaded zip0 srcs options d0 b0 sect d1 :
  let opt := withDefaults options in
  (negb (Js.truthy (r_pattern opt)) && negb (r_insertStart opt)
   && negb (r_insertEnd opt))%bool = false →
  srcs ≠ [] →
  loadBase zip0 = OK (d0, b0) →
  detachSectPr d0 = OK (sect, d1) →
  mergeDocx (zip0 :: srcs) options
  = (st ← (if r_insertStart opt then appendAll srcs opt false (d1, b0) else OK (d1, b0));
     '(st, n, l) ← patternStep srcs opt st;
     '(baseDoc, b) ← (if r_insertEnd opt then appendAll srcs opt true st else OK st);
     if bool_decide ((0 + (if r_insertStart opt then 1 else 0)
                        + (if r_insertEnd opt then 1 else 0) + n)%nat = O)
     then Err NoInsertionPerformed
     else
       let baseDoc := match sect, bodyEl d0 with
                      | Some s, Some bp => update_at bp (appendChild s) baseDoc
                      | _, _ => baseDoc
                      end in
       OK (writeXml P_ct (baseCT b)
             (writeXml P_docRels (baseRels b) (writeXml P_document baseDoc (baseZip b))),
           ([("Reading " +:+ Js.ofZ (Z.of_nat (length (zip0 :: srcs))) +:+ " DOCX files ...",
              info)] ++ l)
           ++ [("Packaging merged .docx ...", info); ("Done.", info)])).
Proof.
  intros opt Hval Hsrcs Hload Hdet. unfold mergeDocx. fold opt.
  rewrite bool_decide_false by (destruct srcs; simpl; [done | lia]).
  rewrite Hval, Hload. cbn [mbind result_bind]. rewrite Hdet. cbn [mbind result_bind].
  reflexivity.
Qed.

(** C2. For a merge call that passes the validation of its input (at
    least two packages, and a pattern or insertStart or insertEnd), whose
    base package loads and whose trailing section properties detach: the
    call throws NoInsertionPerformed exactly when neither insertStart nor
    insertEnd is set and no paragraph of the base document contains the
    pattern.  A call that throws returns no package. *)
Theorem C2_NoInsertionPerformed_iff zips options zip0 d0 b0 sect d1 :
  (2 ≤ length zips)%nat →
  Js.truthy (pattern options) = true ∨ insertStart options = Some true
    ∨ insertEnd options = Some true →
  head zips = Some zip0 →
  loadBase zip0 = OK (d0, b0) →
  detachSectPr d0 = OK (sect, d1) →
  mergeDocx zips options = Err NoInsertionPerformed
  ↔ insertStart options ≠ Some true
    ∧ insertEnd options ≠ Some true
    ∧ ∀ text, pattern options = Some text → findParagraphsContainingText d1 text = OK [].
Proof.
  intros Hlen Hval Hz Hload Hdet.
  destruct zips as [|z srcs]; [done|]. injection Hz as ->.
  assert (srcs ≠ []) as Hsrcs by (destruct srcs; simpl in *; [lia | done]).
  pose (opt := withDefaults options).
  assert (r_pattern opt = pattern options) as Hrp by done.
  assert (r_insertStart opt = true ↔ insertStart options = Some true) as Hrs.
  { unfold opt, withDefaults; simpl. destruct (insertStart options) as [[]|]; split; (done || discriminate). }
  assert (r_insertEnd opt = true ↔ insertEnd options = Some true) as Hre.
  { unfold opt, withDefaults; simpl. destruct (insertEnd options) as [[]|]; split; (done || discriminate). }
  rewrite (mergeDocx_loaded zip0 srcs options d0 b0 sect d1); [|..|done|done|done].
  2:{ fold opt. rewrite Hrp.
      destruct (Js.truthy (pattern options)), (r_insertStart opt), (r_insertEnd opt);
        try done. destruct Hval as [?|[Hv|Hv]]; [done|..].
      - apply Hrs in Hv. congruence.
      - apply Hre in Hv. congruence. }
  fold opt. split.
  - intros H.
    apply bind_Err in H as [H | (st1 & Hstart & H)];
      [destruct (r_insertStart opt); [by apply appendAll_thrown in H | done]|].
    apply bind_Err in H as [H | ([[st2 n] l] & Hpat & H)];
      [by apply patternStep_thrown in H|].
    apply bind_Err in H as [H | ([d3 b3] & Hend & H)];
      [destruct (r_insertEnd opt); [by apply appendAll_thrown in H | done]|].
    destruct (r_insertStart opt) eqn:Es; [done|].
    destruct (r_insertEnd opt) eqn:Ee; [done|].
    injection Hstart as <-.
    split_and!; [intros Hv; apply Hrs in Hv; congruence
                |intros Hv; apply Hre in Hv; congruence|].
    intros text Htext. unfold patternStep in Hpat. rewrite Hrp, Htext in Hpat.
    destruct (Js.truthy (Some text)) eqn:Et.
    + apply insertAtPattern_count in Hpat. apply Hpat.
      destruct n; [done|]. by rewrite bool_decide_false in H by lia.
    + exfalso. rewrite Htext in Hval. destruct Hval as [?|[Hv|Hv]]; [congruence|..].
      * apply Hrs in Hv. congruence.
      * apply Hre in Hv. congruence.
  - intros (Hs & He & Hfind).
    destruct (r_insertStart opt) eqn:Es; [destruct Hs; by apply Hrs|].
    destruct (r_insertEnd opt) eqn:Ee; [destruct He; by apply Hre|].
    cbn [mbind result_bind]. unfold patternStep. rewrite Hrp.
    destruct (pattern options) as [text|] eqn:Htext.
    2:{ destruct Hval as [?|[Hv|Hv]]; [done|..].
        - apply Hrs in Hv. congruence.
        - apply Hre in Hv. congruence. }
    destruct (Js.truthy (Some text)) eqn:Et.
    2:{ destruct Hval as [?|[Hv|Hv]]; [congruence|..].
        - apply Hrs in Hv. congruence.
        - apply Hre in Hv. congruence. }
    unfold insertAtPattern. cbn [fst]. rewrite (Hfind text eq_refl). done.
Qed.

(** ** The block inserted at the pattern *)

Lemma update_at_ext_all p f g n : (∀ x, f x = g x) → update_at p f n = update_at p g n.
Proof.
  intros Hfg. revert n. induction p as [|i p IH]; intros n; simpl; [done|].
  destruct n as [q a cs|s]; [|done]. f_equal. apply list_alter_ext; auto.
Qed.

Lemma update_at_id_all p f n : (∀ x, f x = x) → update_at p f n = n.
Proof.
  intros Hf. revert n. induction p as [|i p IH]; intros n; simpl; [done|].
  destruct n as [q a cs|s]; [|done]. f_equal. apply list_alter_id; auto.
Qed.

Lemma insertManyAt_nil i x : insertManyAt i [] x = x.
Proof. destruct x as [q a cs|]; [|done]. simpl. by rewrite take_drop. Qed.

Lemma insertManyAt_app i ns rest x :
  insertManyAt (i + length ns) rest (insertManyAt i ns x) = insertManyAt i (ns ++ rest) x.
Proof.
  destruct x as [q a cs|]; [|done]. simpl. f_equal.
  destruct (decide (i ≤ length cs)%nat) as [Hi|Hi].
  - assert (i + length ns = length (take i cs ++ ns))%nat as ->
      by (rewrite length_app, length_take; lia).
    rewrite (app_assoc (take i cs) ns), take_app_length, drop_app_length.
    by rewrite <- !app_assoc.
  - rewrite (take_ge cs i), (drop_ge cs i) by lia. rewrite app_nil_r.
    rewrite take_ge, drop_ge by (rewrite length_app; lia).
    by rewrite ?app_nil_r, <- ?app_assoc.
Qed.

Lemma insertBeforeAt_insertManyAt i c x : insertBeforeAt i c x = insertManyAt i [c] x.
Proof. by destruct x. Qed.

(** The loop of [insertDocBefore] puts the imported nodes, in their order,
    in front of the anchor. *)
Lemma insertFold parent ns d i :
  foldl (λ '(doc, i) n, (update_at parent (insertBeforeAt i n) doc, S i)) (d, i) ns
  = (update_at parent (insertManyAt i ns) d, (i + length ns)%nat).
Proof.
  revert d i. induction ns as [|c l IH]; intros d i; simpl.
  - rewrite (update_at_id_all _ _ _ (insertManyAt_nil i)). f_equal. lia.
  - rewrite IH, update_at_compose. f_equal; [|lia].
    apply update_at_ext_all. intros x. simpl.
    rewrite insertBeforeAt_insertManyAt.
    replace (S i) with (i + length [c])%nat by (simpl; lia).
    by rewrite insertManyAt_app.
Qed.

Lemma insertDocBefore_loop srcs opt parent : ∀ i d b anchor' d' b',
  foldlM (λ st srcZip, insertDocBefore srcZip opt st) ((parent, i), d, b) srcs
    = OK (anchor', d', b') →
  ∃ nss, importAll srcs opt b = OK (nss, b')
         ∧ d' = update_at parent (insertManyAt i (concat nss)) d.
Proof.
  induction srcs as [|src srcs IH]; intros i d b anchor' d' b'; simpl.
  - intros [= <- <- <-]. exists []. split; [done|].
    by rewrite (update_at_id_all _ _ _ (insertManyAt_nil i)).
  - intros H. apply bind_OK in H as ([[anchor1 d1] b1] & Hstep & H).
    unfold insertDocBefore in Hstep.
    apply bind_OK in Hstep as ([ns b2] & Himp & Hstep). cbn [fst snd] in Hstep.
    rewrite insertFold in Hstep. injection Hstep as <- <- <-.
    apply IH in H as (nss & Hall & ->). exists (ns :: nss).
    rewrite Himp. cbn [mbind result_bind]. rewrite Hall. split; [done|].
    rewrite update_at_compose. apply update_at_ext_all. intros x. simpl.
    by rewrite insertManyAt_app.
Qed.

Lemma get_at_snoc p i n e :
  get_at (p ++ [i]) n = Some e →
  ∃ q a cs, get_at p n = Some (Elem q a cs) ∧ cs !! i = Some e.
Proof.
  rewrite get_at_app. destruct (get_at p n) as [x|]; [|done]. simpl.
  destruct x as [q a cs|]; simpl; [|done].
  destruct (cs !! i) as [c|] eqn:Hc; simpl; [|done]. intros [= ->]. eauto.
Qed.

Lemma findParagraphs_elem d text ms m :
  findParagraphsContainingText d text = OK ms → m ∈ ms →
  ∃ p, get_at m d = Some p ∧ hasTagNS NS_w "p" p = true ∧ paragraphMatches text p = true.
Proof.
  unfold findParagraphsContainingText. intros H Hm.
  destruct (bodyEl d) as [bp|]; [|done].
  destruct (get_at bp d) as [body|] eqn:Hb; [|done]. injection H as <-.
  apply list_elem_of_fmap in Hm as (rel & -> & Hrel).
  apply list_elem_of_filter in Hrel as [Hmatch Hrel].
  apply elem_of_pathsBelow in Hrel as [_ (e & He & Ht)].
  exists e. rewrite get_at_app, Hb. simpl. rewrite He in Hmatch. simpl in Hmatch.
  split_and!; [done..|]. by injection Hmatch.
Qed.


(** ** The relationship-ID allocator *)

Lemma substring_full s : String.substring 0 (String.length s) s = s.
Proof. induction s; simpl; [done | by f_equal]. Qed.

Lemma execRId_digits s d :
  Js.execRId s = Some d → allDigits d ∧ d ≠ EmptyString.
Proof.
  induction s as [|c s IH]; cbn [Js.execRId]; [done|].
  set (d0 := if String.prefix "rId" (String c s) then _ else _).
  assert (allDigits d0) as Hd0.
  { unfold d0. destruct (String.prefix "rId" (String c s));
      [apply takeDigits_allDigits | by intros ? []]. }
  clearbody d0. destruct (String.eqb_spec d0 EmptyString); [done|].
  intros H. by simplify_eq.
Qed.

Lemma execRId_number s d : Js.execRId s = Some d → ∃ z, Js.toNumber d = Some z ∧ 0 ≤ z.
Proof. intros [Hd Hne]%execRId_digits. by apply toNumber_digits. Qed.

Lemma ridNumber_nonneg id : 0 ≤ ridNumber id.
Proof.
  unfold ridNumber. destruct (Js.execRId id) as [d|] eqn:E; simpl; [|done].
  destruct (execRId_number _ _ E) as (z & -> & Hz). done.
Qed.

Lemma execRId_rId n : 0 ≤ n → Js.execRId ("rId" +:+ Js.ofZ n) = Some (Js.ofZ n).
Proof.
  intros Hn. destruct (ofZ_nonneg_digits n Hn) as [Hd Hne].
  change ("rId" +:+ Js.ofZ n) with (String "r" (String "I" (String "d" (Js.ofZ n)))).
  cbn [Js.execRId]. 
  assert (∀ s, String.prefix "rId" (String "r" (String "I" (String "d" s))) = true) as ->
    by (by intros []).
  assert (Js.substringFrom 3 (String "r" (String "I" (String "d" (Js.ofZ n)))) = Js.ofZ n) as ->.
  { unfold Js.substringFrom. simpl. rewrite Nat.sub_0_r. apply substring_full. }
  rewrite (takeDigits_digits _ Hd).
  destruct (String.eqb_spec (Js.ofZ n) EmptyString); done.
Qed.

Lemma ridNumber_rId n : 0 ≤ n → ridNumber ("rId" +:+ Js.ofZ n) = n.
Proof. intros Hn. unfold ridNumber. rewrite (execRId_rId n Hn). simpl. by rewrite toNumber_ofZ. Qed.

Lemma foldr_max_ge (l : list Z) : 0 ≤ foldr Z.max 0 l.
Proof. induction l; simpl; lia. Qed.

Lemma foldr_max_elem (l : list Z) x : x ∈ l → x ≤ foldr Z.max 0 l.
Proof. induction 1; simpl; lia. Qed.

Lemma foldr_max_snoc (l : list Z) x : 0 ≤ x → foldr Z.max 0 (l ++ [x]) = Z.max (foldr Z.max 0 l) x.
Proof. intros Hx. induction l; simpl; lia. Qed.

Lemma allocRid_fold els m :
  0 ≤ m →
  foldl (λ max el,
      match Js.execRId (Js.orLit (getAttribute "Id" el) EmptyString) with
      | Some m1 => Js.max max (Js.toNumber m1)
      | None => max
      end) (Some m) els
  = Some (Z.max m (foldr Z.max 0
       (ridNumber <$> ((λ el, Js.orLit (getAttribute "Id" el) EmptyString) <$> els)))).
Proof.
  revert m. induction els as [|el els IH]; intros m Hm;
    cbn [foldl foldr fmap list_fmap]; [f_equal; lia|].
  pose proof (foldr_max_ge
    (ridNumber <$> ((λ el, Js.orLit (getAttribute "Id" el) EmptyString) <$> els))) as Hge.
  unfold ridNumber at 1.
  destruct (Js.execRId _) as [d|] eqn:E; cbn [mbind option_bind default].
  - destruct (execRId_number _ _ E) as (z & -> & Hz). cbn [Js.max default].
    rewrite IH by lia. f_equal. cbn [fmap list_fmap] in *. unfold id. lia.
  - rewrite IH by lia. f_equal. cbn [fmap list_fmap] in *. lia.
Qed.

Lemma allocRid_max relXml : allocRid relXml = "rId" +:+ Js.ofZ (ridMax relXml + 1).
Proof.
  unfold allocRid. rewrite allocRid_fold by done. simpl. unfold ridMax, relIds.
  do 2 f_equal. pose proof (foldr_max_ge (ridNumber <$> relIds relXml)). unfold relIds in *. lia.
Qed.

Lemma ridMax_nonneg relXml : 0 ≤ ridMax relXml.
Proof. apply foldr_max_ge. Qed.

Lemma rId_fresh relXml el k :
  0 ≤ k → el ∈ relationships relXml →
  getAttribute "Id" el ≠ Some ("rId" +:+ Js.ofZ (ridMax relXml + 1 + k)).
Proof.
  intros Hk Hel Hid. pose proof (ridMax_nonneg relXml) as Hm.
  assert (ridNumber ("rId" +:+ Js.ofZ (ridMax relXml + 1 + k)) ≤ ridMax relXml) as Hle.
  { apply foldr_max_elem, list_elem_of_fmap. eexists; split; [done|].
    apply list_elem_of_fmap. exists el. split; [|done]. rewrite Hid. done. }
  rewrite ridNumber_rId in Hle by lia. lia.
Qed.

Lemma elements_app_child q a cs c :
  elements (Elem q a (cs ++ [c]))
  = Elem q a (cs ++ [c]) :: flat_map elements cs ++ elements c.
Proof. cbn [elements]. rewrite flat_map_app. cbn [flat_map]. by rewrite app_nil_r. Qed.

Lemma relIds_addRelationship id type target mode relXml :
  isElement relXml = true →
  relIds (addRelationship id type target mode relXml) = relIds relXml ++ [id].
Proof.
  destruct relXml as [q a cs|]; [intros _|done].
  unfold addRelationship. set (rel := match mode with Some _ => _ | None => _ end).
  assert (∃ at', rel = Elem (QName NS_pr EmptyString "Relationship")
            (Attr (QName EmptyString EmptyString "Id") id :: at') []) as (at' & Hrel).
  { unfold rel. destruct mode as [m|]; [destruct (Js.truthy _)|]; simpl; eauto. }
  unfold relIds, relationships, docElementsByTagNameNS. cbn [appendChild].
  rewrite elements_app_child. cbn [elements]. rewrite !filter_cons.
  rewrite (hasTagNS_Elem _ _ q a (cs ++ [rel]) a cs).
  rewrite filter_app, Hrel. cbn [elements flat_map app].
  rewrite filter_cons_True, filter_nil by done.
  destruct (decide (hasTagNS NS_pr "Relationship" (Elem q a cs) = true));
    rewrite ?fmap_cons, ?fmap_app; simpl; [f_equal|];
    f_equal; f_equal; by destruct id.
Qed.

Lemma addRelationship_isElement id type target mode relXml :
  isElement relXml = true → isElement (addRelationship id type target mode relXml) = true.
Proof. by destruct relXml. Qed.

Lemma ridMax_addRelationship type target mode relXml :
  isElement relXml = true →
  ridMax (addRelationship (allocRid relXml) type target mode relXml) = ridMax relXml + 1.
Proof.
  intros Hel. unfold ridMax at 1. rewrite relIds_addRelationship by done.
  pose proof (ridMax_nonneg relXml).
  rewrite fmap_app. change (ridNumber <$> [allocRid relXml]) with [ridNumber (allocRid relXml)].
  rewrite foldr_max_snoc by apply ridNumber_nonneg.
  rewrite allocRid_max, ridNumber_rId by lia. fold (ridMax relXml). lia.
Qed.

Lemma allocMany_spec reqs : ∀ relXml k id,
  isElement relXml = true →
  allocMany reqs relXml !! k = Some id →
  id = "rId" +:+ Js.ofZ (ridMax relXml + 1 + Z.of_nat k).
Proof.
  induction reqs as [|[[type target] mode] reqs IH]; intros relXml k id Hel; simpl; [done|].
  destruct k as [|k]; simpl.
  - intros [= <-]. rewrite allocRid_max. do 2 f_equal. lia.
  - intros H. apply IH in H; [|by apply addRelationship_isElement].
    rewrite ridMax_addRelationship in H by done. rewrite H. do 2 f_equal. lia.
Qed.




(** ** Merges of small documents *)

(** C1, failing input: with insertStart alone and the sources First and
    Second, the body of the merged document is Base, First, Second: the
    sources come after the content of the base, not before it.  The flag
    that tells the two modes apart is ignored by [appendDocInto]. *)
Theorem C1_insertStart_appends_after_base :
  (∀ srcZip opt st, appendDocInto srcZip opt false st = appendDocInto srcZip opt true st)
  ∧ mergedBody
      (mergeDocx [packageOf [paragraph "Base"]; packageOf [paragraph "First"];
                  packageOf [paragraph "Second"]] startOnly)
    = Some [paragraph "Base"; paragraph "First"; paragraph "Second"].
Proof. split; [done|]. vm_compute. reflexivity. Qed.

(** C5, failing input: a reference attribute that [importBodyNodes] finds
    by its name [r:id], the prefix being bound to another namespace than
    [NS.r], and that resolves to no relationship of the source, is still on
    the imported element after the merge, and the merged relationships hold
    no entry for it. *)
Theorem C5_reference_with_foreign_prefix_kept :
  mergedBody (mergeDocx [packageOf [paragraph "Base"]; packageOf [strictHyperlink]] endOnly)
    = Some [paragraph "Base"; strictHyperlink]
  ∧ mergedRels (mergeDocx [packageOf [paragraph "Base"]; packageOf [strictHyperlink]] endOnly)
    = Some (relationships (ensureStyleRelationships relsSkeleton)).
Proof. split; vm_compute; reflexivity. Qed.


(** ** Resolving a relationship *)

Lemma endsWith_image_not_hyperlink ty :
  Js.endsWith ty "/image" = true → Js.endsWith ty "/hyperlink" = false.
Proof.
  unfold Js.endsWith. generalize (String.rev ty). intros s.
  change (String.rev "/image") with "egami/". change (String.rev "/hyperlink") with "knilrepyh/".
  destruct s as [|c s]; [done|].
  destruct c as [[] [] [] [] [] [] [] []]; try done.
Qed.

Lemma addRelationship_entry id type target mode relXml :
  isElement relXml = true →
  ∃ el, el ∈ relationships (addRelationship id type target mode relXml)
        ∧ getAttribute "Id" el = Some id
        ∧ getAttribute "Type" el = Some type
        ∧ getAttribute "Target" el = Some target.
Proof.
  destruct relXml as [q a cs|]; [intros _|done].
  unfold addRelationship. set (rel := match mode with Some _ => _ | None => _ end).
  assert (∃ at', rel = Elem (QName NS_pr EmptyString "Relationship")
            (Attr (QName EmptyString EmptyString "Id") id
             :: Attr (QName EmptyString EmptyString "Type") type
             :: Attr (QName EmptyString EmptyString "Target") target :: at') [])
    as (at' & Hrel).
  { unfold rel. destruct mode as [m|]; [destruct (Js.truthy _)|]; simpl; eauto. }
  exists rel. split; [|by rewrite Hrel].
  unfold relationships, docElementsByTagNameNS. cbn [appendChild].
  rewrite elements_app_child. apply list_elem_of_filter. split; [by rewrite Hrel|].
  right. apply elem_of_app. right. rewrite Hrel. left.
Qed.

Lemma allocRid_nonempty relXml : allocRid relXml ≠ EmptyString.
Proof. by rewrite allocRid_max. Qed.

Lemma mergeDocx_log zips options zip log :
  mergeDocx zips options = OK (zip, log) →
  ∃ l, log = [("Reading " +:+ Js.ofZ (Z.of_nat (length zips)) +:+ " DOCX files ...", info)]
             ++ l ++ [("Packaging merged .docx ...", info); ("Done.", info)]
       ∧ (l = [] ∨ l = [("Pattern not found in base document", warn)]).
Proof.
  unfold mergeDocx. intros H.
  destruct (bool_decide _); [done|]. destruct (_ && _)%bool; [done|].
  destruct zips as [|zip0 srcs]; [done|].
  apply bind_OK in H as ([d b0] & _ & H).
  apply bind_OK in H as ([sect d1] & _ & H).
  apply bind_OK in H as (st1 & _ & H).
  apply bind_OK in H as ([[st2 n] l] & Hpat & H).
  apply bind_OK in H as ([d3 b3] & _ & H).
  destruct (bool_decide _); [done|]. injection H as <- <-.
  exists l. split; [by rewrite <- ?app_assoc|].
  destruct (r_pattern _) as [text|]; [|injection Hpat as <- <- <-; by left].
  destruct (Js.truthy _); [|injection Hpat as <- <- <-; by left].
  unfold insertAtPattern in Hpat. apply bind_OK in Hpat as (ms & _ & Hpat).
  destruct ms as [|m0 ms]; [injection Hpat as <- <- <-; by right|].
  destruct (splitAnchor m0); [|done].
  apply bind_OK in Hpat as ([[? ?] ?] & _ & Hpat). injection Hpat as <- <- <-. by left.
Qed.



(** ** Attributes *)

Lemma attrIsNS_refl ns loc pre v : attrIsNS ns loc (Attr (QName ns pre loc) v) = true.
Proof. unfold attrIsNS. simpl. by rewrite !String.eqb_refl. Qed.

Lemma find_setAttr_same (test : attr → bool) new l :
  test new = true →
  (∀ a v, test (Attr (a_qname a) v) = test a) →
  a_value <$> find test (setAttr test new l) = Some (a_value new).
Proof.
  intros Hnew Hq. induction l as [|a l IH]; simpl; [by rewrite Hnew|].
  destruct (test a) eqn:Ha; simpl.
  - by rewrite Hq, Ha.
  - by rewrite Ha.
Qed.

Lemma getAttributeNS_setAttributeNS ns pre loc v el :
  isElement el = true →
  getAttributeNS ns loc (setAttributeNS ns pre loc v el) = Some v.
Proof.
  destruct el as [q a cs|]; [intros _|done]. unfold getAttributeNS. simpl.
  apply (find_setAttr_same (attrIsNS ns loc) (Attr (QName ns pre loc) v));
    [apply attrIsNS_refl | done].
Qed.

Lemma ofNumber_nonempty n : Js.ofNumber n ≠ EmptyString.
Proof.
  destruct n as [z|]; [|done]. simpl. rewrite ofZ_unfold.
  destruct z as [|p|p]; [done| |done].
  pose proof (Unsigned.to_uint_nonnil p). by destruct (Pos.to_uint p).
Qed.

Lemma ofZ_nonempty z : Js.ofZ z ≠ EmptyString.
Proof. apply (ofNumber_nonempty (Some z)). Qed.

(** A number written with [setAttributeNS] is the number read back. *)
Lemma readW_setAttributeNS loc second third lit pre n el :
  isElement el = true →
  readW loc second third lit (setAttributeNS NS_w pre loc (Js.ofNumber n) el) = n.
Proof.
  intros Hel. unfold readW. rewrite getAttributeNS_setAttributeNS by done.
  pose proof (ofNumber_nonempty n) as Hne.
  unfold Js.or, Js.truthy. destruct (String.eqb_spec (Js.ofNumber n) EmptyString); [done|].
  simpl. destruct (String.eqb_spec (Js.ofNumber n) EmptyString); [done|].
  apply toNumber_ofNumber.
Qed.

Lemma setAttributeNS_isElement ns pre loc v el :
  isElement (setAttributeNS ns pre loc v el) = isElement el.
Proof. by destruct el. Qed.

Lemma setAttributeNS_hasTagNS ns' loc' ns pre loc v el :
  hasTagNS ns' loc' (setAttributeNS ns pre loc v el) = hasTagNS ns' loc' el.
Proof. by destruct el. Qed.

Lemma setAttributeNS_childNodes ns pre loc v el :
  childNodes (setAttributeNS ns pre loc v el) = childNodes el.
Proof. by destruct el. Qed.

(** ** Appending children *)

Lemma appendChildren_Elem l q a cs : appendChildren l (Elem q a cs) = Elem q a (cs ++ l).
Proof.
  revert cs. induction l as [|c l IH]; intros cs; simpl; [by rewrite app_nil_r|].
  unfold appendChildren in *. simpl. rewrite IH. by rewrite <- app_assoc.
Qed.

Lemma appendChildren_snoc l c root :
  appendChild c (appendChildren l root) = appendChildren (l ++ [c]) root.
Proof. unfold appendChildren. by rewrite foldl_app. Qed.

Lemma appendChildren_isElement l root : isElement (appendChildren l root) = isElement root.
Proof.
  destruct root as [q a cs|]; [by rewrite appendChildren_Elem|].
  induction l as [|c l IH]; [done|]. done.
Qed.

Lemma descendants_Elem q a cs : descendants (Elem q a cs) = flat_map elements cs.
Proof. reflexivity. Qed.

Lemma getElementsByTagNameNS_appendChildren ns loc l root :
  isElement root = true →
  getElementsByTagNameNS ns loc (appendChildren l root)
  = getElementsByTagNameNS ns loc root
    ++ flat_map (docElementsByTagNameNS ns loc) l.
Proof.
  destruct root as [q a cs|]; [intros _|done]. rewrite appendChildren_Elem.
  unfold getElementsByTagNameNS, docElementsByTagNameNS. rewrite !descendants_Elem.
  rewrite flat_map_app, filter_app. f_equal.
  induction l as [|c l IH]; [done|]. simpl. by rewrite filter_app, IH.
Qed.

Lemma docElementsByTagNameNS_appendChildren ns loc l root :
  isElement root = true →
  ∃ root', docElementsByTagNameNS ns loc root
           = (if hasTagNS ns loc root then [root] else []) ++ getElementsByTagNameNS ns loc root
    ∧ docElementsByTagNameNS ns loc (appendChildren l root)
      = (if hasTagNS ns loc root then [root'] else [])
        ++ getElementsByTagNameNS ns loc root
        ++ flat_map (docElementsByTagNameNS ns loc) l
    ∧ attributes root' = attributes root.
Proof.
  intros Hel. exists (appendChildren l root). split_and!.
  - destruct root as [q a cs|]; [|done].
    unfold docElementsByTagNameNS, getElementsByTagNameNS. cbn [elements].
    rewrite filter_cons, descendants_Elem. by destruct (hasTagNS _ _ _).
  - rewrite <- getElementsByTagNameNS_appendChildren by done.
    destruct root as [q a cs|]; [|done]. rewrite appendChildren_Elem.
    unfold docElementsByTagNameNS, getElementsByTagNameNS. cbn [elements].
    rewrite filter_cons, descendants_Elem.
    rewrite (hasTagNS_Elem ns loc q a (cs ++ l) a cs). by destruct (hasTagNS _ _ _).
  - destruct root as [q a cs|]; [|done]. by rewrite appendChildren_Elem.
Qed.

Lemma readXmlOrCreate_isElement zip part fb t :
  isElement fb = true → readXmlOrCreate zip part fb = OK t → isElement t = true.
Proof.
  unfold readXmlOrCreate, parseXml. intros Hfb H.
  destruct (zip !! part) as [[r|]|]; simplify_eq/=; [|done].
  by destruct (isElement r) eqn:E; simplify_eq.
Qed.

Lemma readXml_isElement zip part t : readXml zip part = OK t → isElement t = true.
Proof.
  unfold readXml, parseXml. intros H.
  destruct (zip !! part) as [[r|]|]; simplify_eq/=.
  by destruct (isElement r) eqn:E; simplify_eq.
Qed.

Lemma docElements_isElement ns loc t n : n ∈ docElementsByTagNameNS ns loc t → isElement n = true.
Proof. intros [H _]%list_elem_of_filter. by destruct n. Qed.

Lemma docElements_hasTag ns loc t n :
  n ∈ docElementsByTagNameNS ns loc t → hasTagNS ns loc n = true.
Proof. by intros [H _]%list_elem_of_filter. Qed.

(** ** The styles table *)

Lemma foldl_mergeKeyed key l : ∀ root existing,
  foldl (mergeKeyed key) (root, existing) l
  = (appendChildren (keptKeyed key existing l) root,
     list_to_set (key <$> keptKeyed key existing l) ∪ existing).
Proof.
  induction l as [|s l IH]; intros root existing; cbn [foldl keptKeyed].
  - f_equal. by rewrite fmap_nil, list_to_set_nil, (left_id_L ∅ (∪)).
  - unfold mergeKeyed at 2.
    destruct (Js.truthy (key s) && bool_decide (key s ∉ existing))%bool; rewrite IH.
    + f_equal. rewrite fmap_cons, list_to_set_cons, (assoc_L (∪)).
      by rewrite (comm_L (∪) (list_to_set _) {[key s]}).
    + done.
Qed.

Lemma keptKeyed_sublist key l : ∀ existing, sublist (keptKeyed key existing l) l.
Proof.
  induction l as [|s l IH]; intros existing; simpl; [done|].
  destruct (_ && _)%bool; [apply sublist_skip | apply sublist_cons]; apply IH.
Qed.

Lemma keptKeyed_subseteq key l : ∀ existing s, s ∈ keptKeyed key existing l → s ∈ l.
Proof.
  induction l as [|x l IH]; intros existing s; simpl; [done|].
  destruct (_ && _)%bool; rewrite ?elem_of_cons.
  - intros [->|Hs]; [by left | right; by apply (IH _ _ Hs)].
  - intros Hs. right. by apply (IH _ _ Hs).
Qed.

Lemma keptKeyed_elem key l : ∀ existing s,
  s ∈ keptKeyed key existing l → Js.truthy (key s) = true ∧ key s ∉ existing.
Proof.
  induction l as [|x l IH]; intros existing s; simpl; [by intros ?%elem_of_nil|].
  destruct (Js.truthy (key x)) eqn:Ht; simpl; [|apply IH].
  case_bool_decide as Hx; simpl; [|apply IH].
  intros [->|Hs]%elem_of_cons; [done|].
  apply IH in Hs as [? Hn]. split; [done|].
  intros ?. apply Hn, elem_of_union. by right.
Qed.

Lemma keptKeyed_NoDup key l : ∀ existing, NoDup (key <$> keptKeyed key existing l).
Proof.
  induction l as [|x l IH]; intros existing; simpl; [constructor|].
  destruct (Js.truthy (key x)) eqn:Ht; simpl; [|apply IH].
  case_bool_decide as Hx; simpl; [|apply IH].
  constructor; [|apply IH].
  intros (s & Hk & Hs)%list_elem_of_fmap. apply keptKeyed_elem in Hs as [_ Hs]. set_solver.
Qed.

Lemma keptKeyed_first key l : ∀ existing s,
  s ∈ l → Js.truthy (key s) = true → key s ∉ existing →
  ∃ s', s' ∈ keptKeyed key existing l ∧ key s' = key s
        ∧ head (filter (λ x, key x = key s) l) = Some s'.
Proof.
  induction l as [|x l IH]; intros existing s; simpl; [by intros ?%elem_of_nil|].
  intros Hin Ht Hex. destruct (decide (key x = key s)) as [Hk|Hk].
  - rewrite Hk, Ht, bool_decide_true by done. simpl. exists x.
    rewrite filter_cons_True by done. split_and!; [left|done..].
  - apply elem_of_cons in Hin as [->|Hin]; [done|].
    rewrite filter_cons_False by done.
    destruct (_ && _)%bool.
    + destruct (IH ({[key x]} ∪ existing) s Hin Ht) as (s' & ? & ? & ?).
      { intros [?%elem_of_singleton|?]%elem_of_union; [congruence | done]. }
      exists s'. split_and!; [by right|done..].
    + apply IH; done.
Qed.

Lemma mergeOptionalStylePart_frame srcZip part skel name zip zip' other :
  mergeOptionalStylePart srcZip part skel name zip = OK zip' →
  other ≠ part → zip' !! other = zip !! other.
Proof.
  unfold mergeOptionalStylePart. intros H Hne.
  destruct (srcZip !! part); [|by injection H as <-].
  destruct name.
  - apply bind_OK in H as (x & _ & H). apply bind_OK in H as (y & _ & H).
    destruct (foldl _ _ _). injection H as <-. unfold writeXml. by rewrite lookup_insert_ne.
  - destruct (zip !! part); injection H as <-; [done|]. by rewrite lookup_insert_ne.
Qed.

Lemma mergeSettingsPart_frame srcZip zip zip' other :
  mergeSettingsPart srcZip zip = OK zip' →
  other ≠ P_settings → zip' !! other = zip !! other.
Proof.
  unfold mergeSettingsPart. intros H Hne.
  destruct (srcZip !! P_settings); [|by injection H as <-].
  apply bind_OK in H as (x & _ & H). apply bind_OK in H as (y & _ & H).
  injection H as <-. unfold writeXml. by rewrite lookup_insert_ne.
Qed.

Lemma definedStyleId_Some s id :
  definedStyleId s = Some id ↔ styleId s = Some id ∧ id ≠ EmptyString.
Proof.
  unfold definedStyleId. destruct (styleId s) as [i|]; [|split; [done | by intros [? _]]].
  destruct (String.eqb_spec i EmptyString) as [->|Hne].
  - split; [done | by intros [[= <-] ?]].
  - split; [by intros [= <-] | by intros [[= <-] _]].
Qed.

Lemma elem_of_styleIdsOf root id :
  id ∈ styleIdsOf root ↔ id ≠ EmptyString ∧ Some id ∈ styleId <$> styles root.
Proof.
  unfold styleIdsOf. rewrite list_elem_of_omap, list_elem_of_fmap. split.
  - intros (s & Hs & [Hid Hne]%definedStyleId_Some). eauto.
  - intros (Hne & s & Hid & Hs). exists s. split; [done|]. by apply definedStyleId_Some.
Qed.

Lemma truthy_Some id : Js.truthy (Some id) = true ↔ id ≠ EmptyString.
Proof. simpl. by destruct (String.eqb_spec id EmptyString). Qed.

(** C7. The styles merge appends to the base styles part a sublist
    [appended] of the styles of the source and leaves what the base part
    held as it was.  No appended style carries an ID of the base table;
    every non-empty ID that the base table lacks is appended once, with
    the first definition the source gives it; the appended styles keep the
    IDs they had in the source, and no two of them share one.  So when no
    two styles of the base table share an ID, and the styles of the source
    are not nested, no two styles of the merged table share an ID. *)
Theorem C7_styles_first_writer_wins srcZip zip zip' baseStyles srcStyles :
  readXmlOrCreate zip P_styles stylesSkeleton = OK baseStyles →
  readXmlOrCreate srcZip P_styles stylesSkeleton = OK srcStyles →
  mergeStylesPart srcZip zip = OK zip' →
  ∃ appended,
    zip' !! P_styles = Some (Xml (appendChildren appended baseStyles))
    ∧ sublist appended (styles srcStyles)
    ∧ NoDup (styleId <$> appended)
    ∧ (∀ id, id ∈ styleIdsOf baseStyles → ∀ s, s ∈ appended → styleId s ≠ Some id)
    ∧ (∀ id s, id ≠ EmptyString → id ∉ styleIdsOf baseStyles →
         s ∈ styles srcStyles → styleId s = Some id →
         ∃ s', s' ∈ appended ∧ styleId s' = Some id
               ∧ head (filter (λ x, styleId x = Some id) (styles srcStyles)) = Some s')
    ∧ (NoDup (styleIdsOf baseStyles) →
       (∀ s, s ∈ styles srcStyles → getElementsByTagNameNS NS_w "style" s = []) →
       NoDup (styleIdsOf (appendChildren appended baseStyles))).
Proof.
  intros Hb Hs H. unfold mergeStylesPart in H. rewrite Hb, Hs in H.
  cbn [mbind result_bind] in H. rewrite foldl_mergeKeyed in H.
  fold (styles baseStyles) in H. fold (styles srcStyles) in H.
  set (existing := list_to_set (styleId <$> styles baseStyles) : gset (option string)) in H.
  set (appended := keptKeyed styleId existing (styles srcStyles)) in H.
  apply bind_OK in H as (z1 & H1 & H). apply bind_OK in H as (z2 & H2 & H).
  apply bind_OK in H as (z3 & H3 & H).
  assert (∀ o : option string, o ∈ existing ↔ o ∈ styleId <$> styles baseStyles) as Hex.
  { intros o. unfold existing. by rewrite elem_of_list_to_set. }
  exists appended. split_and!.
  - rewrite (mergeSettingsPart_frame _ _ _ _ H) by done.
    rewrite (mergeOptionalStylePart_frame _ _ _ _ _ _ _ H3) by done.
    rewrite (mergeOptionalStylePart_frame _ _ _ _ _ _ _ H2) by done.
    rewrite (mergeOptionalStylePart_frame _ _ _ _ _ _ _ H1) by done.
    unfold writeXml. by rewrite lookup_insert_eq.
  - apply keptKeyed_sublist.
  - apply keptKeyed_NoDup.
  - intros id [Hne Hid]%elem_of_styleIdsOf s Hin Hsid.
    apply keptKeyed_elem in Hin as [_ Hin]. apply Hin. rewrite Hsid. by apply Hex.
  - intros id s Hne Hid Hin Hsid.
    destruct (keptKeyed_first styleId (styles srcStyles) existing s Hin) as (s' & ? & ? & ?).
    + rewrite Hsid. by apply truthy_Some.
    + rewrite Hsid, Hex. intros Hc. apply Hid, elem_of_styleIdsOf. done.
    + exists s'. rewrite Hsid in *. done.
  - intros Hnd Hflat.
    pose proof (readXmlOrCreate_isElement zip P_styles stylesSkeleton _ eq_refl Hb) as Hel.
    destruct (docElementsByTagNameNS_appendChildren NS_w "style" appended baseStyles Hel)
      as (root' & E1 & E2 & Hattr).
    unfold styleIdsOf, styles in Hnd |- *. rewrite E1 in Hnd. rewrite E2.
    assert (flat_map (docElementsByTagNameNS NS_w "style") appended = appended) as ->.
    { assert (Forall (λ s, s ∈ styles srcStyles) appended) as Hall.
      { apply Forall_forall. intros s Hin. by apply keptKeyed_subseteq in Hin. }
      clear -Hall Hflat. induction appended as [|s l IH]; [done|].
      apply Forall_cons in Hall as [Hs Hl]. simpl. rewrite (IH Hl). 
      specialize (Hflat s Hs). pose proof (docElements_hasTag _ _ _ _ Hs) as Ht.
      apply docElements_isElement in Hs.
      destruct s as [q a cs|]; [|done].
      unfold docElementsByTagNameNS. cbn [elements]. rewrite filter_cons.
      unfold getElementsByTagNameNS in Hflat. rewrite descendants_Elem in Hflat.
      rewrite Hflat. by rewrite decide_True. }
    assert (omap definedStyleId (if hasTagNS NS_w "style" baseStyles then [root'] else [])
            = omap definedStyleId (if hasTagNS NS_w "style" baseStyles then [baseStyles] else []))
      as Hroot.
    { destruct (hasTagNS _ _ _); [|done]. simpl.
      assert (definedStyleId root' = definedStyleId baseStyles) as ->; [|done].
      unfold definedStyleId, styleId, readName, getAttributeNS, getAttribute.
      by rewrite Hattr. }
    rewrite omap_app in Hnd. rewrite !omap_app. rewrite Hroot, app_assoc.
    apply NoDup_app. split_and!; [done| |].
    + intros id Hid (s & Hsin & Hd)%list_elem_of_omap.
      apply definedStyleId_Some in Hd as [Hsid Hne].
      apply keptKeyed_elem in Hsin as [_ Hsin]. apply Hsin. rewrite Hsid, Hex.
      rewrite <- omap_app in Hid. apply list_elem_of_omap in Hid as (b & Hb' & Hd).
      apply definedStyleId_Some in Hd as [Hbid _].
      apply list_elem_of_fmap. exists b. split; [done|].
      unfold styles. rewrite E1. done.
    + pose proof (keptKeyed_NoDup styleId (styles srcStyles) existing) as Hk.
      fold appended in Hk. clear -Hk. induction appended as [|s l IH]; [constructor|].
      simpl in *. apply NoDup_cons in Hk as [Hsn Hl].
      destruct (definedStyleId s) as [id|] eqn:Hd; [|by apply IH].
      constructor; [|by apply IH].
      intros (s' & Hs' & Hd')%list_elem_of_omap. apply Hsn.
      apply definedStyleId_Some in Hd as [-> _]. apply definedStyleId_Some in Hd' as [<- _].
      by apply list_elem_of_fmap_2.
Qed.

(** A source that defines Title and Quote, merged into a base that defines
    Title. *)
Lemma C7_witness :
  ∃ zip' appended,
    mergeStylesPart (stylesPart [style "Title" []; style "Quote" [Text "src"]])
      (stylesPart [style "Title" [Text "base"]]) = OK zip'
    ∧ zip' !! P_styles
      = Some (Xml (appendChildren appended (Elem (wName "styles") [] [style "Title" [Text "base"]])))
    ∧ NoDup (styleId <$> appended).
Proof.
  destruct (returned_OK
              (mergeStylesPart (stylesPart [style "Title" []; style "Quote" [Text "src"]])
                 (stylesPart [style "Title" [Text "base"]]))) as [zip' E];
    [vm_compute; reflexivity|].
  destruct (C7_styles_first_writer_wins
              (stylesPart [style "Title" []; style "Quote" [Text "src"]])
              (stylesPart [style "Title" [Text "base"]]) zip'
              (Elem (wName "styles") [] [style "Title" [Text "base"]])
              (Elem (wName "styles") [] [style "Title" []; style "Quote" [Text "src"]])
              eq_refl eq_refl E)
    as (appended & Hz & _ & Hnd & _).
  by exists zip', appended.
Defined.

(** ** In-place updates of attributes *)

Lemma rootAttrOnly_setAttributeNS ns pre loc v : rootAttrOnly (setAttributeNS ns pre loc v).
Proof. split; simpl; eauto. Qed.

Lemma rootAttrOnly_removeAttributeNS ns loc : rootAttrOnly (removeAttributeNS ns loc).
Proof. split; simpl; eauto. Qed.

Lemma shape_rootAttrOnly f x : rootAttrOnly f → shape (f x) = shape x.
Proof.
  intros [He Ht]. destruct x as [q a cs|s]; [|by rewrite Ht].
  destruct (He q a cs) as [a' ->]. done.
Qed.

Lemma shape_update_at p f t :
  (∀ x, shape (f x) = shape x) → shape (update_at p f t) = shape t.
Proof.
  intros Hf. revert t. induction p as [|i p IH]; intros t; simpl; [done|].
  destruct t as [q a cs|s]; [|done]. simpl. f_equal.
  change (map shape ?l) with (shape <$> l). apply list_eq. intros j.
  rewrite !list_lookup_fmap. destruct (decide (i = j)) as [->|Hij].
  - rewrite list_lookup_alter_eq. destruct (cs !! j) as [c|]; simpl; [|done].
    by rewrite IH.
  - by rewrite list_lookup_alter_ne.
Qed.

Lemma hasTagNS_shape ns loc t : hasTagNS ns loc (shape t) = hasTagNS ns loc t.
Proof. by destruct t. Qed.

Lemma get_at_shape p t : get_at p (shape t) = shape <$> get_at p t.
Proof.
  revert t. induction p as [|i p IH]; intros t; simpl; [done|].
  destruct t as [q a cs|s]; simpl; [|done].
  change (map shape cs) with (shape <$> cs). rewrite list_lookup_fmap.
  destruct (cs !! i) as [c|]; simpl; [apply IH | done].
Qed.

Lemma elementPaths_shape t : elementPaths (shape t) = elementPaths t.
Proof.
  induction t as [s|q a cs IH] using node_ind; [done|].
  cbn [shape]. rewrite !elementPaths_Elem. f_equal.
  generalize O. induction cs as [|c cs IHcs]; intros i; simpl; [done|].
  apply Forall_cons in IH as [Hc Hcs]. by rewrite Hc, IHcs.
Qed.

Lemma pathsWhere_shape ns loc t :
  pathsWhere (hasTagNS ns loc) (shape t) = pathsWhere (hasTagNS ns loc) t.
Proof.
  unfold pathsWhere. rewrite elementPaths_shape. apply list_filter_iff. intros p.
  rewrite get_at_shape. destruct (get_at p t) as [e|]; simpl; [|done].
  by rewrite hasTagNS_shape.
Qed.

Lemma pathsBelow_shape ns loc t :
  pathsBelow (hasTagNS ns loc) (shape t) = pathsBelow (hasTagNS ns loc) t.
Proof. unfold pathsBelow. by rewrite pathsWhere_shape. Qed.

Lemma pathsBelow_shape_eq ns loc t t' :
  shape t = shape t' → pathsBelow (hasTagNS ns loc) t = pathsBelow (hasTagNS ns loc) t'.
Proof. intros H. by rewrite <- (pathsBelow_shape ns loc t), H, pathsBelow_shape. Qed.

Lemma get_at_shape_eq p t t' :
  shape t = shape t' → shape <$> get_at p t = shape <$> get_at p t'.
Proof. intros H. by rewrite <- !get_at_shape, H. Qed.

Lemma get_at_shape_eq_Some p t t' e :
  shape t = shape t' → get_at p t = Some e → ∃ e', get_at p t' = Some e' ∧ shape e = shape e'.
Proof.
  intros H He. pose proof (get_at_shape_eq p t t' H) as E. rewrite He in E.
  destruct (get_at p t') as [e'|]; simplify_eq/=. eauto.
Qed.

(** Reading at a path that the update does not touch. *)
Lemma get_at_update_ne p p' f t :
  rootAttrOnly f → p' ≠ p →
  attributes <$> get_at p' (update_at p f t) = attributes <$> get_at p' t.
Proof.
  intros Hf. revert p t. induction p' as [|j p' IH]; intros p t Hne.
  - destruct p as [|i p]; [done|]. simpl. by destruct t.
  - destruct p as [|i p].
    + simpl. destruct Hf as [He Ht]. destruct t as [q a cs|s]; [|by rewrite Ht].
      destruct (He q a cs) as [a' ->]. done.
    + simpl. destruct t as [q a cs|s]; [|done]. simpl.
      destruct (decide (i = j)) as [->|Hij].
      * rewrite list_lookup_alter_eq. destruct (cs !! j) as [c|]; simpl; [|done].
        apply IH. congruence.
      * by rewrite list_lookup_alter_ne.
Qed.

Lemma readW_attributes loc second third lit x y :
  attributes x = attributes y → readW loc second third lit x = readW loc second third lit y.
Proof. intros H. unfold readW, getAttributeNS, getAttribute. by rewrite H. Qed.

Lemma readW_update_ne loc second third lit p p' f t :
  rootAttrOnly f → p' ≠ p →
  readW loc second third lit <$> get_at p' (update_at p f t)
  = readW loc second third lit <$> get_at p' t.
Proof.
  intros Hf Hne. pose proof (get_at_update_ne p p' f t Hf Hne) as H.
  destruct (get_at p' (update_at p f t)) as [x|], (get_at p' t) as [y|]; simplify_eq/=;
    [|done]. f_equal. by apply readW_attributes.
Qed.

Lemma get_at_update_is_Some p p' f t :
  (∀ x, shape (f x) = shape x) →
  is_Some (get_at p' (update_at p f t)) ↔ is_Some (get_at p' t).
Proof.
  intros Hf. pose proof (get_at_shape_eq p' _ _ (shape_update_at p f t Hf)) as H.
  destruct (get_at p' (update_at p f t)), (get_at p' t); simplify_eq/=;
    split; intros [? ?]; (done || eauto).
Qed.

(** ** Paths and the elements they designate *)

Lemma elements_paths t : (λ p, get_at p t) <$> elementPaths t = Some <$> elements t.
Proof.
  induction t as [s|q a cs IH] using node_ind; [done|].
  rewrite elementPaths_Elem. cbn [elements]. rewrite !fmap_cons. f_equal.
  assert (∀ pre, (λ p, get_at p (Elem q a (pre ++ cs))) <$> childPaths (length pre) cs
                 = Some <$> flat_map elements cs) as H; [|apply (H [])].
  induction cs as [|c cs IHcs]; intros pre; simpl; [done|].
  apply Forall_cons in IH as [Hc Hcs]. rewrite !fmap_app. f_equal.
  - rewrite <- Hc, <- list_fmap_compose. apply list_fmap_ext. intros _ p _. simpl.
    by rewrite lookup_app_r, Nat.sub_diag by lia.
  - specialize (IHcs Hcs (pre ++ [c])). rewrite <- app_assoc, length_app in IHcs.
    simpl in IHcs. by rewrite Nat.add_1_r in IHcs.
Qed.

Lemma elementPaths_get p t : p ∈ elementPaths t → ∃ e, get_at p t = Some e ∧ isElement e = true.
Proof.
  intros Hp. apply (list_elem_of_fmap_2 (λ p, get_at p t)) in Hp.
  rewrite elements_paths in Hp. apply list_elem_of_fmap in Hp as (e & He & Hin).
  exists e. split; [done|]. clear -Hin.
  induction t as [s|q a cs IH] using node_ind; simpl in Hin; [by apply elem_of_nil in Hin|].
  apply elem_of_cons in Hin as [->|Hin]; [done|].
  apply list_elem_of_In, in_flat_map in Hin as (c & Hc & Hin).
  rewrite List.Forall_forall in IH. apply (IH c Hc). by apply list_elem_of_In.
Qed.

Lemma filter_paths test t :
  (λ p, get_at p t) <$> pathsWhere test t
  = Some <$> filter (λ n, test n = true) (elements t).
Proof.
  unfold pathsWhere. pose proof (elements_paths t) as H.
  revert H. generalize (elements t). induction (elementPaths t) as [|p ps IH];
    intros [|e es] H; [done | discriminate H | discriminate H |].
  rewrite !fmap_cons in H. injection H as Hp Hps.
  rewrite !filter_cons. rewrite Hp. simpl.
  destruct (test e) eqn:Ht; simpl.
  - rewrite Hp. f_equal. by apply IH.
  - by apply IH.
Qed.

Lemma childPaths_NoDup i cs :
  Forall (λ c, NoDup (elementPaths c)) cs → NoDup (childPaths i cs).
Proof.
  revert i. induction cs as [|c cs IH]; intros i Hall; simpl; [constructor|].
  apply Forall_cons in Hall as [Hc Hcs]. apply NoDup_app. split_and!.
  - apply NoDup_fmap; [|done]. by intros ?? [= ->].
  - intros p (r & -> & _)%list_elem_of_fmap Hin.
    assert (∀ k l p, p ∈ childPaths k l → ∃ j r, p = j :: r ∧ (k ≤ j)%nat) as Hidx.
    { clear. intros k l. revert k. induction l as [|c l IH]; intros k p; simpl;
        [by intros ?%elem_of_nil|].
      rewrite elem_of_app, list_elem_of_fmap. intros [(r & -> & _)|H]; [eauto|].
      destruct (IH _ _ H) as (j & r & -> & Hj). exists j, r. split; [done | lia]. }
    apply Hidx in Hin as (j & r' & [= <- <-] & Hj). lia.
  - by apply IH.
Qed.

Lemma elementPaths_NoDup t : NoDup (elementPaths t).
Proof.
  induction t as [s|q a cs IH] using node_ind; [constructor|].
  rewrite elementPaths_Elem. constructor; [|by apply childPaths_NoDup].
  intros Hin.
  assert (∀ k l p, p ∈ childPaths k l → p ≠ []) as Hne.
  { clear. intros k l. revert k. induction l as [|c l IH]; intros k p; simpl;
      [by intros ?%elem_of_nil|].
    rewrite elem_of_app, list_elem_of_fmap. intros [(r & -> & _)|H]; [done|]. eauto. }
  by apply Hne in Hin.
Qed.

Lemma pathsBelow_NoDup test t : NoDup (pathsBelow test t).
Proof. unfold pathsBelow, pathsWhere. apply NoDup_filter, NoDup_filter, elementPaths_NoDup. Qed.

(** ** The notes loop *)

Lemma renumber_cons M n l :
  renumber M (n :: l)
  = setAttributeNS NS_w "w" "id" (Js.ofZ (Z.succ M)) n :: renumber (Z.succ M) l.
Proof.
  unfold renumber. rewrite imap_cons. f_equal; [by rewrite Z.add_0_r|].
  apply imap_ext. intros k x _. simpl. do 2 f_equal. lia.
Qed.

Lemma renumber_lookup M l k c :
  renumber M l !! k = Some c
  ↔ ∃ n, l !! k = Some n ∧ c = setAttributeNS NS_w "w" "id" (Js.ofZ (M + 1 + Z.of_nat k)) n.
Proof.
  unfold renumber. rewrite list_lookup_imap. destruct (l !! k) as [n|]; simpl.
  - split; [intros [= <-]; eauto | by intros (? & [= <-] & ->)].
  - split; [done | by intros (? & ? & _)].
Qed.

Lemma copied_cons n l :
  copied (n :: l) = if Js.ltZero (noteId "0" n) then copied l else n :: copied l.
Proof. unfold copied. rewrite filter_cons. by destruct (Js.ltZero _). Qed.

Lemma foldl_mergeNote S root M map :
  (foldl mergeNote (root, M, map) S).1
  = (appendChildren (renumber M (copied S)) root, M + Z.of_nat (length (copied S))).
Proof.
  revert root M map. induction S as [|n S IH]; intros root M map.
  - simpl. by rewrite Z.add_0_r.
  - cbn [foldl]. rewrite copied_cons. unfold mergeNote at 2.
    destruct (Js.ltZero (noteId "0" n)); rewrite IH; [done|].
    rewrite renumber_cons. cbn [length]. f_equal. lia.
Qed.

Lemma ltZero_Some z : Js.ltZero (Some z) = true ↔ z < 0.
Proof. simpl. by rewrite bool_decide_eq_true. Qed.

(** A negative key is only ever bound to itself. *)
Lemma foldl_mergeNote_negative_identity S root M map :
  (∀ z v, z < 0 → map !! Some z = Some v → v = Some z) →
  ∀ z v, z < 0 → (foldl mergeNote (root, M, map) S).2 !! Some z = Some v → v = Some z.
Proof.
  revert root M map. induction S as [|n S IH]; intros root M map Hmap; [exact Hmap|].
  cbn [foldl]. unfold mergeNote at 2.
  destruct (Js.ltZero (noteId "0" n)) eqn:Hneg; apply IH; intros z v Hz.
  - destruct (decide (noteId "0" n = Some z)) as [E|E].
    + rewrite E, lookup_insert_eq. congruence.
    + rewrite lookup_insert_ne by done. by apply Hmap.
  - rewrite lookup_insert_ne; [by apply Hmap|].
    intros E. rewrite E in Hneg. apply ltZero_Some in Hz. congruence.
Qed.

(** The negative ID of a source note is bound to itself. *)
Lemma foldl_mergeNote_negative_bound S root M map z :
  z < 0 →
  (∃ n, n ∈ S ∧ noteId "0" n = Some z) ∨ map !! Some z = Some (Some z) →
  (foldl mergeNote (root, M, map) S).2 !! Some z = Some (Some z).
Proof.
  intros Hz. revert root M map. induction S as [|n S IH]; intros root M map H.
  - destruct H as [(n & Hn%elem_of_nil & _)|H]; done.
  - cbn [foldl]. unfold mergeNote at 2.
    destruct (Js.ltZero (noteId "0" n)) eqn:Hneg; apply IH.
    + destruct (decide (noteId "0" n = Some z)) as [E|E].
      * right. by rewrite E, lookup_insert_eq.
      * rewrite lookup_insert_ne by done.
        destruct H as [(n' & [->|Hn']%elem_of_cons & Hid)|H]; [done| |by right].
        left. eauto.
    + assert (noteId "0" n ≠ Some z) as E.
      { intros E. rewrite E in Hneg. apply ltZero_Some in Hz. congruence. }
      rewrite lookup_insert_ne by done.
      destruct H as [(n' & [->|Hn']%elem_of_cons & Hid)|H]; [done| |by right].
      left. eauto.
Qed.

(** The ID of a copied note is bound to one of the numbers drawn. *)
Lemma foldl_mergeNote_copied_bound S root M map lo key :
  lo ≤ M → Js.ltZero key = false →
  (∃ n, n ∈ copied S ∧ noteId "0" n = key)
  ∨ (∃ v, map !! key = Some (Some v) ∧ lo < v ≤ M) →
  ∃ v, (foldl mergeNote (root, M, map) S).2 !! key = Some (Some v)
       ∧ lo < v ≤ M + Z.of_nat (length (copied S)).
Proof.
  intros Hlo Hkey. revert root M map Hlo. induction S as [|n S IH]; intros root M map Hlo H.
  - destruct H as [(n & Hn%elem_of_nil & _)|(v & Hv & ?)]; [done|].
    exists v. simpl. split; [done | lia].
  - cbn [foldl]. rewrite copied_cons in *. unfold mergeNote at 2.
    destruct (Js.ltZero (noteId "0" n)) eqn:Hneg.
    + apply IH; [done|]. destruct H as [H|(v & Hv & ?)]; [by left|]. right. exists v.
      rewrite lookup_insert_ne by congruence. done.
    + cbn [length].
      edestruct (IH (appendChild (setAttributeNS NS_w "w" "id" (Js.ofZ (Z.succ M)) n) root)
                   (Z.succ M) (<[noteId "0" n := Js.Int (Z.succ M)]> map))
        as (v & Hv & ?); [lia| |exists v; split; [exact Hv | lia]].
      destruct (decide (noteId "0" n = key)) as [E|E].
      * right. exists (Z.succ M). rewrite E, lookup_insert_eq. split; [done | lia].
      * rewrite lookup_insert_ne by done.
        destruct H as [(n' & [->|Hn']%elem_of_cons & Hid)|(v & Hv & ?)]; [done| |].
        -- left. eauto.
        -- right. exists v. split; [done | lia].
Qed.

Lemma maxNonNegative_fold m ids :
  0 ≤ m →
  let r := foldl (λ m n, match n with Some z => if bool_decide (0 <= z) then Z.max m z else m
                                    | None => m end) m ids in
  m ≤ r ∧ ∀ z, Some z ∈ ids → z ≤ r.
Proof.
  revert m. induction ids as [|n ids IH]; intros m Hm; cbn [foldl].
  - split; [done|]. by intros z ?%elem_of_nil.
  - set (m' := match n with Some z => if bool_decide (0 <= z) then Z.max m z else m
                          | None => m end).
    assert (m ≤ m' ∧ ∀ z, n = Some z → z ≤ m') as [Hm' Hn].
    { subst m'. destruct n as [z|]; [|split; [lia | done]].
      case_bool_decide; split; try lia; intros ? [= <-]; lia. }
    destruct (IH m' ltac:(lia)) as [H1 H2]. split; [lia|].
    intros z [E|Hin]%elem_of_cons; [|by apply H2]. specialize (Hn z (eq_sym E)). lia.
Qed.

(** Every numeric ID of the list is at most the seed of the counter. *)
Lemma maxNonNegative_upper ids z : Some z ∈ ids → z ≤ maxNonNegative ids.
Proof. intros H. destruct (maxNonNegative_fold 0 ids ltac:(lia)) as [_ H2]. by apply H2. Qed.

Lemma maxNonNegative_nonneg ids : 0 ≤ maxNonNegative ids.
Proof. by destruct (maxNonNegative_fold 0 ids ltac:(lia)) as [H1 _]. Qed.

Lemma getNoteIdRemap_setNoteMap kind idMap b b0 :
  getNoteIdRemap kind (withNoteMap (setNoteMap kind idMap (noteMap b)) b0) = idMap.
Proof.
  unfold getNoteIdRemap, setNoteMap. simpl.
  by destruct (noteMap b) as [[f e]|], kind.
Qed.

(** ** References in the body *)

Lemma remapNoteRef_rootAttrOnly idMap : rootAttrOnly (remapNoteRef idMap).
Proof.
  split; [intros q a cs | intros s]; unfold remapNoteRef.
  - destruct (idMap !! _); simpl; eauto.
  - by destruct (idMap !! _).
Qed.

Lemma noteId_Some_isElement lit r z :
  Js.toNumber lit = None → noteId lit r = Some z → isElement r = true.
Proof.
  intros Hlit H. destruct r as [q a cs|s]; [done|].
  unfold noteId, readW in H. simpl in H. unfold Js.or, Js.orLit in H. simpl in H.
  congruence.
Qed.

Lemma remapNoteRef_negative idMap r z :
  (∀ z v, z < 0 → idMap !! Some z = Some v → v = Some z) →
  noteId "NaN" r = Some z → z < 0 → noteId "NaN" (remapNoteRef idMap r) = Some z.
Proof.
  intros Hmap Hr Hz. unfold remapNoteRef. rewrite Hr.
  destruct (idMap !! Some z) as [v|] eqn:E; [|done].
  rewrite (Hmap z v Hz E). apply readW_setAttributeNS.
  by apply (noteId_Some_isElement "NaN" r z).
Qed.

Lemma update_remapNoteRef_negative idMap q body p z :
  (∀ z v, z < 0 → idMap !! Some z = Some v → v = Some z) →
  noteId "NaN" <$> get_at p body = Some (Some z) → z < 0 →
  noteId "NaN" <$> get_at p (update_at q (remapNoteRef idMap) body) = Some (Some z).
Proof.
  intros Hmap H Hz. destruct (decide (p = q)) as [->|Hne].
  - destruct (get_at q body) as [r|] eqn:E; [|done]. simpl in H.
    rewrite (get_update_eq _ _ _ _ E). simpl. f_equal.
    apply remapNoteRef_negative; [done| |done]. congruence.
  - unfold noteId in *. rewrite readW_update_ne; [done| |done].
    apply remapNoteRef_rootAttrOnly.
Qed.

Lemma remapNoteRefsInBody_negative idMap body p z :
  (∀ z v, z < 0 → idMap !! Some z = Some v → v = Some z) →
  noteId "NaN" <$> get_at p body = Some (Some z) → z < 0 →
  noteId "NaN" <$> get_at p (remapNoteRefsInBody idMap body) = Some (Some z).
Proof.
  intros Hmap H Hz. unfold remapNoteRefsInBody. case_bool_decide; [done|].
  assert (∀ ps b, noteId "NaN" <$> get_at p b = Some (Some z) →
            noteId "NaN" <$> get_at p (foldl (λ b q, update_at q (remapNoteRef idMap) b) b ps)
            = Some (Some z)) as Hfold.
  { induction ps as [|q ps IH]; intros b Hb; [done|]. simpl. apply IH.
    by apply update_remapNoteRef_negative. }
  simpl. by do 2 apply Hfold.
Qed.

(** ** The notes merge *)




(** ** The loops over a numbering table *)

Lemma mergeAbstractNum_tableStep st p :
  mergeAbstractNum st p = tableStep renumberAbstractNum srcAbstractNumId st p.
Proof. by destruct st as [[[src base] mx] m]. Qed.

Lemma mergeNum_tableStep absIdMap st p :
  mergeNum absIdMap st p = tableStep (renumberNum absIdMap) srcNumId st p.
Proof. by destruct st as [[[src base] mx] m]. Qed.

(** The source keeps its shape through a loop. *)
Lemma tableStep_shape g key ps st :
  (∀ new x, shape (g new x) = shape x) →
  shape (foldl (tableStep g key) st ps).1.1.1 = shape st.1.1.1.
Proof.
  intros Hg. revert st. induction ps as [|p ps IH]; intros st; [done|].
  cbn [foldl]. rewrite IH. destruct st as [[[src base] mx] m]. unfold tableStep.
  destruct (get_at p src) as [x|] eqn:E; [|done]. cbn [fst].
  rewrite (update_at_ext p (λ _, g (Js.incr mx) x) (g (Js.incr mx)) src x E eq_refl).
  apply shape_update_at. intros y. apply Hg.
Qed.

(** A loop over distinct children of the root. *)
Lemma tableStep_fold g key q a (idx : list nat) :
  NoDup idx → ∀ cs base mx m,
  (∀ i, i ∈ idx → is_Some (cs !! i)) →
  ∃ cs' mx',
    foldl (tableStep g key) (Elem q a cs, base, mx, m) ((λ i, [i]) <$> idx)
    = (Elem q a cs',
       appendChildren ((λ nx, g nx.1 nx.2) <$> assign mx (omap (cs !!.) idx)) base,
       mx', assignedMap key m (assign mx (omap (cs !!.) idx)))
    ∧ ∀ j, j ∉ idx → cs' !! j = cs !! j.
Proof.
  induction 1 as [|i idx Hi Hnd IH]; intros cs base mx m Hcs.
  - exists cs, mx. done.
  - destruct (Hcs i) as [x Hx]; [left|].
    rewrite fmap_cons. cbn [foldl]. unfold tableStep at 2.
    cbn [get_at childNodes]. rewrite Hx. cbn [mbind option_bind get_at update_at].
    set (cs1 := alter (λ _, g (Js.incr mx) x) i cs).
    assert (omap (cs1 !!.) idx = omap (cs !!.) idx) as Homap.
    { apply list_omap_ext. apply Forall2_same_length_lookup_2; [done|].
      intros k j j' Hj Hj'. simplify_eq. subst cs1. rewrite list_lookup_alter_ne; [done|].
      intros ->. apply Hi. by apply list_elem_of_lookup_2 in Hj. }
    destruct (IH cs1 (appendChild (g (Js.incr mx) x) base) (Js.incr mx)
                (<[key x := Js.incr mx]> m)) as (cs' & mx' & Hfold & Hframe).
    { intros j Hj. subst cs1. rewrite list_lookup_alter_ne; [apply Hcs; by right|].
      intros ->. by apply Hi. }
    exists cs', mx'. split.
    + rewrite Hfold, Homap. cbn [omap list_omap]. rewrite Hx.
      cbn [assign fmap list_fmap assignedMap foldl fst snd]. done.
    + intros j Hj. rewrite Hframe by (intros ?; apply Hj; by right).
      subst cs1. apply list_lookup_alter_ne. intros ->. apply Hj. left.
Qed.

Lemma assign_snd mx xs : (assign mx xs).*2 = xs.
Proof. revert mx. induction xs as [|x xs IH]; intros mx; simpl; [done|]. by rewrite IH. Qed.

Lemma assignedMap_img key l m k v :
  assignedMap key m l !! k = Some v → m !! k = Some v ∨ v ∈ l.*1.
Proof.
  revert m. induction l as [|[new x] l IH]; intros m; simpl; [by left|].
  intros [H|H]%IH; [|right; by right].
  simpl in H. destruct (decide (key x = k)) as [<-|Hne].
  - rewrite lookup_insert_eq in H. simplify_eq. right. left.
  - rewrite lookup_insert_ne in H by done. by left.
Qed.

Lemma assignedMap_dom key l m k :
  k ∈ key <$> l.*2 ∨ is_Some (m !! k) → is_Some (assignedMap key m l !! k).
Proof.
  revert m. induction l as [|[new x] l IH]; intros m; simpl.
  - intros [H%elem_of_nil|H]; done.
  - intros H. apply IH. destruct (decide (key x = k)) as [<-|Hne].
    + right. rewrite lookup_insert_eq. eauto.
    + rewrite lookup_insert_ne by done.
      destruct H as [[H|H]%elem_of_cons|H]; [done|by left|by right].
Qed.

(** Every entry is mapped to one of the numbers drawn, and nothing else
    is. *)
Lemma assignedMap_spec key mx xs x :
  x ∈ xs → ∃ new, assignedMap key ∅ (assign mx xs) !! key x = Some new
                  ∧ new ∈ (assign mx xs).*1.
Proof.
  intros Hx. destruct (assignedMap_dom key (assign mx xs) ∅ (key x)) as [new Hnew].
  { left. rewrite assign_snd. by apply list_elem_of_fmap_2. }
  exists new. split; [done|].
  apply assignedMap_img in Hnew as [Hnew|Hnew]; [by rewrite lookup_empty in Hnew | done].
Qed.

(** ** Flat tables *)

Lemma flat_paths (ps : list path) :
  Forall (λ p, length p = 1%nat) ps → ∃ idx, ps = (λ i, [i]) <$> idx.
Proof.
  induction 1 as [|p ps Hp _ [idx ->]]; [by exists []|].
  destruct p as [|i [|]]; simplify_eq/=. by exists (i :: idx).
Qed.

Lemma flatTable_spec table :
  flatTable table = true →
  Forall (λ p, length p = 1%nat) (pathsBelow (hasTagNS NS_w "abstractNum") table)
  ∧ Forall (λ p, length p = 1%nat) (pathsBelow (hasTagNS NS_w "num") table).
Proof.
  unfold flatTable. rewrite forallb_forall. intros H.
  split; apply Forall_forall; intros p Hp; apply Nat.eqb_eq, H, in_app_iff;
    [left | right]; by apply list_elem_of_In.
Qed.

Lemma childrenWhere_elem test k cs i c r :
  cs !! i = Some c → r ∈ pathsWhere test c → ((k + i)%nat :: r) ∈ childrenWhere test k cs.
Proof.
  revert k i. induction cs as [|c0 cs IH]; intros k i Hc Hr; [done|].
  simpl. apply elem_of_app. destruct i as [|i]; simplify_eq/=.
  - left. rewrite Nat.add_0_r. by apply list_elem_of_fmap_2.
  - right. replace (k + S i)%nat with (S k + i)%nat by lia. by apply IH.
Qed.

(** Below a child of a flat table only the child itself can carry the
    tag. *)
Lemma flat_child test q a cs i c r :
  Forall (λ p, length p = 1%nat) (pathsBelow test (Elem q a cs)) →
  cs !! i = Some c → r ∈ pathsWhere test c → r = [].
Proof.
  rewrite pathsBelow_Elem, Forall_forall. intros Hflat Hc Hr.
  specialize (Hflat _ (childrenWhere_elem test O cs i c r Hc Hr)).
  by destruct r.
Qed.

Lemma docElements_of_path ns loc c e :
  e ∈ docElementsByTagNameNS ns loc c →
  ∃ r, r ∈ pathsWhere (hasTagNS ns loc) c ∧ get_at r c = Some e.
Proof.
  intros He. apply (list_elem_of_fmap_2 Some) in He.
  unfold docElementsByTagNameNS in He. rewrite <- filter_paths in He.
  apply list_elem_of_fmap in He as (r & Hr & Hin). eauto.
Qed.

(** ** Elements and their paths *)

Lemma getElementsByTagNameNS_paths ns loc t :
  isElement t = true →
  (λ p, get_at p t) <$> pathsBelow (hasTagNS ns loc) t
  = Some <$> getElementsByTagNameNS ns loc t.
Proof.
  destruct t as [q a cs|]; [intros _|done].
  pose proof (filter_paths (hasTagNS ns loc) (Elem q a cs)) as H.
  rewrite pathsWhere_Elem in H. cbn [elements] in H. rewrite filter_cons in H.
  rewrite pathsBelow_Elem. unfold getElementsByTagNameNS. rewrite descendants_Elem.
  destruct (hasTagNS ns loc (Elem q a cs)) eqn:E.
  - rewrite decide_True in H by done. simpl in H. by injection H.
  - rewrite decide_False in H by congruence. done.
Qed.

Lemma omap_of_fmap {A B} (f : A → option B) (l : list A) (l' : list B) :
  f <$> l = Some <$> l' → omap f l = l'.
Proof.
  revert l'. induction l as [|x l IH]; intros [|y l'] H; [done | discriminate H..|].
  rewrite !fmap_cons in H. injection H as Hx Hl. simpl. rewrite Hx. simpl.
  f_equal. by apply IH.
Qed.

Lemma flat_elements ns loc q a cs idx :
  pathsBelow (hasTagNS ns loc) (Elem q a cs) = (λ i, [i]) <$> idx →
  omap (cs !!.) idx = getElementsByTagNameNS ns loc (Elem q a cs).
Proof.
  intros Hidx. apply omap_of_fmap.
  rewrite <- getElementsByTagNameNS_paths by done. rewrite Hidx, <- list_fmap_compose.
  apply list_fmap_ext. intros _ i _. simpl. by destruct (cs !! i).
Qed.

(** ** References depend on the shape only *)

Lemma get_at_shape_None p t t' : shape t = shape t' → get_at p t = None → get_at p t' = None.
Proof.
  intros H Hn. pose proof (get_at_shape_eq p t t' H) as E. rewrite Hn in E.
  by destruct (get_at p t').
Qed.

Lemma numIdRef_shape p p' : shape p = shape p' → numIdRef p = numIdRef p'.
Proof.
  intros H. unfold numIdRef.
  rewrite (pathsBelow_shape_eq NS_w "numPr" p p' H).
  destruct (head _) as [q|]; [|done]. cbn [mbind option_bind].
  destruct (get_at q p) as [e|] eqn:E.
  - destruct (get_at_shape_eq_Some q p p' e H E) as (e' & -> & He). cbn [mbind option_bind].
    by rewrite (pathsBelow_shape_eq NS_w "numId" e e' He).
  - by rewrite (get_at_shape_None q p p' H E).
Qed.

Lemma abstractNumIdRef_shape n n' : shape n = shape n' → abstractNumIdRef n = abstractNumIdRef n'.
Proof. intros H. unfold abstractNumIdRef. by rewrite (pathsBelow_shape_eq _ _ n n' H). Qed.

Lemma numIdRef_elem p r e : numIdRef p = Some r → get_at r p = Some e → isElement e = true.
Proof.
  unfold numIdRef. intros H He.
  destruct (head _) as [q|]; [|done]. cbn [mbind option_bind] in H.
  destruct (get_at q p) as [numPr|] eqn:E; [|done]. cbn [mbind option_bind] in H.
  destruct (head _) as [r'|] eqn:Hr'; [|done]. simplify_eq/=.
  rewrite get_at_app, E in He. simpl in He.
  apply head_Some_elem_of, elem_of_pathsBelow in Hr' as (_ & e' & He' & Ht).
  simplify_eq. apply hasTagNS_isElement in Ht as (? & ? & ? & ->). done.
Qed.

Lemma abstractNumIdRef_elem n q e :
  abstractNumIdRef n = Some q → get_at q n = Some e → q ≠ [] ∧ isElement e = true.
Proof.
  unfold abstractNumIdRef. intros H He.
  apply head_Some_elem_of, elem_of_pathsBelow in H as (Hne & e' & He' & Ht).
  simplify_eq. apply hasTagNS_isElement in Ht as (? & ? & ? & ->). done.
Qed.

Lemma update_at_None p f n : get_at p n = None → update_at p f n = n.
Proof.
  revert n. induction p as [|i p IH]; intros n; simpl; [done|].
  destruct n as [q a cs|s]; simpl; [|done]. intros H. f_equal.
  destruct (cs !! i) as [c|] eqn:Hc; simpl in H.
  - apply list_eq. intros j. destruct (decide (i = j)) as [<-|Hne].
    + rewrite list_lookup_alter_eq, Hc. simpl. by rewrite IH.
    + by rewrite list_lookup_alter_ne.
  - apply list_eq. intros j. destruct (decide (i = j)) as [<-|Hne].
    + by rewrite list_lookup_alter_eq, Hc.
    + by rewrite list_lookup_alter_ne.
Qed.

Lemma update_at_id p f n e : get_at p n = Some e → f e = e → update_at p f n = n.
Proof.
  intros He Hf. rewrite (update_at_ext p f (λ x, x) n e He Hf).
  by apply update_at_id_all.
Qed.

(** ** Numbering references of the body *)

Section remap.
Variable M : idmap.
Variable body0 : node.

Lemma remapParagraph_spec p :
  (remapParagraph M p = p
   ∧ ∀ r e, numIdRef p = Some r → get_at r p = Some e →
            M !! valOr "NaN" e = None ∨ Js.isFinite (valOr "NaN" e) = false)
  ∨ (∃ r e new, numIdRef p = Some r ∧ get_at r p = Some e
       ∧ M !! valOr "NaN" e = Some new
       ∧ remapParagraph M p
         = update_at r (setAttributeNS NS_w "w" "val" (Js.ofNumber new)) p).
Proof.
  unfold remapParagraph. destruct (numIdRef p) as [r|]; [|left; by split].
  destruct (get_at r p) as [e|] eqn:He; [|left; split; [done | intros ?? [= <-]; congruence]].
  destruct (M !! valOr "NaN" e) as [new|] eqn:Hm.
  - destruct (Js.isFinite (valOr "NaN" e)) eqn:Hf.
    + right. by exists r, e, new.
    + left. split; [done|]. intros ?? [= <-] ?. simplify_eq. by right.
  - left. split; [done|]. intros ?? [= <-] ?. simplify_eq. by left.
Qed.

Local Abbreviation mapped := (remapMapped M).
Local Abbreviation Inv := (remapInv M body0).
Local Abbreviation Done := (remapDone M body0).
Local Abbreviation step := (remapStep M).

Lemma remap_step b pp :
  Inv b →
  Inv (step b pp) ∧ Done pp (step b pp) ∧ ∀ pp', Done pp' b → Done pp' (step b pp).
Proof.
  intros [Hshape Hval]. unfold remapStep.
  destruct (get_at pp b) as [p'|] eqn:Hp'.
  2:{ rewrite update_at_None by done. split_and!; [by split| |done].
      intros p r Hp. by rewrite (get_at_shape_None pp b body0 Hshape Hp') in Hp. }
  destruct (remapParagraph_spec p') as [[Hid Hno]|(r & e & new & Hr & He & Hm & Hupd)].
  - rewrite (update_at_id pp _ b p' Hp' Hid). split_and!; [by split| |done].
    intros p r Hp Hr.
    destruct (get_at_shape_eq_Some pp b body0 p' Hshape Hp') as (p0 & Hp0 & Hsh).
    simplify_eq. rewrite <- (numIdRef_shape p' p Hsh) in Hr.
    destruct (Hval (pp ++ r)) as [Heq|Hmapped]; [|by left]. right. split; [done|].
    intros v Hv. rewrite <- Heq in Hv. unfold valAt in Hv.
    rewrite get_at_app, Hp' in Hv. simpl in Hv.
    destruct (get_at r p') as [e|] eqn:He; simplify_eq/=. by apply (Hno r e).
  - rewrite (update_at_ext pp _ _ b p' Hp' Hupd), <- update_at_app.
    assert (get_at (pp ++ r) b = Some e) as Hget by (by rewrite get_at_app, Hp').
    assert (valAt (pp ++ r)
              (update_at (pp ++ r) (setAttributeNS NS_w "w" "val" (Js.ofNumber new)) b)
            = Some new) as Hnew.
    { unfold valAt. rewrite (get_update_eq _ _ _ _ Hget). simpl. f_equal.
      apply readW_setAttributeNS. by apply (numIdRef_elem p' r e). }
    assert (∀ e', e' ≠ pp ++ r →
              valAt e' (update_at (pp ++ r) (setAttributeNS NS_w "w" "val" (Js.ofNumber new)) b)
              = valAt e' b) as Hframe.
    { intros e' Hne. unfold valAt, valOr. apply readW_update_ne; [|done].
      apply rootAttrOnly_setAttributeNS. }
    assert (mapped (Some new)) as Hmapped by (by exists new, (valOr "NaN" e)).
    split_and!.
    + split.
      * rewrite <- Hshape. apply shape_update_at. intros x.
        apply shape_rootAttrOnly, rootAttrOnly_setAttributeNS.
      * intros e'. destruct (decide (e' = pp ++ r)) as [->|Hne].
        -- right. by rewrite Hnew.
        -- rewrite (Hframe e' Hne). apply Hval.
    + intros p r0 Hp Hr0.
      destruct (get_at_shape_eq_Some pp b body0 p' Hshape Hp') as (p0 & Hp0 & Hsh).
      simplify_eq. rewrite <- (numIdRef_shape p' p Hsh) in Hr0. simplify_eq.
      left. by rewrite Hnew.
    + intros pp' Hdone p r0 Hp Hr0.
      destruct (decide (pp' ++ r0 = pp ++ r)) as [->|Hne].
      * left. by rewrite Hnew.
      * rewrite (Hframe _ Hne). exact (Hdone p r0 Hp Hr0).
Qed.

Lemma remap_fold_inv pps b : Inv b → Inv (foldl step b pps).
Proof.
  revert b. induction pps as [|pp pps IH]; intros b Hb; [done|].
  simpl. apply IH. by apply remap_step.
Qed.

Lemma remap_fold_keeps pps b pp : Inv b → Done pp b → Done pp (foldl step b pps).
Proof.
  revert b. induction pps as [|pp1 pps IH]; intros b Hb Hd; [done|].
  simpl. destruct (remap_step b pp1 Hb) as (Hb' & _ & Hkeep). apply IH; auto.
Qed.

Lemma remap_fold_done pps b pp : pp ∈ pps → Inv b → Done pp (foldl step b pps).
Proof.
  revert b. induction pps as [|pp1 pps IH]; intros b Hin Hb; [by apply elem_of_nil in Hin|].
  simpl. destruct (remap_step b pp1 Hb) as (Hb' & Hd & _).
  destruct (decide (pp = pp1)) as [->|Hne].
  - by apply remap_fold_keeps.
  - apply elem_of_cons in Hin as [?|Hin]; [done|]. by apply IH.
Qed.

(** If every paragraph of the body refers to a number that the map binds,
    and the map binds to numbers of [ids'] only, then every paragraph of the
    rewritten body refers to a number of [ids']. *)
Lemma remapNumberingInBody_resolves ids ids' :
  (∀ k v, M !! k = Some v → v ∈ ids') →
  (∀ v, v ∈ ids → is_Some (M !! v)) →
  resolvesIn ids body0 → resolvesIn ids' (remapNumberingInBody M body0).
Proof.
  intros Himg Hdom Hres pp p' v' Hpp Hp' Hv' Hfin.
  unfold remapNumberingInBody in *.
  change (λ body pp, update_at pp (remapParagraph M) body) with (remapStep M) in *.
  assert (Inv body0) as Hinv0 by (split; [done | by left]).
  pose proof (remap_fold_inv (pathsBelow (hasTagNS NS_w "p") body0) body0 Hinv0) as [Hsh _].
  rewrite (pathsBelow_shape_eq NS_w "p" _ _ Hsh) in Hpp.
  pose proof (remap_fold_done _ body0 pp Hpp Hinv0) as Hdone.
  destruct (get_at_shape_eq_Some pp _ body0 p' Hsh Hp') as (p0 & Hp0 & Hshp).
  unfold paragraphNumRef in Hv'.
  destruct (numIdRef p') as [r|] eqn:Hr; [|done]. cbn [mbind option_bind] in Hv'.
  destruct (get_at r p') as [e'|] eqn:He'; [|done]. simplify_eq/=.
  rewrite (numIdRef_shape p' p0 Hshp) in Hr.
  assert (valAt (pp ++ r) (foldl step body0 (pathsBelow (hasTagNS NS_w "p") body0))
          = Some (valOr "NaN" e')) as Hcur.
  { unfold valAt. by rewrite get_at_app, Hp'; simpl; rewrite He'. }
  destruct (Hdone p0 r Hp0 Hr) as [(x & k & Hx & Hk)|[Heq Hno]].
  - rewrite Hcur in Hx. simplify_eq. by apply (Himg k).
  - rewrite Hcur in Heq. symmetry in Heq.
    destruct (Hno _ Heq) as [Hnone|Hnf]; [|congruence].
    destruct (Hdom (valOr "NaN" e')) as [? ?]; [|congruence].
    apply (Hres pp p0); [done..| |done].
    unfold valAt in Heq. rewrite get_at_app, Hp0 in Heq. simpl in Heq.
    unfold paragraphNumRef. rewrite Hr. cbn [mbind option_bind].
    destruct (get_at r p0) as [e0|]; simplify_eq/=. by rewrite Heq.
Qed.

End remap.

(** ** The copies of the entries *)

Lemma get_at_rootAttrOnly f q x : rootAttrOnly f → q ≠ [] → get_at q (f x) = get_at q x.
Proof.
  intros [He Ht] Hq. destruct q as [|i q]; [done|].
  destruct x as [qn a cs|s]; [|by rewrite Ht]. by destruct (He qn a cs) as [a' ->].
Qed.

Lemma attributes_update_at q f n : q ≠ [] → attributes (update_at q f n) = attributes n.
Proof. intros Hq. destruct q as [|i q]; [done|]. by destruct n. Qed.

Lemma renumberAbstractNum_id new x :
  isElement x = true → srcAbstractNumId (renumberAbstractNum new x) = new.
Proof. apply readW_setAttributeNS. Qed.

Lemma renumberNum_shape m new x : shape (renumberNum m new x) = shape x.
Proof.
  unfold renumberNum.
  assert (shape (setAttributeNS NS_w "w" "numId" (Js.ofNumber new) x) = shape x) as Hs
    by apply shape_rootAttrOnly, rootAttrOnly_setAttributeNS.
  destruct (abstractNumIdRef _) as [q|]; [|done].
  destruct (get_at q _) as [a|]; [|done].
  rewrite shape_update_at; [done|]. intros y.
  apply shape_rootAttrOnly, rootAttrOnly_setAttributeNS.
Qed.

Lemma renumberNum_id m new x : isElement x = true → srcNumId (renumberNum m new x) = new.
Proof.
  intros Hx. unfold renumberNum.
  pose proof (readW_setAttributeNS "numId" "w:numId" "numId" "0" "w" new x Hx) as Hid.
  destruct (abstractNumIdRef _) as [q|] eqn:Hq; [|done].
  destruct (get_at q _) as [a|] eqn:Ha; [|done].
  destruct (abstractNumIdRef_elem _ _ _ Hq Ha) as [Hne _].
  unfold srcNumId in *. rewrite <- Hid at 2. apply readW_attributes.
  by apply attributes_update_at.
Qed.

Lemma renumberNum_abstractRef m new x :
  abstractRef (renumberNum m new x) = (λ old, default old (m !! old)) <$> abstractRef x.
Proof.
  unfold abstractRef. rewrite (abstractNumIdRef_shape _ x (renumberNum_shape m new x)).
  unfold renumberNum.
  rewrite (abstractNumIdRef_shape (setAttributeNS NS_w "w" "numId" (Js.ofNumber new) x) x)
    by apply shape_rootAttrOnly, rootAttrOnly_setAttributeNS.
  destruct (abstractNumIdRef x) as [q|] eqn:Hq; [|done]. cbn [mbind option_bind].
  assert (q ≠ []) as Hne.
  { unfold abstractNumIdRef in Hq. by apply head_Some_elem_of, elem_of_pathsBelow in Hq as [? _]. }
  rewrite (get_at_rootAttrOnly _ q x (rootAttrOnly_setAttributeNS _ _ _ _) Hne).
  destruct (get_at q x) as [a|] eqn:Ha; cbn [mbind option_bind fmap option_fmap option_map].
  - destruct (abstractNumIdRef_elem x q a Hq Ha) as [_ Hel].
    erewrite get_update_eq
      by (by rewrite (get_at_rootAttrOnly _ q x (rootAttrOnly_setAttributeNS _ _ _ _) Hne)).
    cbn [mbind option_bind]. f_equal. by apply readW_setAttributeNS.
  - by rewrite (get_at_rootAttrOnly _ q x (rootAttrOnly_setAttributeNS _ _ _ _) Hne), Ha.
Qed.

Lemma foldl_ext_all {A B} (f g : A → B → A) l a :
  (∀ a b, f a b = g a b) → foldl f a l = foldl g a l.
Proof. intros H. revert a. induction l as [|b l IH]; intros a; simpl; [done|]. by rewrite H, IH. Qed.

Lemma docElements_self ns loc c :
  hasTagNS ns loc c = true → c ∈ docElementsByTagNameNS ns loc c.
Proof.
  intros H. apply list_elem_of_filter. split; [done|].
  apply hasTagNS_isElement in H as (q & a & cs & ->). left.
Qed.

(** Appending entries keeps the entries of the table. *)
Lemma getElementsByTagNameNS_append2 ns loc l1 l2 root :
  isElement root = true →
  getElementsByTagNameNS ns loc (appendChildren l2 (appendChildren l1 root))
  = getElementsByTagNameNS ns loc root
    ++ flat_map (docElementsByTagNameNS ns loc) (l1 ++ l2).
Proof.
  intros H. rewrite getElementsByTagNameNS_appendChildren
    by (by rewrite appendChildren_isElement).
  rewrite getElementsByTagNameNS_appendChildren by done.
  by rewrite flat_map_app, app_assoc.
Qed.

(** ** The merge of a flat table *)

Lemma flat_indices ns loc q a cs :
  Forall (λ p, length p = 1%nat) (pathsBelow (hasTagNS ns loc) (Elem q a cs)) →
  ∃ idx, pathsBelow (hasTagNS ns loc) (Elem q a cs) = (λ i, [i]) <$> idx
         ∧ NoDup idx
         ∧ (∀ i, i ∈ idx → ∃ x, cs !! i = Some x ∧ hasTagNS ns loc x = true)
         ∧ omap (cs !!.) idx = getElementsByTagNameNS ns loc (Elem q a cs).
Proof.
  intros Hflat. destruct (flat_paths _ Hflat) as [idx Hidx]. exists idx. split_and!.
  - done.
  - pose proof (pathsBelow_NoDup (hasTagNS ns loc) (Elem q a cs)) as Hnd.
    rewrite Hidx in Hnd. by apply NoDup_fmap_1 in Hnd.
  - intros i Hi. apply (list_elem_of_fmap_2 (λ i, [i])) in Hi. rewrite <- Hidx in Hi.
    apply elem_of_pathsBelow in Hi as (_ & e & He & Ht). exists e. split; [|done].
    simpl in He. by destruct (cs !! i).
  - by apply flat_elements.
Qed.

Lemma mergeNumberingParts_closed srcZip b baseNum srcNum :
  readXmlOrCreate (baseZip b) P_numbering numberingSkeleton = OK baseNum →
  readXmlOrCreate srcZip P_numbering numberingSkeleton = OK srcNum →
  flatTable srcNum = true →
  let mxA := Js.maxList (baseAbstractNumId <$> getElementsByTagNameNS NS_w "abstractNum" baseNum) in
  let mxN := Js.maxList (baseNumId <$> getElementsByTagNameNS NS_w "num" baseNum) in
  let absIdMap := assignedMap srcAbstractNumId ∅ (assign mxA (abstractDefinitions srcNum)) in
  mergeNumberingParts srcZip b
  = OK (assignedMap srcNumId ∅ (assign mxN (instances srcNum)), absIdMap,
        withZip (writeXml P_numbering
          (appendChildren
             ((λ nx, renumberNum absIdMap nx.1 nx.2) <$> assign mxN (instances srcNum))
             (appendChildren
                ((λ nx, renumberAbstractNum nx.1 nx.2)
                   <$> assign mxA (abstractDefinitions srcNum)) baseNum))
          (baseZip b)) b).
Proof.
  intros Hbase Hsrc Hflat mxA mxN absIdMap. unfold absIdMap, mxA, mxN.
  pose proof (readXmlOrCreate_isElement srcZip P_numbering numberingSkeleton srcNum eq_refl Hsrc)
    as Hel.
  destruct srcNum as [q a cs|]; [|done].
  apply flatTable_spec in Hflat as [HflatA HflatN].
  destruct (flat_indices _ _ _ _ _ HflatA) as (idxA & HpA & HndA & HinA & HxsA).
  destruct (flat_indices _ _ _ _ _ HflatN) as (idxN & HpN & HndN & HinN & HxsN).
  unfold mergeNumberingParts. rewrite Hbase, Hsrc. cbn [mbind result_bind].
  rewrite HpA.
  rewrite (foldl_ext_all mergeAbstractNum _ _ _ mergeAbstractNum_tableStep).
  pose proof (tableStep_shape renumberAbstractNum srcAbstractNumId ((λ i, [i]) <$> idxA)
                (Elem q a cs, baseNum,
                 Js.maxList (baseAbstractNumId <$> getElementsByTagNameNS NS_w "abstractNum" baseNum),
                 ∅)) as Hshape.
  destruct (tableStep_fold renumberAbstractNum srcAbstractNumId q a idxA HndA cs baseNum
              (Js.maxList (baseAbstractNumId <$> getElementsByTagNameNS NS_w "abstractNum" baseNum))
              ∅) as (cs1 & mx1 & Hfold1 & Hframe1).
  { intros i Hi. destruct (HinA i Hi) as (x & -> & _). eauto. }
  rewrite Hfold1 in Hshape |- *. cbn [fst] in Hshape.
  specialize (Hshape ltac:(intros; apply shape_rootAttrOnly, rootAttrOnly_setAttributeNS)).
  rewrite (pathsBelow_shape_eq NS_w "num" _ _ Hshape), HpN.
  rewrite (foldl_ext_all (mergeNum _) _ _ _ (mergeNum_tableStep _)).
  assert (∀ i, i ∈ idxN → cs1 !! i = cs !! i) as Hsame.
  { intros i Hi. apply Hframe1. intros HiA.
    destruct (HinA i HiA) as (x & Hx & HtA). destruct (HinN i Hi) as (x' & Hx' & HtN).
    simplify_eq. destruct x as [[ns pre loc] ? ?|]; [|done].
    unfold hasTagNS in *. simpl in *.
    apply andb_true_iff in HtA as [_ HtA]. apply andb_true_iff in HtN as [_ HtN].
    apply String.eqb_eq in HtA, HtN. congruence. }
  destruct (tableStep_fold (renumberNum
              (assignedMap srcAbstractNumId ∅
                 (assign (Js.maxList (baseAbstractNumId <$> getElementsByTagNameNS NS_w "abstractNum" baseNum))
                    (omap (cs !!.) idxA))))
              srcNumId q a idxN HndN cs1
              (appendChildren
                 ((λ nx, renumberAbstractNum nx.1 nx.2)
                    <$> assign (Js.maxList (baseAbstractNumId <$> getElementsByTagNameNS NS_w "abstractNum" baseNum))
                          (omap (cs !!.) idxA)) baseNum)
              (Js.maxList (baseNumId <$> getElementsByTagNameNS NS_w "num" baseNum))
              ∅) as (cs2 & mx2 & Hfold2 & _).
  { intros i Hi. rewrite (Hsame i Hi). destruct (HinN i Hi) as (x & -> & _). eauto. }
  rewrite Hfold2.
  assert (omap (cs1 !!.) idxN = omap (cs !!.) idxN) as ->.
  { apply list_omap_ext. apply Forall2_same_length_lookup_2; [done|].
    intros k j j' Hj Hj'. simplify_eq. apply Hsame. by apply list_elem_of_lookup_2 in Hj. }
  rewrite HxsA, HxsN. reflexivity.
Qed.

Lemma mergeNumberingParts_flat srcZip b baseNum srcNum :
  readXmlOrCreate (baseZip b) P_numbering numberingSkeleton = OK baseNum →
  readXmlOrCreate srcZip P_numbering numberingSkeleton = OK srcNum →
  flatTable srcNum = true →
  ∃ mxA mxN absIdMap numIdMap,
    absIdMap = assignedMap srcAbstractNumId ∅ (assign mxA (abstractDefinitions srcNum))
    ∧ numIdMap = assignedMap srcNumId ∅ (assign mxN (instances srcNum))
    ∧ mergeNumberingParts srcZip b
      = OK (numIdMap, absIdMap,
            withZip (writeXml P_numbering
              (appendChildren
                 ((λ nx, renumberNum absIdMap nx.1 nx.2) <$> assign mxN (instances srcNum))
                 (appendChildren
                    ((λ nx, renumberAbstractNum nx.1 nx.2)
                       <$> assign mxA (abstractDefinitions srcNum)) baseNum))
              (baseZip b)) b).
Proof.
  intros Hbase Hsrc Hflat. eexists _, _, _, _. split_and!; [reflexivity|reflexivity|].
  by apply mergeNumberingParts_closed.
Qed.

Lemma flat_docElements ns loc y :
  (∀ r, r ∈ pathsWhere (hasTagNS ns loc) y → r = []) →
  docElementsByTagNameNS ns loc y = if hasTagNS ns loc y then [y] else [].
Proof.
  intros Hflat. destruct y as [q a cs|s]; [|done].
  pose proof (filter_paths (hasTagNS ns loc) (Elem q a cs)) as H.
  rewrite pathsWhere_Elem in Hflat, H.
  assert (childrenWhere (hasTagNS ns loc) O cs = []) as Hnil.
  { destruct (childrenWhere (hasTagNS ns loc) O cs) as [|r l] eqn:E; [done|].
    assert (r ∈ r :: l) as Hr by left. rewrite <- E in Hr.
    pose proof (childrenWhere_nonempty _ _ _ _ Hr) as Hne.
    destruct Hne. apply Hflat, elem_of_app. right. left. }
  rewrite Hnil, app_nil_r in H. unfold docElementsByTagNameNS.
  destruct (hasTagNS ns loc (Elem q a cs)); simpl in H.
  - destruct (filter _ _) as [|e [|]]; simplify_eq/=. done.
  - by destruct (filter _ _).
Qed.

Lemma getElements_child ns loc q a cs x :
  Forall (λ p, length p = 1%nat) (pathsBelow (hasTagNS ns loc) (Elem q a cs)) →
  x ∈ getElementsByTagNameNS ns loc (Elem q a cs) → ∃ i, cs !! i = Some x.
Proof.
  intros Hflat Hx. apply (list_elem_of_fmap_2 Some) in Hx.
  rewrite <- getElementsByTagNameNS_paths in Hx by done.
  apply list_elem_of_fmap in Hx as (p & Hp & Hin).
  rewrite Forall_forall in Hflat. specialize (Hflat p Hin).
  destruct p as [|i [|]]; simplify_eq/=. exists i. by destruct (cs !! i).
Qed.

(** An entry of a flat table has no instance below it. *)
Lemma flat_entry table x y :
  flatTable table = true →
  x ∈ abstractDefinitions table ∨ x ∈ instances table →
  shape y = shape x →
  docElementsByTagNameNS NS_w "num" y = if hasTagNS NS_w "num" y then [y] else [].
Proof.
  intros [HflatA HflatN]%flatTable_spec Hx Hsh. apply flat_docElements. intros r Hr.
  rewrite <- pathsWhere_shape, Hsh, pathsWhere_shape in Hr.
  destruct table as [q a cs|].
  2:{ unfold abstractDefinitions, instances, getElementsByTagNameNS in Hx. simpl in Hx.
      destruct Hx as [Hx|Hx]; by apply elem_of_nil in Hx. }
  assert (∃ i, cs !! i = Some x) as [i Hi].
  { destruct Hx as [Hx|Hx].
    - exact (getElements_child _ _ q a cs x HflatA Hx).
    - exact (getElements_child _ _ q a cs x HflatN Hx). }
  by apply (flat_child _ q a cs i x r HflatN).
Qed.

Lemma getElements_hasTag ns loc t x :
  x ∈ getElementsByTagNameNS ns loc t → hasTagNS ns loc x = true ∧ isElement x = true.
Proof.
  intros [H _]%list_elem_of_filter. split; [done|].
  by apply hasTagNS_isElement in H as (? & ? & ? & ->).
Qed.

Lemma flat_map_singletons {A} (f : A → list A) l : (∀ c, c ∈ l → f c = [c]) → flat_map f l = l.
Proof.
  induction l as [|c l IH]; intros H; [done|]. simpl.
  rewrite (H c) by left. simpl. f_equal. apply IH. intros; apply H; by right.
Qed.

Lemma flat_map_empty {A B} (f : A → list B) l : (∀ c, c ∈ l → f c = []) → flat_map f l = [].
Proof.
  induction l as [|c l IH]; intros H; [done|]. simpl.
  rewrite (H c) by left. simpl. apply IH. intros; apply H; by right.
Qed.

Lemma elem_of_flat_map_self {A} (f : A → list A) l c : c ∈ l → c ∈ f c → c ∈ flat_map f l.
Proof.
  intros Hc Hf. apply list_elem_of_In, in_flat_map. exists c.
  split; by apply list_elem_of_In.
Qed.

Lemma hasTagNS_abstractNum_num x :
  hasTagNS NS_w "abstractNum" x = true → hasTagNS NS_w "num" x = false.
Proof.
  destruct x as [[ns pre loc] ? ?|]; [|done]. unfold hasTagNS. simpl.
  intros [_ H%String.eqb_eq]%andb_true_iff. subst loc. by rewrite andb_false_r.
Qed.

(** The numbering merge on a flat, internally consistent source table and
    a body whose paragraphs refer to instances of that table: the merged
    table is the base table followed by the renumbered copies of the source
    entries, the paragraphs of the remapped body refer to instances of the
    merged table, and every copied instance refers to an abstract definition
    of the merged table. *)
Lemma numbering_merge_resolves srcZip b baseNum srcNum body :
  readXmlOrCreate (baseZip b) P_numbering numberingSkeleton = OK baseNum →
  readXmlOrCreate srcZip P_numbering numberingSkeleton = OK srcNum →
  flatTable srcNum = true →
  tableConsistent srcNum →
  resolvesIn (instanceIds srcNum) body →
  ∃ numIdMap absIdMap b' merged copies,
    mergeNumberingParts srcZip b = OK (numIdMap, absIdMap, b')
    ∧ baseZip b' !! P_numbering = Some (Xml merged)
    ∧ resolvesIn (instanceIds merged) (remapNumberingInBody numIdMap body)
    ∧ instances merged = instances baseNum ++ copies
    ∧ (∀ num v, num ∈ copies → abstractRef num = Some v → v ∈ abstractIds merged)
    ∧ (∀ v, v ∈ abstractIds baseNum → v ∈ abstractIds merged)
    ∧ (tableConsistent baseNum → tableConsistent merged).
Proof.
  intros Hbase Hsrc Hflat Hcons Hbody.
  destruct (mergeNumberingParts_flat srcZip b baseNum srcNum Hbase Hsrc Hflat)
    as (mxA & mxN & absIdMap & numIdMap & HabsMap & HnumMap & Hmerge).
  pose proof (readXmlOrCreate_isElement (baseZip b) P_numbering numberingSkeleton baseNum
                eq_refl Hbase) as Hel.
  set (A := assign mxA (abstractDefinitions srcNum)) in *.
  set (N := assign mxN (instances srcNum)) in *.
  set (copiesA := (λ nx, renumberAbstractNum nx.1 nx.2) <$> A) in *.
  set (copiesN := (λ nx, renumberNum absIdMap nx.1 nx.2) <$> N) in *.
  set (merged := appendChildren copiesN (appendChildren copiesA baseNum)) in *.
  assert (∀ new x, (new, x) ∈ A → hasTagNS NS_w "abstractNum" x = true ∧ isElement x = true
                                 ∧ x ∈ abstractDefinitions srcNum) as HA.
  { intros new x Hin. apply (list_elem_of_fmap_2 snd) in Hin. subst A.
    rewrite assign_snd in Hin. destruct (getElements_hasTag _ _ _ _ Hin). done. }
  assert (∀ new x, (new, x) ∈ N → hasTagNS NS_w "num" x = true ∧ isElement x = true
                                 ∧ x ∈ instances srcNum) as HN.
  { intros new x Hin. apply (list_elem_of_fmap_2 snd) in Hin. subst N.
    rewrite assign_snd in Hin. destruct (getElements_hasTag _ _ _ _ Hin). done. }
  assert (∀ c, c ∈ copiesN → hasTagNS NS_w "num" c = true) as HtagN.
  { intros c ([new x] & -> & Hin)%list_elem_of_fmap. simpl.
    rewrite <- hasTagNS_shape, renumberNum_shape, hasTagNS_shape. by apply (HN new x). }
  assert (instances merged = instances baseNum ++ copiesN) as Hinst.
  { unfold instances, merged. rewrite getElementsByTagNameNS_append2 by done.
    rewrite flat_map_app. f_equal.
    rewrite (flat_map_empty _ copiesA), (flat_map_singletons _ copiesN); [done| |].
    - intros c ([new x] & -> & Hin)%list_elem_of_fmap.
      simpl. rewrite (flat_entry srcNum x); [|done| |apply renumberNum_shape].
      + assert (hasTagNS NS_w "num" (renumberNum absIdMap new x) = true) as ->; [|done].
        rewrite <- hasTagNS_shape, renumberNum_shape, hasTagNS_shape. by apply (HN new x).
      + right. by apply (HN new x).
    - intros c ([new x] & -> & Hin)%list_elem_of_fmap. simpl.
      destruct (HA new x Hin) as (Htag & _ & Hx).
      rewrite (flat_entry srcNum x); [|done|by left|].
      + rewrite hasTagNS_abstractNum_num; [done|].
        unfold renumberAbstractNum. by rewrite setAttributeNS_hasTagNS.
      + apply shape_rootAttrOnly, rootAttrOnly_setAttributeNS. }
  assert (∀ v, v ∈ A.*1 → v ∈ abstractIds merged) as HidsA.
  { intros v ([new x] & -> & Hin)%list_elem_of_fmap. simpl.
    destruct (HA new x Hin) as (Htag & Hx & _).
    unfold abstractIds. apply list_elem_of_fmap.
    exists (renumberAbstractNum new x). split; [by rewrite renumberAbstractNum_id|].
    unfold abstractDefinitions, merged. rewrite getElementsByTagNameNS_append2 by done.
    apply elem_of_app. right. apply elem_of_flat_map_self.
    - apply elem_of_app. left.
      by apply (list_elem_of_fmap_2 (λ nx, renumberAbstractNum nx.1 nx.2) A (new, x)).
    - apply docElements_self. unfold renumberAbstractNum. by rewrite setAttributeNS_hasTagNS. }
  assert (∀ v, v ∈ N.*1 → v ∈ instanceIds merged) as HidsN.
  { intros v ([new x] & -> & Hin)%list_elem_of_fmap. simpl.
    destruct (HN new x Hin) as (Htag & Hx & _).
    unfold instanceIds. rewrite Hinst. apply list_elem_of_fmap.
    exists (renumberNum absIdMap new x). split; [by rewrite renumberNum_id|].
    apply elem_of_app. right.
    by apply (list_elem_of_fmap_2 (λ nx, renumberNum absIdMap nx.1 nx.2) N (new, x)). }
  assert (∀ v, v ∈ abstractIds baseNum → v ∈ abstractIds merged) as Hmono.
  { intros v (x & -> & Hx)%list_elem_of_fmap. apply list_elem_of_fmap. exists x.
    split; [done|]. unfold abstractDefinitions, merged.
    rewrite getElementsByTagNameNS_append2 by done. apply elem_of_app. by left. }
  assert (∀ num v, num ∈ copiesN → abstractRef num = Some v → v ∈ abstractIds merged)
    as Hcopies.
  { intros num v ([new x] & -> & Hin)%list_elem_of_fmap Href. simpl in Href.
    rewrite renumberNum_abstractRef in Href.
    destruct (abstractRef x) as [old|] eqn:Hold; [|done]. simpl in Href.
    injection Href as <-.
    destruct (HN new x Hin) as (_ & _ & Hx).
    specialize (Hcons x old Hx Hold). apply list_elem_of_fmap in Hcons as (xa & -> & Hxa).
    destruct (assignedMap_spec srcAbstractNumId mxA _ xa Hxa) as (newA & Hmap & HnewA).
    rewrite HabsMap. fold A in Hmap, HnewA. rewrite Hmap. simpl. by apply HidsA. }
  exists numIdMap, absIdMap, (withZip (writeXml P_numbering merged (baseZip b)) b), merged,
    copiesN.
  split_and!.
  - exact Hmerge.
  - cbn [baseZip withZip]. unfold writeXml. by rewrite lookup_insert_eq.
  - apply (remapNumberingInBody_resolves numIdMap body (instanceIds srcNum)); [| |done].
    + intros k v Hk. rewrite HnumMap in Hk.
      apply assignedMap_img in Hk as [Hk|Hk]; [by rewrite lookup_empty in Hk|].
      by apply HidsN.
    + intros v (x & -> & Hx)%list_elem_of_fmap. rewrite HnumMap.
      apply assignedMap_dom. left. unfold N. rewrite assign_snd.
      by apply list_elem_of_fmap_2.
  - exact Hinst.
  - exact Hcopies.
  - exact Hmono.
  - intros Hbasecons num v Hnum Href. rewrite Hinst in Hnum.
    apply elem_of_app in Hnum as [Hnum|Hnum].
    + apply Hmono. by apply (Hbasecons num).
    + by apply (Hcopies num).
Qed.

(** ** The view of the numbering code *)

Lemma find_filter_implied {A} (test rel : A → bool) (l : list A) :
  (∀ a, test a = true → rel a = true) →
  find test (filter (λ x, rel x = true) l) = find test l.
Proof.
  intros H. induction l as [|a l IH]; [done|]. rewrite filter_cons. simpl.
  destruct (test a) eqn:Ht.
  - rewrite decide_True by auto. simpl. by rewrite Ht.
  - destruct (decide (rel a = true)); simpl; [by rewrite Ht|done].
Qed.

Lemma shape_numberingView n : shape (numberingView n) = shape n.
Proof.
  induction n as [s|q a cs IH] using node_ind; [done|]. simpl. f_equal.
  rewrite map_map. apply map_ext_in. intros c Hc.
  rewrite List.Forall_forall in IH. by apply IH.
Qed.

Lemma hasTagNS_numberingView ns loc n : hasTagNS ns loc (numberingView n) = hasTagNS ns loc n.
Proof. by destruct n. Qed.

Lemma get_at_numberingView p n : get_at p (numberingView n) = numberingView <$> get_at p n.
Proof.
  revert n. induction p as [|i p IH]; intros n; simpl; [done|].
  destruct n as [q a cs|s]; simpl; [|done].
  change (map numberingView cs) with (numberingView <$> cs). rewrite list_lookup_fmap.
  destruct (cs !! i) as [c|]; simpl; [apply IH | done].
Qed.

Lemma readW_val_numberingView lit e : valOr lit (numberingView e) = valOr lit e.
Proof.
  destruct e as [q a cs|s]; [|done].
  unfold valOr, readW, getAttributeNS, getAttribute. cbn [numberingView attributes].
  rewrite !find_filter_implied; [done|..]; intros x Hx; unfold numberingAttr; rewrite Hx;
    by rewrite ?orb_true_r.
Qed.

Lemma paragraphNumRef_numberingView p : paragraphNumRef (numberingView p) = paragraphNumRef p.
Proof.
  unfold paragraphNumRef.
  rewrite (numIdRef_shape (numberingView p) p (shape_numberingView p)).
  destruct (numIdRef p) as [r|]; [|done]. cbn [mbind option_bind].
  rewrite get_at_numberingView. destruct (get_at r p) as [e|]; [|done]. simpl.
  by rewrite readW_val_numberingView.
Qed.

Lemma elements_numberingView n : elements (numberingView n) = numberingView <$> elements n.
Proof.
  induction n as [s|q a cs IH] using node_ind; [done|].
  cbn [numberingView elements]. rewrite fmap_cons. f_equal.
  induction cs as [|c cs IHcs]; [done|]. apply Forall_cons in IH as [Hc Hcs].
  simpl. rewrite fmap_app, Hc. f_equal. by apply IHcs.
Qed.

Lemma docElements_numberingView ns loc n :
  docElementsByTagNameNS ns loc (numberingView n)
  = numberingView <$> docElementsByTagNameNS ns loc n.
Proof.
  unfold docElementsByTagNameNS. rewrite elements_numberingView, filter_fmap.
  f_equal. apply list_filter_iff. intros x. simpl. by rewrite hasTagNS_numberingView.
Qed.

(** Trees with the same view have paragraphs with the same numbering
    references. *)
Lemma paragraphsResolve_view ids n n' :
  numberingView n = numberingView n' →
  paragraphsResolve ids (docElementsByTagNameNS NS_w "p" n) →
  paragraphsResolve ids (docElementsByTagNameNS NS_w "p" n').
Proof.
  intros Hv Hres p' v Hp' Href Hfin.
  apply (list_elem_of_fmap_2 numberingView) in Hp'.
  rewrite <- docElements_numberingView, <- Hv, docElements_numberingView in Hp'.
  apply list_elem_of_fmap in Hp' as (p & Hpv & Hp).
  apply (Hres p v Hp); [|done].
  by rewrite <- paragraphNumRef_numberingView, <- Hpv, paragraphNumRef_numberingView.
Qed.

(** ** Writes that the view does not show *)

Lemma q_name_id q : q_local q = "id" → q_name q ≠ "w:val" ∧ q_name q ≠ "val".
Proof.
  destruct q as [ns pre loc]. simpl. intros ->. unfold q_name. simpl.
  destruct pre as [|a [|b [|c [|d [|e [|f pre]]]]]]; simpl; split; try congruence;
    cbv [String.append]; congruence.
Qed.

Lemma numberingAttr_id a : q_local (a_qname a) = "id" → numberingAttr a = false.
Proof.
  intros H. destruct (q_name_id _ H) as [H1 H2]. unfold numberingAttr, attrIsNS, attrIsNamed.
  rewrite H. simpl. rewrite andb_false_r. simpl.
  apply String.eqb_neq in H1, H2. by rewrite H1, H2.
Qed.

Lemma attrIsNS_local ns loc a : attrIsNS ns loc a = true → q_local (a_qname a) = loc.
Proof. unfold attrIsNS. intros [_ H]%andb_true_iff. by apply String.eqb_eq. Qed.

Lemma filter_setAttr_hidden test new l :
  (∀ a, test a = true → q_local (a_qname a) = "id") →
  q_local (a_qname new) = "id" →
  filter (λ x, numberingAttr x = true) (setAttr test new l)
  = filter (λ x, numberingAttr x = true) l.
Proof.
  intros Ht Hnew. induction l as [|a l IH]; simpl.
  - rewrite filter_cons_False, filter_nil; [done|]. by rewrite numberingAttr_id.
  - destruct (test a) eqn:E.
    + rewrite !filter_cons_False; [done|by rewrite numberingAttr_id; auto|].
      rewrite numberingAttr_id; [done|]. simpl. auto.
    + rewrite !filter_cons, IH. done.
Qed.

Lemma filter_removeAttr_hidden test l :
  (∀ a, test a = true → q_local (a_qname a) = "id") →
  filter (λ x, numberingAttr x = true) (removeAttr test l)
  = filter (λ x, numberingAttr x = true) l.
Proof.
  intros Ht. induction l as [|a l IH]; simpl; [done|].
  destruct (test a) eqn:E.
  - rewrite filter_cons_False; [done|]. rewrite numberingAttr_id; [done|]. auto.
  - rewrite !filter_cons, IH. done.
Qed.

Lemma numberingView_setAttributeNS ns pre v el :
  numberingView (setAttributeNS ns pre "id" v el) = numberingView el.
Proof.
  destruct el as [q a cs|]; [|done]. simpl. f_equal.
  apply filter_setAttr_hidden; [|done]. intros x. apply attrIsNS_local.
Qed.

Lemma numberingView_removeAttributeNS ns el :
  numberingView (removeAttributeNS ns "id" el) = numberingView el.
Proof.
  destruct el as [q a cs|]; [|done]. simpl. f_equal.
  apply filter_removeAttr_hidden. intros x. apply attrIsNS_local.
Qed.

Lemma numberingView_update_at p f n :
  (∀ x, numberingView (f x) = numberingView x) →
  numberingView (update_at p f n) = numberingView n.
Proof.
  intros Hf. revert n. induction p as [|i p IH]; intros n; simpl; [done|].
  destruct n as [q a cs|s]; [|done]. simpl. f_equal.
  change (map numberingView ?l) with (numberingView <$> l). apply list_eq. intros j.
  rewrite !list_lookup_fmap. destruct (decide (i = j)) as [->|Hij].
  - rewrite list_lookup_alter_eq. destruct (cs !! j) as [c|]; simpl; [|done].
    by rewrite IH.
  - by rewrite list_lookup_alter_ne.
Qed.

Lemma numberingView_remapNoteRef m r : numberingView (remapNoteRef m r) = numberingView r.
Proof.
  unfold remapNoteRef. destruct (m !! _); [|done]. apply numberingView_setAttributeNS.
Qed.

Lemma numberingView_remapNoteRefsInBody m body :
  numberingView (remapNoteRefsInBody m body) = numberingView body.
Proof.
  unfold remapNoteRefsInBody. case_bool_decide; [done|].
  assert (∀ ps b, numberingView (foldl (λ b p, update_at p (remapNoteRef m) b) b ps)
                  = numberingView b) as Hfold.
  { induction ps as [|p ps IH]; intros b; [done|]. simpl. rewrite IH.
    apply numberingView_update_at, numberingView_remapNoteRef. }
  simpl. by rewrite !Hfold.
Qed.

Lemma numberingView_remapAttribute srcRels srcZip el b a el' b' :
  remapAttribute srcRels srcZip (el, b) a = OK (el', b') →
  numberingView el' = numberingView el.
Proof.
  unfold remapAttribute. destruct (needsRemap a); [|by intros [= <- <-]].
  intros H. apply bind_OK in H as ([newRid b1] & _ & H).
  destruct newRid as [rid|]; [destruct (Js.truthy _)|]; injection H as <- <-;
    auto using numberingView_setAttributeNS, numberingView_removeAttributeNS.
Qed.

Lemma numberingView_remapAttributes srcRels srcZip attrs : ∀ el b el' b',
  foldlM (remapAttribute srcRels srcZip) (el, b) attrs = OK (el', b') →
  numberingView el' = numberingView el.
Proof.
  induction attrs as [|a attrs IH]; intros el b el' b' H; simpl in H.
  - by injection H as <- <-.
  - apply bind_OK in H as ([el1 b1] & H1 & H).
    rewrite (IH _ _ _ _ H). by apply numberingView_remapAttribute in H1.
Qed.

Lemma numberingView_remapRelIds srcRels srcZip n : ∀ b n' b',
  remapRelIds srcRels srcZip n b = OK (n', b') → numberingView n' = numberingView n.
Proof.
  induction n as [s|q a cs IH] using node_ind; intros b n' b' H; simpl in H.
  - by injection H as <- <-.
  - apply bind_OK in H as ([el b1] & Hattrs & H).
    apply bind_OK in H as ([cs' b2] & Hcs & H). injection H as <- <-.
    apply numberingView_remapAttributes in Hattrs.
    destruct el as [q' a' cs0|]; [|done]. simpl in Hattrs. injection Hattrs as -> Ha _.
    simpl. f_equal; [done|].
    clear Ha. revert b1 cs' b2 Hcs. induction cs as [|c cs IHcs]; intros b1 cs' b2 Hcs.
    + by injection Hcs as <- <-.
    + apply Forall_cons in IH as [Hc Hall].
      apply bind_OK in Hcs as ([c' b3] & Hc' & Hcs).
      apply bind_OK in Hcs as ([l'' b4] & Hl & Hcs). injection Hcs as <- <-.
      simpl. f_equal; [by apply (Hc b1 c' b3) | by apply (IHcs Hall b3 l'' b4)].
Qed.

(** ** The numbering part is written by the numbering merge only *)

Lemma firstFree_cand fuel cand zip : ∀ n, ∃ k, firstFree fuel cand zip n = cand k.
Proof.
  induction fuel as [|fuel IH]; intros n; simpl; [eauto|].
  destruct (zip !! cand n); eauto.
Qed.

Lemma prefix_app t b : String.prefix t (t +:+ b) = true.
Proof.
  induction t as [|a t IH]; simpl; [by destruct b|].
  unfold String.append; fold String.append. by destruct (ascii_dec a a).
Qed.

Lemma hasInfix_prefix t s : String.prefix t s = true → hasInfix t s = true.
Proof. intros H. destruct s; cbn [hasInfix]; by rewrite H. Qed.

Lemma hasInfix_app t a b : hasInfix t (a +:+ t +:+ b) = true.
Proof.
  induction a as [|c a IH].
  - change (EmptyString +:+ t +:+ b) with (t +:+ b). apply hasInfix_prefix, prefix_app.
  - change (String c a +:+ t +:+ b) with (String c (a +:+ t +:+ b)).
    cbn [hasInfix]. rewrite IH. by rewrite orb_true_r.
Qed.

Lemma uniquePartPath_numbering zip srcFull : uniquePartPath zip srcFull ≠ P_numbering.
Proof.
  unfold uniquePartPath.
  destruct (match Js.lastIndexOf srcFull "." with
            | Some i => (Js.substring 0 i srcFull, Js.substringFrom i srcFull)
            | None => (srcFull, EmptyString)
            end) as [stem ext].
  destruct (firstFree_cand (size zip)
              (λ n, stem +:+ "_merged_" +:+ Js.ofZ (Z.of_nat n) +:+ ext) zip 1) as [k ->].
  intros E. apply (f_equal (hasInfix "_merged_")) in E.
  rewrite (hasInfix_app "_merged_" stem) in E. vm_compute in E. discriminate E.
Qed.

Lemma uniqueMediaName_numbering zip name ext : uniqueMediaName zip name ext ≠ P_numbering.
Proof.
  unfold uniqueMediaName.
  match goal with |- firstFree _ ?c _ _ ≠ _ =>
    destruct (firstFree_cand (size zip) c zip 1) as [k ->] end.
  intros E. apply (f_equal (String.prefix "word/m")) in E.
  cbv [String.append] in E. simpl in E. discriminate E.
Qed.

Lemma remapRelationship_numbering oldRid srcRels srcZip b r b' :
  remapRelationship oldRid srcRels srcZip b = OK (r, b') →
  baseZip b' !! P_numbering = baseZip b !! P_numbering.
Proof.
  unfold remapRelationship. intros H.
  destruct (String.eqb oldRid EmptyString); [by injection H as <- <-|].
  destruct (findRelationshipById _ _); [|by injection H as <- <-].
  destruct (findRelationshipByTypeAndTarget _ _ _ _); [by injection H as <- <-|].
  destruct (getAttribute "Type" _) as [ty|]; [|done].
  destruct (Js.endsWith ty "/hyperlink"); [by injection H as <- <-|].
  destruct (Js.endsWith ty "/image").
  - destruct (srcZip !! _); [|by injection H as <- <-].
    destruct (splitNameExt _) as [name ext]. injection H as <- <-. simpl.
    apply lookup_insert_ne, uniqueMediaName_numbering.
  - destruct (srcZip !! _); [|by injection H as <- <-].
    injection H as <- <-. simpl. apply lookup_insert_ne, uniquePartPath_numbering.
Qed.

(** What [remapRelationship] keeps, the import of a subtree keeps. *)
Lemma remapRelIds_inv (I : base → Prop) srcRels srcZip :
  (∀ oldRid b r b', I b → remapRelationship oldRid srcRels srcZip b = OK (r, b') → I b') →
  ∀ n b n' b', I b → remapRelIds srcRels srcZip n b = OK (n', b') → I b'.
Proof.
  intros HI.
  assert (∀ attrs el b el' b', I b →
            foldlM (remapAttribute srcRels srcZip) (el, b) attrs = OK (el', b') → I b')
    as Hattrs.
  { induction attrs as [|a attrs IH]; intros el b el' b' Hb H; simpl in H.
    - by injection H as <- <-.
    - apply bind_OK in H as ([el1 b1] & H1 & H). apply (IH el1 b1 el' b'); [|done].
      unfold remapAttribute in H1. destruct (needsRemap a); [|by injection H1 as <- <-].
      apply bind_OK in H1 as ([newRid b2] & Hr & H1). apply HI in Hr; [|done].
      destruct newRid as [rid|]; [destruct (Js.truthy _)|]; by injection H1 as <- <-. }
  induction n as [s|q a cs IH] using node_ind; intros b n' b' Hb H; simpl in H.
  - by injection H as <- <-.
  - apply bind_OK in H as ([el b1] & Ha & H).
    apply bind_OK in H as ([cs' b2] & Hcs & H). injection H as <- <-.
    apply Hattrs in Ha; [|done]. clear Hb.
    revert b1 cs' b2 Ha Hcs. induction cs as [|c cs IHcs]; intros b1 cs' b2 Hb1 Hcs.
    + by injection Hcs as <- <-.
    + apply Forall_cons in IH as [Hc Hall].
      apply bind_OK in Hcs as ([c' b3] & Hc' & Hcs).
      apply bind_OK in Hcs as ([l'' b4] & Hl & Hcs). injection Hcs as <- <-.
      apply (IHcs Hall b3 l'' b4); [|done]. by apply (Hc b1 c' b3).
Qed.

Lemma importNodes_fold srcRels srcZip cs : ∀ acc b nodes b',
  foldlM (importNodes srcRels srcZip) (acc, b) cs = OK (nodes, b') →
  baseZip b' !! P_numbering = baseZip b !! P_numbering
  ∧ ∀ n, n ∈ nodes → n ∈ acc ∨ ∃ c, c ∈ cs ∧ numberingView n = numberingView c.
Proof.
  induction cs as [|c cs IH]; intros acc b nodes b' H; simpl in H.
  - injection H as <- <-. split; [done | by left].
  - apply bind_OK in H as ([acc1 b1] & Hc & H). apply IH in H as [Hz Hn].
    unfold importNodes in Hc. destruct (isElement c).
    + apply bind_OK in Hc as ([imported b2] & Hi & Hc). injection Hc as <- <-.
      split.
      * rewrite Hz.
        apply (remapRelIds_inv (λ x, baseZip x !! P_numbering = baseZip b !! P_numbering)
                 srcRels srcZip) in Hi; [done| |done].
        intros oldRid x r x' Hx Hr. rewrite <- Hx. by apply remapRelationship_numbering in Hr.
      * intros n Hin. destruct (Hn n Hin) as [[Hacc|Himp%list_elem_of_singleton]%elem_of_app
                                              |(c0 & Hc0 & Hv)].
        -- by left.
        -- subst n. right. exists c. split; [left|].
           by apply numberingView_remapRelIds in Hi.
        -- right. exists c0. split; [by right | done].
    + injection Hc as <- <-. split; [done|].
      intros n Hin. destruct (Hn n Hin) as [?|(c0 & Hc0 & Hv)]; [by left|].
      right. exists c0. split; [by right | done].
Qed.

Lemma mergeStylesPart_numbering srcZip zip zip' :
  mergeStylesPart srcZip zip = OK zip' → zip' !! P_numbering = zip !! P_numbering.
Proof.
  unfold mergeStylesPart. intros H.
  apply bind_OK in H as (x & _ & H). apply bind_OK in H as (y & _ & H).
  destruct (foldl _ _ _) as [styles' ?].
  apply bind_OK in H as (z1 & H1 & H). apply bind_OK in H as (z2 & H2 & H).
  apply bind_OK in H as (z3 & H3 & H).
  rewrite (mergeSettingsPart_frame _ _ _ P_numbering H) by done.
  rewrite (mergeOptionalStylePart_frame _ _ _ _ _ _ P_numbering H3) by done.
  rewrite (mergeOptionalStylePart_frame _ _ _ _ _ _ P_numbering H2) by done.
  rewrite (mergeOptionalStylePart_frame _ _ _ _ _ _ P_numbering H1) by done.
  unfold writeXml. by rewrite lookup_insert_ne.
Qed.

Lemma mergeNotes_numbering srcZip kind b b' :
  mergeNotes srcZip kind b = OK b' → baseZip b' !! P_numbering = baseZip b !! P_numbering.
Proof.
  unfold mergeNotes. intros H.
  apply bind_OK in H as (x & _ & H). apply bind_OK in H as (y & _ & H).
  destruct (foldl mergeNote _ _) as [[notes' ?] idMap].
  apply bind_OK in H as (baseRel & _ & H). apply bind_OK in H as (srcRel & _ & H).
  pose proof (foldl_inv (λ st : node * package, st.2 !! P_numbering = baseZip b !! P_numbering)
                (mergeNoteRel (match kind with footnotes => P_footnotes | endnotes => P_endnotes end)
                   srcZip)
                (relationships srcRel) (baseRel, baseZip b)) as Hfold.
  destruct (foldl (mergeNoteRel _ srcZip) _ _) as [baseRel' zip1].
  injection H as <-. cbn [baseZip withNoteMap withZip]. unfold writeXml.
  rewrite lookup_insert_ne by (by destruct kind).
  rewrite lookup_insert_ne by (by destruct kind).
  apply Hfold; [|done]. intros [rel zip] el Hst. cbn [snd] in Hst. unfold mergeNoteRel.
  destruct (findRelationshipByTypeAndTarget _ _ _ _); [done|].
  destruct (String.eqb _ EmptyString); [|done].
  destruct (srcZip !! _); [|done]. cbn [snd].
  rewrite lookup_insert_ne by apply uniquePartPath_numbering. done.
Qed.

(** ** Paragraphs as elements *)

Lemma resolvesIn_elements ids body :
  isElement body = true →
  resolvesIn ids body ↔ paragraphsResolve ids (getElementsByTagNameNS NS_w "p" body).
Proof.
  intros Hel. pose proof (getElementsByTagNameNS_paths NS_w "p" body Hel) as Hpaths. split.
  - intros Hres p v Hp Href Hfin.
    apply (list_elem_of_fmap_2 Some) in Hp. rewrite <- Hpaths in Hp.
    apply list_elem_of_fmap in Hp as (pp & Hget & Hpp). by apply (Hres pp p v).
  - intros Hres pp p v Hpp Hget Href Hfin. apply (Hres p v); [|done..].
    apply (list_elem_of_fmap_2 (λ p, get_at p body)) in Hpp. rewrite Hpaths, Hget in Hpp.
    apply list_elem_of_fmap in Hpp as (p' & [= ->] & Hin). done.
Qed.

Lemma getElements_removeChildAt ns loc i body x :
  x ∈ getElementsByTagNameNS ns loc (removeChildAt i body) →
  x ∈ getElementsByTagNameNS ns loc body.
Proof.
  destruct body as [q a cs|]; [|done]. unfold getElementsByTagNameNS.
  rewrite !descendants_Elem, !list_elem_of_filter. intros [Ht Hx]. split; [done|].
  apply list_elem_of_In, in_flat_map in Hx as (c & Hc & Hx).
  apply list_elem_of_In, in_flat_map. exists c. split; [|done].
  apply list_elem_of_In. apply list_elem_of_In in Hc. by apply list_elem_of_delete_inv in Hc.
Qed.

Lemma getElements_numberingView ns loc n :
  getElementsByTagNameNS ns loc (numberingView n)
  = numberingView <$> getElementsByTagNameNS ns loc n.
Proof.
  destruct n as [q a cs|]; [|done]. unfold getElementsByTagNameNS.
  cbn [numberingView]. rewrite !descendants_Elem.
  assert (flat_map elements (map numberingView cs)
          = numberingView <$> flat_map elements cs) as ->.
  { induction cs as [|c cs IH]; [done|]. simpl.
    by rewrite fmap_app, IH, elements_numberingView. }
  rewrite filter_fmap. f_equal. apply list_filter_iff. intros x. simpl.
  by rewrite hasTagNS_numberingView.
Qed.

Lemma paragraphsResolve_views ids ps ps' :
  numberingView <$> ps = numberingView <$> ps' →
  paragraphsResolve ids ps → paragraphsResolve ids ps'.
Proof.
  intros Hv Hres p' v Hp' Href Hfin.
  apply (list_elem_of_fmap_2 numberingView) in Hp'. rewrite <- Hv in Hp'.
  apply list_elem_of_fmap in Hp' as (p & Hpv & Hp).
  apply (Hres p v Hp); [|done].
  by rewrite <- paragraphNumRef_numberingView, <- Hpv, paragraphNumRef_numberingView.
Qed.

Lemma docElements_child ns loc body c p :
  c ∈ childNodes body → p ∈ docElementsByTagNameNS ns loc c →
  p ∈ getElementsByTagNameNS ns loc body.
Proof.
  destruct body as [q a cs|]; [|by intros ?%elem_of_nil]. simpl.
  unfold getElementsByTagNameNS, docElementsByTagNameNS.
  rewrite descendants_Elem, !list_elem_of_filter. intros Hc [Ht Hp]. split; [done|].
  apply list_elem_of_In, in_flat_map. exists c. split; by apply list_elem_of_In.
Qed.

Lemma isElement_shape n n' : shape n = shape n' → isElement n = isElement n'.
Proof. by destruct n, n'. Qed.

Lemma shape_remapParagraph M p : shape (remapParagraph M p) = shape p.
Proof.
  unfold remapParagraph. destruct (numIdRef p) as [r|]; [|done].
  destruct (get_at r p); [|done]. destruct (M !! _); [|done].
  destruct (Js.isFinite _); [|done]. apply shape_update_at. intros x.
  apply shape_rootAttrOnly, rootAttrOnly_setAttributeNS.
Qed.

Lemma shape_remapNumberingInBody M body : shape (remapNumberingInBody M body) = shape body.
Proof.
  unfold remapNumberingInBody. generalize (pathsBelow (hasTagNS NS_w "p") body).
  intros ps. revert body. induction ps as [|p ps IH]; intros body; [done|].
  simpl. rewrite IH. apply shape_update_at, shape_remapParagraph.
Qed.



(** ** Instances of the statements on merges *)

(** A base whose body ends with section properties, with one source
    appended. *)
Lemma C8_witness :
  ∃ zip log d' cs',
    mergeDocx [packageOf [paragraph "Base"; sectPr]; packageOf [paragraph "Src"]] endOnly
    = OK (zip, log)
    ∧ zip !! P_document = Some (Xml d') ∧ bodyEl d' = Some [O]
    ∧ get_at [O] d' = Some (Elem (wName "body") [] (cs' ++ [sectPr])).
Proof.
  destruct (returned_OK
              (mergeDocx [packageOf [paragraph "Base"; sectPr]; packageOf [paragraph "Src"]]
                 endOnly)) as [[zip log] E]; [vm_compute; reflexivity|].
  destruct (C8_sectPr_restored_last
              [packageOf [paragraph "Base"; sectPr]; packageOf [paragraph "Src"]] endOnly
              zip log (packageOf [paragraph "Base"; sectPr])
              (documentOf [paragraph "Base"; sectPr]) [O] (wName "body") []
              [paragraph "Base"] sectPr E eq_refl eq_refl eq_refl eq_refl eq_refl)
    as (d' & cs' & Hd & Hb & Hg).
  by exists zip, log, d', cs'.
Defined.

(** A pattern that no paragraph of the base contains. *)
Lemma C2_witness :
  mergeDocx [packageOf [paragraph "Base"]; packageOf [paragraph "Src"]] (patternOnly "absent")
  = Err NoInsertionPerformed
  ↔ insertStart (patternOnly "absent") ≠ Some true
    ∧ insertEnd (patternOnly "absent") ≠ Some true
    ∧ ∀ text, pattern (patternOnly "absent") = Some text →
              findParagraphsContainingText (documentOf [paragraph "Base"]) text = OK [].
Proof.
  apply (C2_NoInsertionPerformed_iff
           [packageOf [paragraph "Base"]; packageOf [paragraph "Src"]] (patternOnly "absent")
           (packageOf [paragraph "Base"]) (documentOf [paragraph "Base"])
           (loaded [paragraph "Base"]) None (documentOf [paragraph "Base"])).
  - simpl. lia.
  - left. reflexivity.
  - reflexivity.
  - vm_compute. reflexivity.
  - vm_compute. reflexivity.
Defined.


(** ** The errors of the orchestrator *)

Lemma mergeDocx_Err zips options e :
  mergeDocx zips options = Err e →
  (e = InsufficientSources ∧ (length zips < 2)%nat)
  ∨ (e = NoInsertionMode ∧ (2 ≤ length zips)%nat
     ∧ Js.truthy (pattern options) = false
     ∧ insertStart options ≠ Some true ∧ insertEnd options ≠ Some true)
  ∨ ((2 ≤ length zips)%nat
     ∧ (Js.truthy (pattern options) = true ∨ insertStart options = Some true
        ∨ insertEnd options = Some true)
     ∧ (e = NoInsertionPerformed ∨ thrownBelow e)).
Proof.
  unfold mergeDocx. intros H. case_bool_decide as Hlen; [left; by injection H as <-|].
  right. set (opt := withDefaults options) in *.
  assert (r_pattern opt = pattern options) as Hrp by done.
  assert (r_insertStart opt = true ↔ insertStart options = Some true) as Hrs.
  { unfold opt, withDefaults; simpl. destruct (insertStart options) as [[]|]; split; (done || discriminate). }
  assert (r_insertEnd opt = true ↔ insertEnd options = Some true) as Hre.
  { unfold opt, withDefaults; simpl. destruct (insertEnd options) as [[]|]; split; (done || discriminate). }
  destruct (negb (Js.truthy (r_pattern opt)) && negb (r_insertStart opt)
            && negb (r_insertEnd opt))%bool eqn:Eval.
  - left. injection H as <-. rewrite Hrp in Eval.
    apply andb_true_iff in Eval as [[Et Es]%andb_true_iff Ee].
    apply negb_true_iff in Et, Es, Ee. split_and!; [done|lia|done|..].
    + intros Hv. apply Hrs in Hv. congruence.
    + intros Hv. apply Hre in Hv. congruence.
  - right. split; [lia|]. split.
    { rewrite Hrp in Eval. destruct (Js.truthy (pattern options)); [by left|].
      destruct (r_insertStart opt); [right; left; by apply Hrs|].
      destruct (r_insertEnd opt); [right; right; by apply Hre | done]. }
    destruct zips as [|zip0 srcs]; [simpl in Hlen; lia|].
    apply bind_Err in H as [H | ([d b0] & _ & H)]; [right; by eapply loadBase_thrown|].
    apply bind_Err in H as [H | ([sect d1] & _ & H)];
      [right; by eapply detachSectPr_thrown|].
    apply bind_Err in H as [H | (st1 & _ & H)];
      [right; destruct (r_insertStart opt); [by apply appendAll_thrown in H | done]|].
    apply bind_Err in H as [H | ([[st2 n] l] & _ & H)];
      [right; by apply (patternStep_thrown srcs opt st1)|].
    apply bind_Err in H as [H | ([d3 b3] & _ & H)];
      [right; destruct (r_insertEnd opt); [by apply appendAll_thrown in H | done]|].
    destruct (bool_decide _); [left; by injection H as <- | done].
Qed.

(** X1. A merge call throws 'Need at least two DOCX sources' exactly when
    it is given fewer than two inputs, and 'Provide a pattern or set
    insertStart/insertEnd' exactly when it is given at least two inputs and
    none of the three modes: no step of the merge itself raises either
    error. *)
Theorem X1_validation_errors zips options :
  (mergeDocx zips options = Err InsufficientSources ↔ (length zips < 2)%nat)
  ∧ (mergeDocx zips options = Err NoInsertionMode
     ↔ (2 ≤ length zips)%nat ∧ Js.truthy (pattern options) = false
       ∧ insertStart options ≠ Some true ∧ insertEnd options ≠ Some true).
Proof.
  split; split.
  - intros H. apply mergeDocx_Err in H as [[_ ?]|[(? & _)|(_ & _ & [?|Ht])]]; done.
  - intros H. unfold mergeDocx. by rewrite bool_decide_true.
  - intros H. apply mergeDocx_Err in H as [[? _]|[(_ & ?)|(_ & _ & [?|Ht])]]; done.
  - intros (Hlen & Hp & Hs & He). unfold mergeDocx.
    rewrite bool_decide_false by lia. cbn [withDefaults r_pattern r_insertStart r_insertEnd].
    rewrite Hp. destruct (insertStart options) as [[]|], (insertEnd options) as [[]|]; done.
Qed.

(** ** What the errors of a merge say about its input *)

Lemma foldlM_Err_elem {A B} (f : B → A → result B) l b e :
  foldlM f b l = Err e → ∃ b' x, x ∈ l ∧ f b' x = Err e.
Proof.
  revert b. induction l as [|x l IH]; intros b; simpl; [done|].
  intros [H | (b1 & _ & H)]%bind_Err.
  - exists b, x. split; [left | done].
  - destruct (IH _ H) as (b' & y & Hy & Hf). exists b', y. split; [by right | done].
Qed.

Lemma malformed_blames zip e : malformed e → blames zip e.
Proof. by destruct e. Qed.

Lemma parseXml_malformed c e : parseXml c = Err e → malformed e.
Proof. unfold parseXml. intros H. err_solve. Qed.

Lemma readXml_present zip part f e :
  zip !! part = Some f → readXml zip part = Err e → malformed e.
Proof. unfold readXml. intros -> H. by eapply parseXml_malformed. Qed.

Lemma readXmlOrCreate_malformed zip part fb e :
  readXmlOrCreate zip part fb = Err e → malformed e.
Proof.
  unfold readXmlOrCreate. intros H. destruct (zip !! part); [by eapply parseXml_malformed|]. err_solve.
Qed.

Lemma onBody_malformed f body e : onBody f body = Err e → malformed e.
Proof. unfold onBody. intros H. err_solve. Qed.

Create HintDb malformed.
#[local] Hint Resolve parseXml_malformed readXmlOrCreate_malformed onBody_malformed : malformed.

Ltac malformed := repeat err_step; simpl; eauto with malformed.

Lemma remapRelationship_malformed oldRid srcRels srcZip b e :
  remapRelationship oldRid srcRels srcZip b = Err e → malformed e.
Proof. unfold remapRelationship. intros H. malformed. Qed.
#[local] Hint Resolve remapRelationship_malformed : malformed.

Lemma remapAttribute_malformed srcRels srcZip st a e :
  remapAttribute srcRels srcZip st a = Err e → malformed e.
Proof. unfold remapAttribute. intros H. malformed. Qed.
#[local] Hint Resolve remapAttribute_malformed : malformed.

Lemma remapRelIds_malformed srcRels srcZip n : ∀ b e,
  remapRelIds srcRels srcZip n b = Err e → malformed e.
Proof.
  induction n as [s|q a cs IH] using node_ind; intros b e; simpl; [done|].
  intros [H | ([el b1] & _ & H)]%bind_Err.
  - apply foldlM_Err in H as (? & ? & H). malformed.
  - apply bind_Err in H as [H | ([cs' b2] & _ & H)]; [|done].
    clear -IH H. revert b1 H. induction cs as [|c cs IHcs]; intros b1; simpl; [done|].
    apply Forall_cons in IH as [Hc Hcs].
    intros [H | ([c' b2] & _ & H)]%bind_Err; [by eapply Hc|].
    apply bind_Err in H as [H | ([l'' b3] & _ & H)]; [by eapply IHcs | done].
Qed.
#[local] Hint Resolve remapRelIds_malformed : malformed.

Lemma mergeNumberingParts_malformed srcZip b e :
  mergeNumberingParts srcZip b = Err e → malformed e.
Proof.
  unfold mergeNumberingParts. intros H.
  apply bind_Err in H as [H | (baseNum & _ & H)]; [malformed|].
  apply bind_Err in H as [H | (srcNum & _ & H)]; [malformed|].
  repeat match type of H with (let '(_, _) := ?x in _) = _ => destruct x end. done.
Qed.

Lemma mergeOptionalStylePart_malformed srcZip part skel name zip e :
  mergeOptionalStylePart srcZip part skel name zip = Err e → malformed e.
Proof.
  unfold mergeOptionalStylePart. intros H.
  destruct (srcZip !! part) eqn:E; [|done]. destruct name; [|by destruct (zip !! part)].
  apply bind_Err in H as [H | (basePart & _ & H)]; [malformed|].
  apply bind_Err in H as [H | (srcPart & _ & H)]; [by eapply readXml_present|].
  by destruct (foldl _ _ _).
Qed.

Lemma mergeSettingsPart_malformed srcZip zip e :
  mergeSettingsPart srcZip zip = Err e → malformed e.
Proof.
  unfold mergeSettingsPart. intros H. destruct (srcZip !! P_settings) eqn:E; [|done].
  apply bind_Err in H as [H | (x & _ & H)]; [malformed|].
  apply bind_Err in H as [H | (y & _ & H)]; [by eapply readXml_present|]. done.
Qed.
#[local] Hint Resolve mergeNumberingParts_malformed mergeOptionalStylePart_malformed
  mergeSettingsPart_malformed : malformed.

Lemma mergeStylesPart_malformed srcZip zip e :
  mergeStylesPart srcZip zip = Err e → malformed e.
Proof.
  unfold mergeStylesPart. intros H.
  apply bind_Err in H as [H | (x & _ & H)]; [malformed|].
  apply bind_Err in H as [H | (y & _ & H)]; [malformed|].
  destruct (foldl _ _ _). malformed.
Qed.

Lemma mergeNotes_malformed srcZip kind b e :
  mergeNotes srcZip kind b = Err e → malformed e.
Proof.
  unfold mergeNotes. intros H.
  apply bind_Err in H as [H | (x & _ & H)]; [malformed|].
  apply bind_Err in H as [H | (y & _ & H)]; [malformed|].
  destruct (foldl mergeNote _ _) as [[? ?] ?].
  apply bind_Err in H as [H | (x' & _ & H)]; [malformed|].
  apply bind_Err in H as [H | (y' & _ & H)]; [malformed|].
  by destruct (foldl _ _ _).
Qed.
#[local] Hint Resolve mergeStylesPart_malformed mergeNotes_malformed : malformed.

(** The section properties of a document are detached right after the
    document is read. *)
Lemma nested_removeChild d :
  (∃ e, match (bodyEl d ≫= (λ bp, get_at bp d)) ≫= (λ body, pair body <$> lastSectPr body) with
        | Some (body, sect) => Some <$> removeChild sect body
        | None => OK (bodyEl d ≫= (λ bp, get_at bp d))
        end = Err e)
  ↔ nestedSectPr d = true.
Proof.
  unfold nestedSectPr. destruct (bodyEl d ≫= _) as [body|]; simpl.
  2:{ split; [by intros [? ?] | done]. }
  destruct (lastSectPr body) as [sp|]; simpl.
  2:{ split; [by intros [? ?] | done]. }
  destruct sp as [|i [|j sp]]; simpl; split; try done; try by intros [? ?].
  all: intros _; by eexists.
Qed.

Lemma prepareBody_blames srcZip opt b e :
  prepareBody srcZip opt b = Err e → blames srcZip e.
Proof.
  unfold prepareBody. intros H. unfold readXml in H.
  destruct (srcZip !! P_document) as [f|] eqn:Ed; [|by injection H as <-].
  apply bind_Err in H as [H | (srcDoc & Hdoc & H)];
    [by eapply malformed_blames, parseXml_malformed|].
  apply bind_Err in H as [H | (srcBody & _ & H)].
  { assert (nestedSectPr srcDoc = true) as Hn by (apply nested_removeChild; by eexists).
    destruct (_ ≫= _) as [[body sect]|]; [|done]. apply fmap_Err in H.
    unfold removeChild in H. destruct sect as [|? [|? ?]]; try done.
    all: injection H as <-; exists srcDoc; unfold readXml; by rewrite Ed. }
  apply malformed_blames. malformed.
Qed.

Lemma importNodes_malformed srcRels srcZip st n e :
  importNodes srcRels srcZip st n = Err e → malformed e.
Proof. unfold importNodes. intros H. malformed. Qed.

Lemma importBodyNodes_blames srcZip opt b e :
  importBodyNodes srcZip opt b = Err e → blames srcZip e.
Proof.
  unfold importBodyNodes. intros H.
  apply bind_Err in H as [H | ([[body rels] b1] & _ & H)]; [by eapply prepareBody_blames|].
  apply malformed_blames.
  destruct body; [|malformed]. apply foldlM_Err in H as (? & ? & H).
  by eapply importNodes_malformed.
Qed.

Lemma appendDocInto_blames srcZip opt atEnd st e :
  appendDocInto srcZip opt atEnd st = Err e → blames srcZip e.
Proof.
  unfold appendDocInto. intros H. destruct st as [d b].
  apply bind_Err in H as [H | ([ns b1] & _ & H)]; [by eapply importBodyNodes_blames|].
  apply malformed_blames. malformed.
Qed.

Lemma insertDocBefore_blames srcZip opt st e :
  insertDocBefore srcZip opt st = Err e → blames srcZip e.
Proof.
  unfold insertDocBefore. intros H. destruct st as [[anchor d] b].
  apply bind_Err in H as [H | ([ns b1] & _ & H)]; [by eapply importBodyNodes_blames|].
  by destruct (foldl _ _ _).
Qed.

Lemma appendAll_blames srcs opt atEnd st e :
  appendAll srcs opt atEnd st = Err e → ∃ z, z ∈ srcs ∧ blames z e.
Proof.
  unfold appendAll. intros (? & z & Hz & H)%foldlM_Err_elem.
  exists z. split; [done | by eapply appendDocInto_blames].
Qed.

Lemma findParagraphs_malformed d text e :
  findParagraphsContainingText d text = Err e → malformed e.
Proof. unfold findParagraphsContainingText. intros H. malformed. Qed.

Lemma insertAtPattern_blames srcs opt text st e :
  insertAtPattern srcs opt text st = Err e → malformed e ∨ ∃ z, z ∈ srcs ∧ blames z e.
Proof.
  unfold insertAtPattern. intros H.
  apply bind_Err in H as [H | (ms & _ & H)]; [left; by eapply findParagraphs_malformed|].
  destruct ms as [|m0 ms]; [done|]. destruct (splitAnchor m0); [|left; malformed].
  apply bind_Err in H as [H | ([[? ?] ?] & _ & H)]; [|done].
  apply foldlM_Err_elem in H as (? & z & Hz & H).
  right. exists z. split; [done | by eapply insertDocBefore_blames].
Qed.

Lemma patternStep_blames srcs opt st e :
  patternStep srcs opt st = Err e → malformed e ∨ ∃ z, z ∈ srcs ∧ blames z e.
Proof.
  unfold patternStep. destruct (r_pattern opt); [|done].
  destruct (Js.truthy _); [apply insertAtPattern_blames | done].
Qed.

Lemma loadBase_blames zip0 e :
  loadBase zip0 = Err e →
  blames zip0 e ∨ (e = MissingPart P_ct ∧ zip0 !! P_ct = None).
Proof.
  unfold loadBase, readXml. intros H.
  destruct (zip0 !! P_document) eqn:Ed; [|left; by injection H as <-].
  apply bind_Err in H as [H | (x & _ & H)];
    [left; by eapply malformed_blames, parseXml_malformed|].
  apply bind_Err in H as [H | (y & _ & H)];
    [left; by eapply malformed_blames, readXmlOrCreate_malformed|].
  destruct (zip0 !! P_ct) eqn:Ec; [|right; by injection H as <-].
  apply bind_Err in H as [H | (? & _ & H)]; [|done].
  left; by eapply malformed_blames, parseXml_malformed.
Qed.

Lemma detachSectPr_Err d e :
  detachSectPr d = Err e → e = NotFoundError ∧ nestedSectPr d = true.
Proof.
  unfold detachSectPr, nestedSectPr. intros H.
  destruct (bodyEl d) as [bp|]; [|done]. simpl.
  destruct (get_at bp d) as [body|]; [|done]. simpl.
  destruct (lastSectPr body) as [sp|]; [|done].
  apply bind_Err in H as [H | (? & _ & H)]; [|done].
  unfold removeChild in H. by destruct sp as [|? [|? ?]]; simplify_eq.
Qed.

Lemma detachSectPr_nested d : nestedSectPr d = true → detachSectPr d = Err NotFoundError.
Proof.
  unfold detachSectPr, nestedSectPr.
  destruct (bodyEl d) as [bp|]; [|done]. simpl.
  destruct (get_at bp d) as [body|]; [|done]. simpl.
  destruct (lastSectPr body) as [sp|]; [|done].
  by destruct sp as [|? [|? ?]].
Qed.

(** Every error that the steps of a merge throw is about one of the
    inputs, or about the content types of the base. *)
Lemma mergeDocx_blames zips options e :
  mergeDocx zips options = Err e → thrownBelow e →
  (∃ zip, zip ∈ zips ∧ blames zip e)
  ∨ (e = MissingPart P_ct ∧ ∃ zip0, head zips = Some zip0 ∧ zip0 !! P_ct = None).
Proof.
  unfold mergeDocx. intros H Ht. case_bool_decide; [by injection H as <-|].
  destruct (_ && _)%bool; [by injection H as <-|].
  destruct zips as [|zip0 srcs]; [by injection H as <-|].
  assert ((∃ z, z ∈ srcs ∧ blames z e) → ∃ zip, zip ∈ zip0 :: srcs ∧ blames zip e) as Hsrc.
  { intros (z & Hz & Hm). exists z. split; [by right | done]. }
  assert (malformed e → ∃ zip, zip ∈ zip0 :: srcs ∧ blames zip e) as Hmal.
  { intros Hm. exists zip0. split; [left | by apply malformed_blames]. }
  apply bind_Err in H as [H | ([d b0] & Hload & H)].
  { apply loadBase_blames in H as [H|[-> H]].
    - left. exists zip0. split; [left | done].
    - right. split; [done|]. by exists zip0. }
  apply bind_Err in H as [H | ([sect d1] & _ & H)].
  { apply detachSectPr_Err in H as [-> Hn]. left. exists zip0. split; [left|].
    exists d. split; [|done]. unfold loadBase in Hload.
    destruct (readXml zip0 P_document); [|done]. simpl in Hload.
    destruct (readXmlOrCreate _ _ _); [|done]. simpl in Hload.
    destruct (readXml zip0 P_ct); [|done]. simpl in Hload. by simplify_eq. }
  apply bind_Err in H as [H | (st1 & _ & H)].
  { destruct (r_insertStart _); [|done]. left. by eapply Hsrc, appendAll_blames. }
  apply bind_Err in H as [H | ([[st2 n] l] & _ & H)].
  { apply (patternStep_blames srcs (withDefaults options) st1) in H as [H|H]; left; eauto. }
  apply bind_Err in H as [H | ([d3 b3] & _ & H)].
  { destruct (r_insertEnd _); [|done]. left. by eapply Hsrc, appendAll_blames. }
  destruct (bool_decide _); [by injection H as <- | done].
Qed.

(** X2. When a merge call throws 'Missing part: p', the part p is the main
    document word/document.xml, absent from one of the input packages, or
    the content types [Content_Types].xml, absent from the base package
    (the first input).  No other part is required: relationships,
    numbering, styles, fonts, settings and notes may all be absent from
    any input. *)
Theorem X2_required_parts zips options p :
  mergeDocx zips options = Err (MissingPart p) →
  (p = P_document ∧ ∃ zip, zip ∈ zips ∧ zip !! P_document = None)
  ∨ (p = P_ct ∧ ∃ zip0, head zips = Some zip0 ∧ zip0 !! P_ct = None).
Proof.
  intros H. apply mergeDocx_blames in H as [(zip & Hz & Hp & Hd)|[Hp H]]; [| |exact I].
  - left. split; [done|]. by exists zip.
  - right. split; [congruence | done].
Qed.

(** The base has no content types. *)
Lemma X2_witness :
  (P_ct = P_document
   ∧ ∃ zip, zip ∈ [documentOnly [paragraph "Base"]; packageOf [paragraph "Src"]]
            ∧ zip !! P_document = None)
  ∨ (P_ct = P_ct
     ∧ ∃ zip0, head [documentOnly [paragraph "Base"]; packageOf [paragraph "Src"]] = Some zip0
               ∧ zip0 !! P_ct = None).
Proof.
  apply (X2_required_parts [documentOnly [paragraph "Base"]; packageOf [paragraph "Src"]]
           endOnly P_ct).
  vm_compute. reflexivity.
Defined.

(** X3. Section properties are detached with removeChild on the body,
    while lastSectPr looks for them among all descendants of the body.
    Importing a source throws NotFoundError exactly when the last section
    properties of its document are not a child of its body (they end a
    section inside a paragraph, say).  A merge call throws NotFoundError
    only if this is so for one of its inputs, and always throws it if it
    is so for a base that loads and the call passes validation. *)
Theorem X3_nested_section_properties :
  (∀ srcZip opt b,
     importBodyNodes srcZip opt b = Err NotFoundError
     ↔ ∃ d, readXml srcZip P_document = OK d ∧ nestedSectPr d = true)
  ∧ (∀ zips options,
       mergeDocx zips options = Err NotFoundError →
       ∃ zip d, zip ∈ zips ∧ readXml zip P_document = OK d ∧ nestedSectPr d = true)
  ∧ (∀ zips options zip0 d0 b0,
       (2 ≤ length zips)%nat →
       Js.truthy (pattern options) = true ∨ insertStart options = Some true
         ∨ insertEnd options = Some true →
       head zips = Some zip0 →
       loadBase zip0 = OK (d0, b0) →
       nestedSectPr d0 = true →
       mergeDocx zips options = Err NotFoundError).
Proof.
  split_and!.
  - intros srcZip opt b. split.
    + intros H. by apply importBodyNodes_blames in H.
    + intros (d & Hd & Hn). unfold importBodyNodes, prepareBody. rewrite Hd.
      cbn [mbind result_bind]. apply nested_removeChild in Hn as [e He].
      destruct (_ ≫= _) as [[body sect]|]; [|done].
      destruct (removeChild sect body) eqn:Er; [done|].
      unfold removeChild in Er. by destruct sect as [|? [|? ?]]; simplify_eq.
  - intros zips options H. apply mergeDocx_blames in H as [(zip & Hz & d & Hd)|[[=] _]]; [|exact I].
    by exists zip, d.
  - intros zips options zip0 d0 b0 Hlen Hval Hz Hload Hn.
    destruct zips as [|z srcs]; [done|]. injection Hz as ->.
    unfold mergeDocx. rewrite bool_decide_false by lia.
    replace (_ && _)%bool with false.
    2:{ symmetry. cbn [withDefaults r_pattern r_insertStart r_insertEnd].
        destruct Hval as [->|[->| ->]]; [done|..].
        - simpl. by rewrite andb_false_r.
        - simpl. by rewrite andb_false_r. }
    rewrite Hload. cbn [mbind result_bind]. by rewrite (detachSectPr_nested _ Hn).
Qed.

(** A base whose only section properties end a section inside a
    paragraph. *)
Lemma X3_witness :
  mergeDocx [packageOf [paragraph "Base"; sectionParagraph]; packageOf [paragraph "Src"]]
    endOnly = Err NotFoundError.
Proof.
  apply (proj2 (proj2 X3_nested_section_properties)
           [packageOf [paragraph "Base"; sectionParagraph]; packageOf [paragraph "Src"]]
           endOnly (packageOf [paragraph "Base"; sectionParagraph])
           (documentOf [paragraph "Base"; sectionParagraph])
           (loaded [paragraph "Base"; sectionParagraph])).
  - simpl. lia.
  - right. right. reflexivity.
  - reflexivity.
  - vm_compute. reflexivity.
  - vm_compute. reflexivity.
Defined.

(** ** Names for the parts that a merge copies *)

Lemma append_inj_l (s a b : string) : s +:+ a = s +:+ b → a = b.
Proof. induction s as [|c s IH]; simpl; [done|]. intros [= H]. by apply IH. Qed.

Lemma append_length (a b : string) :
  String.length (a +:+ b) = (String.length a + String.length b)%nat.
Proof. induction a as [|c a IH]; simpl; [done|]. by rewrite IH. Qed.

Lemma append_inj_r (a b s : string) : a +:+ s = b +:+ s → a = b.
Proof.
  intros H. assert (String.length a = String.length b) as Hlen.
  { apply (f_equal String.length) in H. rewrite !append_length in H. lia. }
  revert b H Hlen. induction a as [|c a IH]; intros [|d b] H Hlen; simpl in *; try done.
  injection H as -> H. f_equal. apply IH; [done | lia].
Qed.

(** The search of the [do ... while] loops ends on a free name: the
    candidates are pairwise distinct, and the package holds no more files
    than the search takes steps. *)
Lemma firstFree_fresh (cand : nat → string) (zip : package) :
  (∀ i j, cand i = cand j → i = j) →
  ∀ fuel n (m : package),
    (size m ≤ fuel)%nat →
    (∀ k, (n ≤ k)%nat → is_Some (zip !! cand k) → is_Some (m !! cand k)) →
    zip !! firstFree fuel cand zip n = None.
Proof.
  intros Hinj. induction fuel as [|fuel IH]; intros n m Hsize Hm; simpl.
  - destruct (zip !! cand n) eqn:E; [|done].
    assert (m = ∅) as -> by (apply map_size_empty_iff; lia).
    destruct (Hm n) as [? Hx]; [lia | by rewrite E |]. by rewrite lookup_empty in Hx.
  - destruct (zip !! cand n) eqn:E; [|done].
    destruct (Hm n) as [x Hx]; [lia | by rewrite E |].
    apply (IH (S n) (delete (cand n) m)).
    + rewrite map_size_delete_Some by eauto.
      assert (size m ≠ O) by (intros ->%map_size_empty_iff; by rewrite lookup_empty in Hx). lia.
    + intros k Hk Hz. rewrite lookup_delete_ne; [apply Hm; [lia | done]|].
      intros Heq. apply Hinj in Heq. lia.
Qed.

Lemma ofZ_nat_inj (i j : nat) : Js.ofZ (Z.of_nat i) = Js.ofZ (Z.of_nat j) → i = j.
Proof. intros H. apply ofZ_inj in H. lia. Qed.

(** X4. The names under which a merge copies a part or an image into the
    base package are free: neither [uniquePartPath] nor [uniqueMediaName]
    returns the name of a file that the package holds, whatever the
    package and the source name, so a copy never overwrites a part. *)
Theorem X4_unique_names_are_free (zip : package) :
  (∀ srcFull, zip !! uniquePartPath zip srcFull = None)
  ∧ (∀ baseName ext, zip !! uniqueMediaName zip baseName ext = None).
Proof.
  split.
  - intros srcFull. unfold uniquePartPath.
    destruct (match Js.lastIndexOf srcFull "." with
              | Some i => (Js.substring 0 i srcFull, Js.substringFrom i srcFull)
              | None => (srcFull, EmptyString)
              end) as [stem ext].
    apply (firstFree_fresh _ zip) with (m := zip); [|done|done].
    intros i j H. apply append_inj_l, append_inj_l, append_inj_r in H.
    by apply ofZ_nat_inj.
  - intros baseName ext. unfold uniqueMediaName.
    apply (firstFree_fresh _ zip) with (m := zip); [|done|done].
    intros i j H. do 4 apply append_inj_l in H. apply append_inj_r in H.
    by apply ofZ_nat_inj.
Qed.

(** The same, for the proofs about copies. *)
Lemma uniquePartPath_fresh (zip : package) srcFull : zip !! uniquePartPath zip srcFull = None.
Proof.
  unfold uniquePartPath.
  destruct (match Js.lastIndexOf srcFull "." with
            | Some i => (Js.substring 0 i srcFull, Js.substringFrom i srcFull)
            | None => (srcFull, EmptyString)
            end) as [stem ext].
  apply (firstFree_fresh _ zip) with (m := zip); [|done|done].
  intros i j H. apply append_inj_l, append_inj_l, append_inj_r in H.
  by apply ofZ_nat_inj.
Qed.

Lemma uniqueMediaName_fresh (zip : package) baseName ext :
  zip !! uniqueMediaName zip baseName ext = None.
Proof.
  unfold uniqueMediaName.
  apply (firstFree_fresh _ zip) with (m := zip); [|done|done].
  intros i j H. do 4 apply append_inj_l in H. apply append_inj_r in H.
  by apply ofZ_nat_inj.
Qed.

(** ** Relative targets *)

Lemma substringFrom_app (a b : string) : Js.substringFrom (String.length a) (a +:+ b) = b.
Proof.
  unfold Js.substringFrom. induction a as [|c a IH]; simpl.
  - rewrite Nat.sub_0_r. apply substring_full.
  - exact IH.
Qed.

Lemma prefix_split (p s : string) : String.prefix p s = true → ∃ t, s = p +:+ t.
Proof.
  revert s. induction p as [|c p IH]; intros s H; [by exists s|].
  destruct s as [|d s]; simpl in H; [done|]. destruct (ascii_dec c d) as [->|]; [|done].
  destruct (IH s H) as [t ->]. by exists t.
Qed.

Lemma relativeTo_inside (from_ to : string) :
  Js.startsWith to (upToLast "/" from_) = true →
  upToLast "/" from_ +:+ relativeTo from_ to = to.
Proof.
  intros H. unfold relativeTo. rewrite H. unfold Js.startsWith in H.
  apply prefix_split in H as [t ->]. by rewrite substringFrom_app.
Qed.

Lemma append_nil_r (a : string) : a +:+ EmptyString = a.
Proof.
  induction a as [|x a IH]; [done|].
  unfold String.append; fold String.append. by rewrite IH.
Qed.

Lemma append_assoc (a b c : string) : (a +:+ b) +:+ c = a +:+ (b +:+ c).
Proof.
  induction a as [|x a IH]; [done|].
  unfold String.append; fold String.append. by rewrite IH.
Qed.

Lemma rev_app_append (s acc r : string) :
  String.rev_app s acc +:+ r = String.rev_app s (acc +:+ r).
Proof. revert acc. induction s as [|c s IH]; intros acc; simpl; [done | by rewrite IH]. Qed.

Lemma split_go_nonempty sep cur s : Js.split_go sep cur s ≠ [].
Proof. revert cur. induction s as [|a r IH]; intros cur; simpl; [done|]. by destruct (Ascii.eqb a sep). Qed.

(** Joining the segments of a string gives the string back. *)
Lemma join_split_go (cur s : string) :
  Js.join "/" (Js.split_go "/" cur s) = String.rev cur +:+ s.
Proof.
  revert cur. induction s as [|a r IH]; intros cur; simpl.
  - by rewrite append_nil_r.
  - destruct (Ascii.eqb_spec a "/") as [->|Hne].
    + unfold Js.join in *. cbn [String.concat].
      destruct (Js.split_go "/" EmptyString r) eqn:E; [by apply split_go_nonempty in E|].
      rewrite <- E, IH. done.
    + rewrite IH. unfold String.rev. by rewrite !rev_app_append.
Qed.

Lemma join_split (s : string) : Js.join "/" (Js.split "/" s) = s.
Proof. apply join_split_go. Qed.

(** The loop of [normalizePath] on segments that are names. *)
Lemma normalize_names (segs : list string) :
  (∀ seg, seg ∈ segs → seg ≠ EmptyString ∧ seg ≠ "." ∧ seg ≠ "..") →
  ∀ out, foldl (λ out seg,
           if String.eqb seg ".." then removelast out
           else if (String.eqb seg "." || String.eqb seg EmptyString)%bool then out
           else out ++ [seg]) out segs = out ++ segs.
Proof.
  induction segs as [|seg segs IH]; intros H out; simpl; [by rewrite app_nil_r|].
  destruct (H seg) as (H1 & H2 & H3); [left|].
  destruct (String.eqb_spec seg ".."); [done|].
  destruct (String.eqb_spec seg "."); [done|].
  destruct (String.eqb_spec seg EmptyString); [done|]. simpl.
  rewrite IH; [by rewrite <- app_assoc|]. intros s Hs. apply H. by right.
Qed.

(** X5. [relativeTo] and [normalizePath] are inverse to each other on the
    paths of a package: for a path [to] below the directory of [from]
    whose segments are names (none is empty, [.] or [..]), resolving
    against [from] the target that [relativeTo] computes gives [to] back.
    A path that is not below the directory of [from] is returned
    unchanged by [relativeTo]. *)
Theorem X5_relativeTo_normalizePath (from_ to : string) :
  (Js.startsWith to (upToLast "/" from_) = true →
   (∀ seg, seg ∈ Js.split "/" to → seg ≠ EmptyString ∧ seg ≠ "." ∧ seg ≠ "..") →
   normalizePath from_ (relativeTo from_ to) = to)
  ∧ (Js.startsWith to (upToLast "/" from_) = false → relativeTo from_ to = to).
Proof.
  split.
  - intros Hpre Hsegs. unfold normalizePath. rewrite (relativeTo_inside _ _ Hpre).
    rewrite (normalize_names _ Hsegs []). apply join_split.
  - intros H. unfold relativeTo. by rewrite H.
Qed.

(** The image that a merge has copied, seen from the main document. *)
Lemma X5_witness :
  normalizePath P_document (relativeTo P_document "word/media/merged_image1_1.png")
  = "word/media/merged_image1_1.png".
Proof.
  apply (proj1 (X5_relativeTo_normalizePath P_document "word/media/merged_image1_1.png")).
  - reflexivity.
  - intros seg Hseg.
    change (Js.split "/" "word/media/merged_image1_1.png")
      with ["word"; "media"; "merged_image1_1.png"] in Hseg.
    rewrite !elem_of_cons, elem_of_nil in Hseg.
    destruct Hseg as [->|[->|[->|[]]]]; by split_and!.
Defined.

(** ** Media paths, names and extensions *)

Lemma substringFrom_S i a s : Js.substringFrom (S i) (String a s) = Js.substringFrom i s.
Proof. reflexivity. Qed.

Lemma index_split t : ∀ s m,
  String.index 0 t s = Some m →
  ∃ pre rest, s = pre +:+ t +:+ rest ∧ Js.substringFrom (m + String.length t) s = rest.
Proof.
  induction s as [|a s IH]; intros m H.
  - simpl in H. destruct t; [|done]. injection H as <-. by exists EmptyString, EmptyString.
  - cbn [String.index] in H. destruct (String.prefix t (String a s)) eqn:Hp.
    + injection H as <-. apply prefix_split in Hp as [rest Hrest].
      exists EmptyString, rest. split; [done|]. rewrite Hrest. apply substringFrom_app.
    + destruct (String.index 0 t s) as [n0|] eqn:E; [|done]. injection H as <-.
      destruct (IH n0 eq_refl) as (pre & rest & Hs & Hrest).
      exists (String a pre), rest. split; [by rewrite Hs|].
      change (S n0 + String.length t)%nat with (S (n0 + String.length t)).
      by rewrite substringFrom_S.
Qed.

(** X22. [canonicalizeMediaPath] returns its argument, or what follows
    some prefix of it: a path that starts with word/media/.  It is
    idempotent. *)
Theorem X22_canonicalizeMediaPath_strips_a_prefix p :
  (canonicalizeMediaPath p = p
   ∨ (Js.startsWith (canonicalizeMediaPath p) "word/media/" = true
      ∧ ∃ pre, p = pre +:+ canonicalizeMediaPath p))
  ∧ canonicalizeMediaPath (canonicalizeMediaPath p) = canonicalizeMediaPath p.
Proof.
  assert (∀ rest, Js.startsWith ("word/" +:+ rest) "word/media/" = Js.startsWith rest "media/")
    as Hstart by reflexivity.
  assert (∀ q, Js.startsWith q "word/media/" = true → canonicalizeMediaPath q = q) as Hfix.
  { intros q Hq. unfold canonicalizeMediaPath. by rewrite Hq. }
  assert (canonicalizeMediaPath p = p
          ∨ ∃ idx, Js.indexOf p "word/" = Some idx
                   ∧ Js.startsWith (Js.substringFrom (idx + 5) p) "media/" = true
                   ∧ canonicalizeMediaPath p = "word/" +:+ Js.substringFrom (idx + 5) p)
    as [Hsame | (idx & Hidx & Hmedia & Hcanon)].
  { unfold canonicalizeMediaPath.
    destruct (Js.startsWith p "word/media/"); [by left|].
    destruct (Js.indexOf p "word/") as [idx|]; [|by left].
    destruct (Js.startsWith (Js.substringFrom (idx + 5) p) "media/") eqn:E; [|by left].
    right. by exists idx. }
  - split; [by left | by rewrite !Hsame].
  - assert (Js.startsWith (canonicalizeMediaPath p) "word/media/" = true) as Hs
      by by rewrite Hcanon, Hstart.
    split; [|by apply Hfix]. right. split; [done|].
    unfold Js.indexOf in Hidx.
    destruct (index_split "word/" p idx Hidx) as (pre & rest & Hp & Hr).
    exists pre. change (String.length "word/") with 5%nat in Hr. by rewrite Hcanon, Hr.
Qed.

Lemma lastIndexOf_split c : ∀ s i,
  Js.lastIndexOf s c = Some i →
  s = Js.substring 0 i s +:+ String c (Js.substringFrom (S i) s)
  ∧ Js.lastIndexOf (Js.substringFrom (S i) s) c = None.
Proof.
  induction s as [|a s IH]; intros i H; [done|]. cbn [Js.lastIndexOf] in H.
  destruct (Js.lastIndexOf s c) as [j|] eqn:E.
  - injection H as <-. destruct (IH j eq_refl) as [Hs Hn].
    rewrite substringFrom_S. split; [|done].
    unfold Js.substring in *. rewrite Nat.sub_0_r in *.
    change (String.substring 0 (S j) (String a s)) with (String a (String.substring 0 j s)).
    change (String a (String.substring 0 j s) +:+ ?x)
      with (String a (String.substring 0 j s +:+ x)).
    by rewrite <- Hs.
  - destruct (Ascii.eqb_spec a c) as [->|]; [|done]. injection H as <-.
    rewrite substringFrom_S.
    assert (Js.substringFrom 0 s = s) as ->.
    { unfold Js.substringFrom. rewrite Nat.sub_0_r. apply substring_full. }
    done.
Qed.

(** X23. [splitNameExt] cuts a path at its last dot: the path is the name,
    a dot and an extension without a dot, and the extension returned is
    that one in lower case; a path without a dot is its own name and has
    the empty extension. *)
Theorem X23_splitNameExt_cuts_at_the_last_dot p :
  (∃ e, p = fst (splitNameExt p) +:+ "." +:+ e
        ∧ snd (splitNameExt p) = Js.toLowerCase e
        ∧ Js.lastIndexOf e "." = None)
  ∨ (Js.lastIndexOf p "." = None ∧ splitNameExt p = (p, EmptyString)).
Proof.
  unfold splitNameExt. destruct (Js.lastIndexOf p ".") as [i|] eqn:E.
  - left. destruct (lastIndexOf_split "." p i E) as [Hp Hn].
    exists (Js.substringFrom (S i) p). by split_and!.
  - by right.
Qed.

(** ** Adding and finding relationships *)

Lemma addRelationship_new id type target mode relXml :
  addRelationship id type target mode relXml
  = appendChild (newRelationship id type target mode) relXml.
Proof. reflexivity. Qed.

Lemma newRelationship_attributes id type target mode :
  let rel := newRelationship id type target mode in
  getAttribute "Id" rel = Some id ∧ getAttribute "Type" rel = Some type
  ∧ getAttribute "Target" rel = Some target
  ∧ getAttribute "TargetMode" rel = (if Js.truthy mode then mode else None)
  ∧ hasTagNS NS_pr "Relationship" rel = true ∧ childNodes rel = [].
Proof.
  unfold newRelationship. destruct mode as [m|]; [|done].
  destruct (Js.truthy (Some m)); done.
Qed.

Lemma relationships_add id type target mode relXml :
  isElement relXml = true →
  ∃ root', relationships relXml
           = (if hasTagNS NS_pr "Relationship" relXml then [relXml] else [])
             ++ getElementsByTagNameNS NS_pr "Relationship" relXml
    ∧ relationships (addRelationship id type target mode relXml)
      = (if hasTagNS NS_pr "Relationship" relXml then [root'] else [])
        ++ getElementsByTagNameNS NS_pr "Relationship" relXml
        ++ [newRelationship id type target mode]
    ∧ attributes root' = attributes relXml.
Proof.
  intros Hel.
  destruct (docElementsByTagNameNS_appendChildren NS_pr "Relationship"
              [newRelationship id type target mode] relXml Hel) as (root' & H1 & H2 & H3).
  exists root'. split_and!; [done| |done].
  rewrite addRelationship_new. unfold relationships.
  change (appendChild ?c ?r) with (appendChildren [c] r). rewrite H2.
  do 2 f_equal. cbn [flat_map]. rewrite app_nil_r.
  destruct (newRelationship_attributes id type target mode) as (_ & _ & _ & _ & Ht & Hc).
  unfold docElementsByTagNameNS.
  destruct (newRelationship id type target mode) as [q a cs|]; [|done].
  simpl in Hc. subst cs. cbn [elements flat_map]. by rewrite filter_cons_True.
Qed.

Lemma find_app_Some {A} (P : A → bool) l1 l2 x :
  find P l1 = Some x → find P (l1 ++ l2) = Some x.
Proof. induction l1 as [|a l1 IH]; simpl; [done|]. by destruct (P a). Qed.

Lemma find_app_None {A} (P : A → bool) l1 l2 :
  find P l1 = None → find P (l1 ++ l2) = find P l2.
Proof. induction l1 as [|a l1 IH]; simpl; [done|]. by destruct (P a). Qed.

(** A search in the set after an entry is added. *)
Lemma find_relationships_add (P : node → bool) id type target mode relXml :
  readsAttributes P → isElement relXml = true →
  (∀ el, find P (relationships relXml) = Some el →
     ∃ el', find P (relationships (addRelationship id type target mode relXml)) = Some el'
            ∧ attributes el' = attributes el)
  ∧ (find P (relationships relXml) = None →
     find P (relationships (addRelationship id type target mode relXml))
     = if P (newRelationship id type target mode)
       then Some (newRelationship id type target mode) else None).
Proof.
  intros HP Hel.
  destruct (relationships_add id type target mode relXml Hel) as (root' & -> & -> & Hroot).
  pose proof (HP root' relXml Hroot) as HPr.
  destruct (hasTagNS NS_pr "Relationship" relXml); cbn [app find]; rewrite ?HPr.
  - destruct (P relXml).
    + split; [|done]. intros el [= <-]. by exists root'.
    + split.
      * intros el H. exists el. split; [by apply find_app_Some | done].
      * intros H. rewrite (find_app_None _ _ _ H). simpl. by destruct (P _).
  - split.
    + intros el H. exists el. split; [by apply find_app_Some | done].
    + intros H. rewrite (find_app_None _ _ _ H). simpl. by destruct (P _).
Qed.

Lemma byId_readsAttributes id :
  readsAttributes (λ el, bool_decide (getAttribute "Id" el = Some id)).
Proof. intros el el' H. unfold getAttribute. by rewrite H. Qed.

Lemma byTypeAndTarget_readsAttributes (type target mode : option string) :
  readsAttributes (λ el,
      (bool_decide (getAttribute "Type" el = type)
       && bool_decide (getAttribute "Target" el = target)
       && String.eqb (Js.orLit (getAttribute "TargetMode" el) EmptyString)
                     (Js.orLit mode EmptyString))%bool).
Proof. intros el el' H. unfold getAttribute. by rewrite H. Qed.

(** X6. Adding an entry to a relationship set and looking it up again:
    [addRelationship] appends, and the searches return the first match in
    document order.  So an ID that an entry of the set carried is still
    found on an entry with the same attributes; an ID that no entry
    carried is found afterwards exactly when it is the ID of the added
    entry, whose attributes Type and Target are the arguments and whose
    TargetMode is set only when the mode is truthy. *)
Theorem X6_addRelationship_then_find id type target mode relXml :
  isElement relXml = true →
  let relXml' := addRelationship id type target mode relXml in
  (∀ id' el, findRelationshipById relXml id' = Some el →
     ∃ el', findRelationshipById relXml' id' = Some el' ∧ attributes el' = attributes el)
  ∧ (∀ id', findRelationshipById relXml id' = None → id' ≠ id →
       findRelationshipById relXml' id' = None)
  ∧ (findRelationshipById relXml id = None →
     ∃ el, findRelationshipById relXml' id = Some el
           ∧ getAttribute "Id" el = Some id ∧ getAttribute "Type" el = Some type
           ∧ getAttribute "Target" el = Some target
           ∧ getAttribute "TargetMode" el = (if Js.truthy mode then mode else None)).
Proof.
  intros Hel relXml'. unfold relXml', findRelationshipById.
  destruct (newRelationship_attributes id type target mode) as (Hi & Ht & Hg & Hm & _).
  split_and!.
  - intros id' el H.
    by apply (find_relationships_add _ id type target mode relXml (byId_readsAttributes id') Hel).
  - intros id' H Hne.
    rewrite (proj2 (find_relationships_add _ id type target mode relXml
                      (byId_readsAttributes id') Hel) H).
    rewrite Hi. rewrite bool_decide_false; [done | congruence].
  - intros H.
    rewrite (proj2 (find_relationships_add _ id type target mode relXml
                      (byId_readsAttributes id) Hel) H).
    rewrite Hi, bool_decide_true by done. eauto 10.
Qed.

(** An entry added to the empty set. *)
Lemma X6_witness :
  ∃ el, findRelationshipById (addRelationship "rId1" imageType "media/a.png" None relsSkeleton)
          "rId1" = Some el
        ∧ getAttribute "Target" el = Some "media/a.png".
Proof.
  destruct (X6_addRelationship_then_find "rId1" imageType "media/a.png" None relsSkeleton
              eq_refl) as (_ & _ & H).
  destruct (H eq_refl) as (el & Hf & _ & _ & Hg & _). by exists el.
Defined.

(** ** Resolving a relationship twice *)

Lemma orLit_truthy (o : option string) :
  Js.orLit (if Js.truthy o then o else None) EmptyString = Js.orLit o EmptyString.
Proof. destruct o as [s|]; [|done]. simpl. by destruct (String.eqb s EmptyString) eqn:E; simpl; rewrite ?E. Qed.

Lemma truthy_truthy (o : option string) :
  Js.truthy (if Js.truthy o then o else None) = Js.truthy o.
Proof. destruct o as [s|]; [|done]. simpl. by destruct (String.eqb s EmptyString) eqn:E; simpl; rewrite ?E. Qed.

(** The entry added for a source entry is the one that the search for the
    source entry finds next time, when the target and the mode that are
    stored are those of the source. *)
Lemma find_added relXml newId ty t (mode stored : option string) :
  isElement relXml = true →
  findRelationshipByTypeAndTarget relXml (Some ty) (Some t) mode = None →
  Js.orLit (if Js.truthy stored then stored else None) EmptyString = Js.orLit mode EmptyString →
  ∃ el, findRelationshipByTypeAndTarget (addRelationship newId ty t stored relXml)
          (Some ty) (Some t) mode = Some el
        ∧ getAttribute "Id" el = Some newId.
Proof.
  intros Hel Hnone Hmode. unfold findRelationshipByTypeAndTarget in *.
  rewrite (proj2 (find_relationships_add _ newId ty t stored relXml
                    (byTypeAndTarget_readsAttributes _ _ _) Hel) Hnone).
  destruct (newRelationship_attributes newId ty t stored) as (Hi & Ht & Hg & Hm & _).
  rewrite Ht, Hg, Hm, Hmode, !bool_decide_true, String.eqb_refl by done.
  by eexists.
Qed.

(** X7. Resolving a source relationship a second time, against the base
    that the first resolution left, returns the same ID and changes
    nothing, provided the source entry has a target and either is a
    hyperlink with a TargetMode, or is not a hyperlink and its payload is
    not in the source package.  (An entry whose payload is copied is
    stored under the name of the copy, and is not found again.) *)
Theorem X7_resolution_is_idempotent oldRid srcRelXml srcZip b r b' srcRel ty t :
  isElement (baseRels b) = true →
  findRelationshipById srcRelXml oldRid = Some srcRel →
  getAttribute "Type" srcRel = Some ty →
  getAttribute "Target" srcRel = Some t →
  (if Js.endsWith ty "/hyperlink" then Js.truthy (getAttribute "TargetMode" srcRel) = true
   else if Js.endsWith ty "/image"
        then srcZip !! canonicalizeMediaPath (normalizePath P_document t) = None
        else srcZip !! normalizePath P_document t = None) →
  remapRelationship oldRid srcRelXml srcZip b = OK (r, b') →
  remapRelationship oldRid srcRelXml srcZip b' = OK (r, b').
Proof.
  intros Hel Hsrc Hty Htg Hkind H. unfold remapRelationship in *.
  destruct (String.eqb oldRid EmptyString); [by simplify_eq|].
  rewrite Hsrc, Hty, Htg in *. change (Js.str (Some t)) with t in *.
  set (mode := if Js.truthy (getAttribute "TargetMode" srcRel)
               then getAttribute "TargetMode" srcRel else None) in *.
  destruct (findRelationshipByTypeAndTarget (baseRels b) _ _ _) as [existing|] eqn:Hex.
  { injection H as ? ?; subst r b'. by rewrite Hex. }
  assert (Js.orLit (if Js.truthy mode then mode else None) EmptyString
          = Js.orLit mode EmptyString) as Hmm.
  { unfold mode. destruct (getAttribute "TargetMode" srcRel) as [m|]; [|done]. simpl.
    destruct (String.eqb m EmptyString) eqn:E; simpl; rewrite ?E; simpl; by rewrite ?E. }
  destruct (Js.endsWith ty "/hyperlink").
  - injection H as ? ?; subst r b'. cbn [baseRels withRels].
    assert (Js.orLit (if Js.truthy (Some (Js.orLit mode "External"))
                      then Some (Js.orLit mode "External") else None) EmptyString
            = Js.orLit mode EmptyString) as Hmode.
    { unfold mode. rewrite Hkind.
      destruct (getAttribute "TargetMode" srcRel) as [m|]; [|done]. simpl in Hkind |- *.
      destruct (String.eqb m EmptyString) eqn:E; [done|]. simpl. rewrite ?E. simpl. by rewrite ?E. }
    destruct (find_added (baseRels b) (allocRid (baseRels b)) ty t mode _ Hel Hex Hmode)
      as (el & -> & ->). done.
  - destruct (Js.endsWith ty "/image"); rewrite Hkind in H |- *; injection H as ? ?; subst r b';
      cbn [baseRels withRels];
      destruct (find_added (baseRels b) (allocRid (baseRels b)) ty t mode mode Hel Hex Hmm)
        as (el & -> & ->); done.
Qed.

(** A hyperlink with a TargetMode, resolved against an empty set. *)
Lemma X7_witness :
  ∃ r b', remapRelationship "rId1" (relsOf [externalLink]) ∅ emptyBase = OK (r, b')
          ∧ remapRelationship "rId1" (relsOf [externalLink]) ∅ b' = OK (r, b').
Proof.
  destruct (returned_OK (remapRelationship "rId1" (relsOf [externalLink]) ∅ emptyBase))
    as [[r b'] E]; [vm_compute; reflexivity|].
  exists r, b'. split; [exact E|].
  apply (X7_resolution_is_idempotent "rId1" (relsOf [externalLink]) ∅ emptyBase r b'
           externalLink hyperlinkType "http://example.org/"
           eq_refl eq_refl eq_refl eq_refl eq_refl E).
Defined.



(** ** Content types *)

Lemma ensureCT_registered ext ctXml :
  isElement ctXml = true →
  existsb (λ d, String.eqb
      (Js.toLowerCase (Js.orLit (getAttribute "Extension" d) EmptyString))
      (Js.toLowerCase ext)) (docElementsByTagName "Default" (ensureCT ext ctXml)) = true.
Proof.
  intros Hel. unfold ensureCT.
  destruct (existsb _ (docElementsByTagName "Default" ctXml)) eqn:E; [done|].
  destruct ctXml as [q a cs|]; [|done]. apply existsb_exists.
  exists (setAttribute "ContentType" (contentTypeOf ext)
            (setAttribute "Extension" ext (createElement "Default"))).
  split.
  - unfold docElementsByTagName. cbn [appendChild]. rewrite elements_app_child.
    apply list_elem_of_In, list_elem_of_filter. split; [done|].
    right. apply elem_of_app. right. left.
  - replace (Js.orLit _ EmptyString) with ext; [apply String.eqb_refl|].
    simpl. by destruct (String.eqb_spec ext EmptyString).
Qed.

Lemma ensureCT_isElement ext ctXml : isElement (ensureCT ext ctXml) = isElement ctXml.
Proof. unfold ensureCT. destruct (existsb _ _); [done|]. by destruct ctXml. Qed.

(** X9. The content types after [ensure(ext)]: some Default element has
    the extension, compared without regard to case; the Default elements
    that were there keep their attributes; and a further call for an
    extension that differs by case only changes nothing.  So one
    extension is never registered twice by the merge. *)
Theorem X9_ensureCT_registers_once ext ctXml :
  isElement ctXml = true →
  (∃ d, d ∈ docElementsByTagName "Default" (ensureCT ext ctXml)
        ∧ Js.toLowerCase (Js.orLit (getAttribute "Extension" d) EmptyString)
          = Js.toLowerCase ext)
  ∧ (∀ d, d ∈ docElementsByTagName "Default" ctXml →
       ∃ d', d' ∈ docElementsByTagName "Default" (ensureCT ext ctXml)
             ∧ attributes d' = attributes d)
  ∧ (∀ ext', Js.toLowerCase ext' = Js.toLowerCase ext →
       ensureCT ext' (ensureCT ext ctXml) = ensureCT ext ctXml).
Proof.
  intros Hel. split_and!.
  - pose proof (ensureCT_registered ext ctXml Hel) as H.
    apply existsb_exists in H as (d & Hd & He). exists d.
    split; [by apply list_elem_of_In | by apply String.eqb_eq].
  - intros d Hd. unfold ensureCT. destruct (existsb _ _); [by exists d|].
    destruct ctXml as [q a cs|]; [|done]. cbn [appendChild].
    unfold docElementsByTagName in *. rewrite elements_app_child.
    cbn [elements] in Hd. apply list_elem_of_filter in Hd as [Ht Hd].
    apply elem_of_cons in Hd as [->|Hd].
    + exists (Elem q a (cs ++ [setAttribute "ContentType" (contentTypeOf ext)
                                 (setAttribute "Extension" ext (createElement "Default"))])).
      split; [|done]. apply list_elem_of_filter. split; [done | left].
    + exists d. split; [|done]. apply list_elem_of_filter. split; [done|].
      right. apply elem_of_app. by left.
  - intros ext' Hext. unfold ensureCT at 1. rewrite Hext.
    by rewrite (ensureCT_registered ext ctXml Hel).
Qed.

(** The extension PNG after png, on the content types of a minimal
    package. *)
Lemma X9_witness : ensureCT "PNG" (ensureCT "png" contentTypes) = ensureCT "png" contentTypes.
Proof.
  destruct (X9_ensureCT_registers_once "png" contentTypes eq_refl) as (_ & _ & H).
  apply H. reflexivity.
Defined.

(** ** Copying an image *)

Lemma relativeTo_media zip name ext :
  "word/" +:+ relativeTo P_document (uniqueMediaName zip name ext)
  = uniqueMediaName zip name ext.
Proof.
  change "word/" with (upToLast "/" P_document). apply relativeTo_inside.
  unfold uniqueMediaName.
  match goal with |- Js.startsWith (firstFree _ ?c _ _) _ = _ =>
    destruct (firstFree_cand (size zip) c zip 1) as [k ->] end.
  reflexivity.
Qed.



(** ** Copying another part *)

Lemma substring_lengths (s : string) : ∀ i,
  (String.length (String.substring 0 i s)
   + String.length (String.substring i (String.length s - i) s))%nat = String.length s.
Proof.
  induction s as [|c s IH]; intros i; [by destruct i|].
  destruct i as [|i].
  - cbn [String.substring String.length]. rewrite Nat.sub_0_r.
    change (String.substring 0 (S (String.length s)) (String c s))
      with (String c (String.substring 0 (String.length s) s)).
    rewrite substring_full. done.
  - change (String.substring 0 (S i) (String c s))
      with (String c (String.substring 0 i s)).
    change (String.substring (S i) (String.length (String c s) - S i) (String c s))
      with (String.substring i (String.length s - i) s).
    cbn [String.length]. specialize (IH i). lia.
Qed.

(** The name of a copy is never the name of the part it is a copy of. *)
Lemma uniquePartPath_differs zip srcFull : uniquePartPath zip srcFull ≠ srcFull.
Proof.
  unfold uniquePartPath.
  assert (∀ stem ext k,
            (String.length stem + String.length ext)%nat = String.length srcFull →
            stem +:+ "_merged_" +:+ Js.ofZ (Z.of_nat k) +:+ ext ≠ srcFull) as Hlen.
  { intros stem ext k Hl E. apply (f_equal String.length) in E.
    rewrite !append_length in E. simpl in E. lia. }
  destruct (Js.lastIndexOf srcFull ".") as [i|].
  - match goal with |- firstFree _ ?c _ _ ≠ _ =>
      destruct (firstFree_cand (size zip) c zip 1) as [k ->] end.
    apply Hlen. unfold Js.substring, Js.substringFrom. rewrite Nat.sub_0_r.
    apply substring_lengths.
  - match goal with |- firstFree _ ?c _ _ ≠ _ =>
      destruct (firstFree_cand (size zip) c zip 1) as [k ->] end.
    apply Hlen. simpl. lia.
Qed.



(** ** The relationships of the notes *)

(** X21. One round of the relationship loop of [mergeNotes], for a source
    entry without a TargetMode that has no equivalent in the base and
    whose payload is in the source package: the payload is stored under a
    new name, while the entry that is added keeps the target of the source
    entry.  The target of the added entry, resolved against the notes
    part, is therefore the name the part had in the source, never the name
    of the copy. *)
Theorem X21_note_relationship_keeps_its_target part srcZip baseRel zip el data :
  let type := getAttribute "Type" el in
  let target := getAttribute "Target" el in
  let srcFull := normalizePath part (Js.str target) in
  isElement baseRel = true →
  Js.truthy (getAttribute "TargetMode" el) = false →
  findRelationshipByTypeAndTarget baseRel type target None = None →
  srcZip !! srcFull = Some data →
  ∃ unique,
    mergeNoteRel part srcZip (baseRel, zip) el
    = (addRelationship (allocRid baseRel) (Js.str type) (Js.str target) None baseRel,
       <[unique := data]> zip)
    ∧ zip !! unique = None
    ∧ unique ≠ srcFull
    ∧ ∃ added, added ∈ relationships
                 (addRelationship (allocRid baseRel) (Js.str type) (Js.str target) None baseRel)
               ∧ getAttribute "Id" added = Some (allocRid baseRel)
               ∧ normalizePath part (Js.str (getAttribute "Target" added)) = srcFull.
Proof.
  intros type target srcFull Hel Hmode Hnone Hfile.
  exists (uniquePartPath zip srcFull).
  assert (Js.orLit (getAttribute "TargetMode" el) EmptyString = EmptyString) as Hm.
  { destruct (getAttribute "TargetMode" el) as [m|]; [|done]. simpl in *.
    by destruct (String.eqb_spec m EmptyString). }
  split_and!.
  - unfold mergeNoteRel. fold type. fold target. rewrite Hm. cbn [String.eqb].
    rewrite Hnone. fold srcFull. by rewrite Hfile.
  - apply uniquePartPath_fresh.
  - apply uniquePartPath_differs.
  - destruct (addRelationship_entry (allocRid baseRel) (Js.str type) (Js.str target) None
                baseRel Hel) as (added & Hin & Hid & _ & Htg).
    exists added. split_and!; [done|done|]. by rewrite Htg.
Qed.

(** An image of the footnotes of a source. *)
Lemma X21_witness :
  ∃ unique,
    snd (mergeNoteRel P_footnotes
           (<["word/media/image1.png" := Bin "PNG"]> ∅) (relsSkeleton, ∅)
           (relationship "rId1" imageType "media/image1.png"))
    = <[unique := Bin "PNG"]> ∅
    ∧ unique ≠ "word/media/image1.png".
Proof.
  destruct (X21_note_relationship_keeps_its_target P_footnotes
              imagePackage relsSkeleton ∅
              (relationship "rId1" imageType "media/image1.png") (Bin "PNG")
              eq_refl eq_refl eq_refl eq_refl) as (unique & H & _ & Hne & _).
  exists unique. split; [|exact Hne]. unfold imagePackage in H. by rewrite H.
Defined.

(** ** The parts that a merge leaves alone *)

Lemma keeps_refl W z : keeps W z z.
Proof. by intros k. Qed.

Lemma keeps_trans W z1 z2 z3 : keeps W z1 z2 → keeps W z2 z3 → keeps W z1 z3.
Proof.
  intros H1 H2 k. destruct (H1 k) as [Ha Hb], (H2 k) as [Hc Hd]. split; [auto|].
  intros Hk c Hz. by apply Hd, Hb.
Qed.

Lemma keeps_mono W W' z z' : W ⊆ W' → keeps W z z' → keeps W' z z'.
Proof.
  intros Hsub H k. destruct (H k) as [Ha Hb]. split; [done|].
  intros Hk. apply Hb. intros Hin. by apply Hk, Hsub.
Qed.

Lemma keeps_fresh W z k c : z !! k = None → keeps W z (<[k := c]> z).
Proof.
  intros Hnone k'. destruct (decide (k' = k)) as [->|Hne].
  - rewrite Hnone. split; [by intros [? ?] | done].
  - by rewrite lookup_insert_ne.
Qed.

Lemma keeps_write W part d z : part ∈ W → keeps W z (writeXml part d z).
Proof.
  intros Hin k. unfold writeXml. destruct (decide (k = part)) as [->|Hne].
  - rewrite lookup_insert_eq. split; [by eexists | done].
  - by rewrite lookup_insert_ne.
Qed.

Lemma remapRelationship_keeps oldRid srcRels srcZip b r b' :
  remapRelationship oldRid srcRels srcZip b = OK (r, b') →
  keeps [] (baseZip b) (baseZip b').
Proof.
  unfold remapRelationship. intros H.
  destruct (String.eqb oldRid EmptyString); [injection H as _ <-; apply keeps_refl|].
  destruct (findRelationshipById _ _); [|injection H as _ <-; apply keeps_refl].
  destruct (findRelationshipByTypeAndTarget _ _ _ _); [injection H as _ <-; apply keeps_refl|].
  destruct (getAttribute "Type" _) as [ty|]; [|done].
  destruct (Js.endsWith ty "/hyperlink"); [injection H as _ <-; apply keeps_refl|].
  destruct (Js.endsWith ty "/image").
  - destruct (srcZip !! _); [|injection H as _ <-; apply keeps_refl].
    destruct (splitNameExt _) as [name ext]. injection H as _ <-. simpl.
    apply keeps_fresh, uniqueMediaName_fresh.
  - destruct (srcZip !! _); [|injection H as _ <-; apply keeps_refl].
    injection H as _ <-. simpl. apply keeps_fresh, uniquePartPath_fresh.
Qed.

Lemma remapRelIds_keeps srcRels srcZip n b n' b' :
  remapRelIds srcRels srcZip n b = OK (n', b') → keeps [] (baseZip b) (baseZip b').
Proof.
  intros H.
  apply (remapRelIds_inv (λ x, keeps [] (baseZip b) (baseZip x)) srcRels srcZip) in H;
    [done| |apply keeps_refl].
  intros oldRid x r x' Hx Hr. eapply keeps_trans; [exact Hx|].
  by eapply remapRelationship_keeps.
Qed.

Lemma mergeNumberingParts_keeps srcZip b m1 m2 b' :
  mergeNumberingParts srcZip b = OK (m1, m2, b') →
  keeps [P_numbering] (baseZip b) (baseZip b').
Proof.
  unfold mergeNumberingParts. intros H.
  apply bind_OK in H as (x & _ & H). apply bind_OK in H as (y & _ & H).
  repeat match type of H with (let '(_, _) := ?x in _) = _ => destruct x end.
  injection H as _ _ <-. cbn [baseZip withZip]. apply keeps_write. left.
Qed.

Lemma mergeOptionalStylePart_keeps srcZip part skel name zip zip' :
  mergeOptionalStylePart srcZip part skel name zip = OK zip' →
  keeps (match name with Some _ => [part] | None => [] end) zip zip'.
Proof.
  unfold mergeOptionalStylePart. intros H.
  destruct (srcZip !! part); [|injection H as <-; apply keeps_refl].
  destruct name.
  - apply bind_OK in H as (x & _ & H). apply bind_OK in H as (y & _ & H).
    destruct (foldl _ _ _). injection H as <-. apply keeps_write. left.
  - destruct (zip !! part) eqn:E; injection H as <-; [apply keeps_refl|].
    by apply keeps_fresh.
Qed.

Lemma mergeSettingsPart_keeps srcZip zip zip' :
  mergeSettingsPart srcZip zip = OK zip' → keeps [P_settings] zip zip'.
Proof.
  unfold mergeSettingsPart. intros H.
  destruct (srcZip !! P_settings); [|injection H as <-; apply keeps_refl].
  apply bind_OK in H as (x & _ & H). apply bind_OK in H as (y & _ & H).
  injection H as <-. apply keeps_write. left.
Qed.

Lemma mergeStylesPart_keeps srcZip zip zip' :
  mergeStylesPart srcZip zip = OK zip' →
  keeps [P_styles; P_fontTable; P_settings] zip zip'.
Proof.
  unfold mergeStylesPart. intros H.
  apply bind_OK in H as (x & _ & H). apply bind_OK in H as (y & _ & H).
  destruct (foldl _ _ _) as [styles' ?].
  apply bind_OK in H as (z1 & H1 & H). apply bind_OK in H as (z2 & H2 & H).
  apply bind_OK in H as (z3 & H3 & H).
  apply mergeOptionalStylePart_keeps in H1, H2, H3. apply mergeSettingsPart_keeps in H.
  eapply keeps_trans; [apply keeps_write; left|].
  eapply keeps_trans; [eapply keeps_mono; [|exact H1]|].
  { intros k Hk. apply list_elem_of_singleton in Hk as ->. right. left. }
  eapply keeps_trans; [eapply keeps_mono; [|exact H2]|]; [by intros k Hk%elem_of_nil|].
  eapply keeps_trans; [eapply keeps_mono; [|exact H3]|]; [by intros k Hk%elem_of_nil|].
  eapply keeps_mono; [|exact H].
  intros k Hk. apply list_elem_of_singleton in Hk as ->. right. right. left.
Qed.

Lemma mergeNotes_keeps srcZip kind b b' :
  mergeNotes srcZip kind b = OK b' →
  keeps (match kind with
         | footnotes => [P_footnotes; "word/_rels/footnotes.xml.rels"]
         | endnotes => [P_endnotes; "word/_rels/endnotes.xml.rels"]
         end) (baseZip b) (baseZip b').
Proof.
  unfold mergeNotes. intros H.
  apply bind_OK in H as (x & _ & H). apply bind_OK in H as (y & _ & H).
  destruct (foldl mergeNote _ _) as [[notes' ?] idMap].
  apply bind_OK in H as (baseRel & _ & H). apply bind_OK in H as (srcRel & _ & H).
  set (W := match kind with
            | footnotes => [P_footnotes; "word/_rels/footnotes.xml.rels"]
            | endnotes => [P_endnotes; "word/_rels/endnotes.xml.rels"]
            end).
  pose proof (foldl_inv (λ st : node * package, keeps W (baseZip b) st.2)
                (mergeNoteRel (match kind with footnotes => P_footnotes | endnotes => P_endnotes end)
                   srcZip)
                (relationships srcRel) (baseRel, baseZip b)) as Hfold.
  destruct (foldl (mergeNoteRel _ srcZip) _ _) as [baseRel' zip1].
  injection H as <-. cbn [baseZip withNoteMap withZip].
  eapply keeps_trans; [apply Hfold|].
  - intros [rel zip] el Hst. cbn [snd] in Hst. unfold mergeNoteRel.
    destruct (findRelationshipByTypeAndTarget _ _ _ _); [done|].
    destruct (String.eqb _ EmptyString); [|done].
    destruct (srcZip !! _); [|done]. cbn [snd].
    eapply keeps_trans; [exact Hst|]. apply keeps_fresh, uniquePartPath_fresh.
  - apply keeps_refl.
  - eapply keeps_trans; apply keeps_write; unfold W; destruct kind;
      first [by left | by (right; left)].
Qed.

Lemma prepareBody_keeps srcZip opt b body rels b' :
  prepareBody srcZip opt b = OK (body, rels, b') →
  keeps (writtenParts opt) (baseZip b) (baseZip b').
Proof.
  unfold prepareBody, writtenParts. intros H.
  apply bind_OK in H as (srcDoc & _ & H). apply bind_OK in H as (srcBody & _ & H).
  apply bind_OK in H as (srcRels & _ & H).
  apply bind_OK in H as ([body1 b1] & Hnum & H).
  apply bind_OK in H as (b2 & Hsty & H).
  apply bind_OK in H as ([body3 b3] & Hnote & H). injection H as _ _ <-.
  eapply keeps_trans; [|eapply keeps_trans].
  - instantiate (1 := baseZip b1). destruct (r_mergeNumbering opt).
    + apply bind_OK in Hnum as ([[m1 m2] bn] & Hn & Hnum).
      apply bind_OK in Hnum as (? & _ & Hnum). injection Hnum as _ <-.
      eapply keeps_mono; [|by eapply mergeNumberingParts_keeps].
      intros k Hk%list_elem_of_singleton. subst k. do 3 right. left.
    + injection Hnum as _ <-. apply keeps_refl.
  - instantiate (1 := baseZip b2). destruct (r_mergeStyles opt).
    + apply bind_OK in Hsty as (zs & Hs & Hsty). injection Hsty as <-. cbn [baseZip withRels withZip].
      eapply keeps_mono; [|by eapply mergeStylesPart_keeps].
      intros k Hk. rewrite !elem_of_app. right. right. by left.
    + injection Hsty as <-. apply keeps_refl.
  - destruct (r_mergeFootnotes opt).
    + apply bind_OK in Hnote as (bf & Hf & Hnote). apply bind_OK in Hnote as (be & He & Hnote).
      apply bind_OK in Hnote as (? & _ & Hnote). apply bind_OK in Hnote as (? & _ & Hnote).
      injection Hnote as _ <-.
      apply mergeNotes_keeps in Hf, He.
      eapply keeps_trans; (eapply keeps_mono; [|eassumption]).
      * intros k Hk. rewrite !elem_of_app. do 3 right.
        repeat rewrite elem_of_cons in Hk. repeat rewrite elem_of_cons.
        rewrite elem_of_nil in Hk. tauto.
      * intros k Hk. rewrite !elem_of_app. do 3 right.
        repeat rewrite elem_of_cons in Hk. repeat rewrite elem_of_cons.
        rewrite elem_of_nil in Hk. tauto.
    + injection Hnote as _ <-. apply keeps_refl.
Qed.

Lemma importBodyNodes_keeps srcZip opt b nodes b' :
  importBodyNodes srcZip opt b = OK (nodes, b') →
  keeps (writtenParts opt) (baseZip b) (baseZip b').
Proof.
  unfold importBodyNodes. intros H.
  apply bind_OK in H as ([[body rels] b1] & Hp & H). apply prepareBody_keeps in Hp.
  destruct body as [body|]; [|done]. eapply keeps_trans; [exact Hp|].
  apply (foldlM_inv (λ st : list node * base, keeps (writtenParts opt) (baseZip b1) (baseZip st.2))
           _ _ _ _) in H; [done| |apply keeps_refl].
  intros [acc x] n [acc' x'] Hx Hn. cbn [snd] in *. unfold importNodes in Hn.
  destruct (isElement n); [|by injection Hn as _ <-].
  apply bind_OK in Hn as ([imp x2] & Hi & Hn). injection Hn as _ <-.
  eapply keeps_trans; [exact Hx|]. eapply keeps_mono; [|by eapply remapRelIds_keeps].
  by intros k Hk%elem_of_nil.
Qed.

Lemma appendAll_keeps srcs opt atEnd st st' :
  appendAll srcs opt atEnd st = OK st' →
  keeps (writtenParts opt) (baseZip st.2) (baseZip st'.2).
Proof.
  unfold appendAll. intros H.
  apply (foldlM_inv (λ x : node * base, keeps (writtenParts opt) (baseZip st.2) (baseZip x.2))
           _ _ _ _) in H; [done| |apply keeps_refl].
  intros [d1 b1] src [d2 b2] Hx Hs. cbn [snd] in *. eapply keeps_trans; [exact Hx|].
  unfold appendDocInto in Hs. apply bind_OK in Hs as ([ns b3] & Hi & Hs).
  apply importBodyNodes_keeps in Hi.
  destruct (bodyEl d1); [by injection Hs as _ <-|].
  destruct (r_pageBreaks opt); [done|]. destruct ns; [by injection Hs as _ <- | done].
Qed.

Lemma patternStep_keeps srcs opt st st' n l :
  patternStep srcs opt st = OK (st', n, l) →
  keeps (writtenParts opt) (baseZip st.2) (baseZip st'.2).
Proof.
  unfold patternStep. intros H.
  destruct (r_pattern opt) as [text|]; [|injection H as <- _ _; apply keeps_refl].
  destruct (Js.truthy _); [|injection H as <- _ _; apply keeps_refl].
  unfold insertAtPattern in H. apply bind_OK in H as (ms & _ & H).
  destruct ms as [|m0 ms]; [injection H as <- _ _; apply keeps_refl|].
  destruct (splitAnchor m0) as [anchor|]; [|done].
  apply bind_OK in H as ([[a1 d1] b1] & Hf & H). injection H as <- _ _. cbn [snd].
  apply (foldlM_inv (λ x : anchorRef * node * base,
                       keeps (writtenParts opt) (baseZip st.2) (baseZip x.2))
           _ _ _ _) in Hf; [done| |apply keeps_refl].
  intros [[a2 d2] b2] src [[a3 d3] b3] Hx Hs. cbn [snd] in *.
  eapply keeps_trans; [exact Hx|]. unfold insertDocBefore in Hs.
  apply bind_OK in Hs as ([ns b4] & Hi & Hs). apply importBodyNodes_keeps in Hi.
  destruct (foldl _ _ _). by injection Hs as _ _ <-.
Qed.

(** X11. A merge removes no part of the base package, and changes only the
    parts that it writes by name: the main document, its relationships and
    the content types, and, according to the options, the numbering part,
    the styles, font table and settings parts, and the two notes parts
    with their relationships.  Every other part of the base (headers,
    footers, media, theme, custom parts) is in the merged package with the
    content it had. *)
Theorem X11_other_parts_are_kept zips options zip0 zip log :
  head zips = Some zip0 →
  mergeDocx zips options = OK (zip, log) →
  (∀ part, is_Some (zip0 !! part) → is_Some (zip !! part))
  ∧ (∀ part c, part ∉ writtenParts (withDefaults options) →
       zip0 !! part = Some c → zip !! part = Some c).
Proof.
  intros Hz H.
  assert (keeps (writtenParts (withDefaults options)) zip0 zip) as Hk.
  2:{ split; [intros part; apply Hk | intros part c Hp; by apply Hk]. }
  unfold mergeDocx in H. destruct (bool_decide _); [done|].
  destruct (_ && _)%bool; [done|]. destruct zips as [|z srcs]; [done|].
  injection Hz as ->. set (opt := withDefaults options) in *.
  apply bind_OK in H as ([d b0] & Hload & H).
  apply bind_OK in H as ([sect d1] & _ & H).
  apply bind_OK in H as ([d2 b2] & Hstart & H).
  apply bind_OK in H as ([[[d3 b3] n] l] & Hpat & H).
  apply bind_OK in H as ([d4 b4] & Hend & H).
  destruct (bool_decide _); [done|]. injection H as <- _.
  assert (baseZip b0 = zip0) as Hb0.
  { unfold loadBase in Hload. apply bind_OK in Hload as (? & _ & Hload).
    apply bind_OK in Hload as (? & _ & Hload). apply bind_OK in Hload as (? & _ & Hload).
    by injection Hload as _ <-. }
  assert (keeps (writtenParts opt) zip0 (baseZip b2)) as H2.
  { rewrite <- Hb0. destruct (r_insertStart opt); [|injection Hstart as _ <-; apply keeps_refl].
    by apply appendAll_keeps in Hstart. }
  assert (keeps (writtenParts opt) zip0 (baseZip b3)) as H3.
  { eapply keeps_trans; [exact H2|].
    by apply (patternStep_keeps srcs opt (d2, b2)) in Hpat. }
  assert (keeps (writtenParts opt) zip0 (baseZip b4)) as H4.
  { eapply keeps_trans; [exact H3|].
    destruct (r_insertEnd opt); [|injection Hend as _ <-; apply keeps_refl].
    by apply appendAll_keeps in Hend. }
  eapply keeps_trans; [exact H4|].
  unfold writtenParts.
  eapply keeps_trans; [apply (keeps_write _ P_document); left|].
  eapply keeps_trans; [apply (keeps_write _ P_docRels); right; left|].
  apply keeps_write. do 2 right. left.
Qed.

(** A header of the base, after a merge. *)
Lemma X11_witness :
  ∃ zip log,
    mergeDocx [packageWithHeader; packageOf [paragraph "Src"]] endOnly = OK (zip, log)
    ∧ zip !! "word/header1.xml" = Some (Bin "header").
Proof.
  destruct (returned_OK (mergeDocx [packageWithHeader; packageOf [paragraph "Src"]] endOnly))
    as [[zip log] E]; [vm_compute; reflexivity|].
  exists zip, log. split; [exact E|].
  apply (proj2 (X11_other_parts_are_kept
                  [packageWithHeader; packageOf [paragraph "Src"]] endOnly
                  packageWithHeader zip log eq_refl E)).
  - change (writtenParts (withDefaults endOnly))
      with [P_document; P_docRels; P_ct; P_numbering; P_styles; P_fontTable; P_settings;
            P_footnotes; "word/_rels/footnotes.xml.rels";
            P_endnotes; "word/_rels/endnotes.xml.rels"].
    rewrite !not_elem_of_cons. split_and!; (discriminate || apply not_elem_of_nil).
  - vm_compute. reflexivity.
Defined.

(** ** Appending the sources *)

Lemma appendChildren_at bp q a ns : ∀ cs d,
  get_at bp d = Some (Elem q a cs) →
  get_at bp (foldl (λ doc n, update_at bp (appendChild n) doc) d ns)
  = Some (Elem q a (cs ++ ns)).
Proof.
  induction ns as [|n ns IH]; intros cs d Hg; simpl; [by rewrite app_nil_r|].
  rewrite (IH (cs ++ [n])); [by rewrite <- app_assoc|].
  by rewrite (get_update_eq _ _ _ _ Hg).
Qed.

Lemma last_is_Some {A} (l : list A) : is_Some (last l) ↔ l ≠ [].
Proof.
  split.
  - intros [x Hx] ->. done.
  - intros Hne. destruct l as [|a l] using rev_ind; [done|]. rewrite last_snoc. by eexists.
Qed.

Lemma appendDocInto_children bp q a cs srcZip opt atEnd d b d' b' :
  bodyEl d = Some bp → get_at bp d = Some (Elem q a cs) →
  appendDocInto srcZip opt atEnd (d, b) = OK (d', b') →
  ∃ ns, importBodyNodes srcZip opt b = OK (ns, b')
        ∧ bodyEl d' = Some bp
        ∧ get_at bp d' = Some (Elem q a (appendBlock (r_pageBreaks opt) cs ns)).
Proof.
  intros Hb Hg H.
  assert (bodyAt bp q a d') as [Hb' _].
  { eapply appendDocInto_bodyAt; [|exact H]. split; [done | by exists cs]. }
  unfold appendDocInto in H. apply bind_OK in H as ([ns b1] & Hi & H).
  rewrite Hb in H. injection H as <- <-. exists ns. split_and!; [done|done|].
  unfold appendBlock. rewrite Hg. cbn [mbind option_bind childNodes].
  rewrite (bool_decide_ext _ _ (last_is_Some cs)).
  destruct (r_pageBreaks opt && bool_decide (cs ≠ []))%bool.
  - rewrite (appendChildren_at bp q a ns (cs ++ [makePageBreak]));
      [by rewrite <- app_assoc|].
    by rewrite (get_update_eq _ _ _ _ Hg).
  - by apply appendChildren_at.
Qed.

(** X12. The insertStart and insertEnd loops append to the base body, in
    the order of the source array, the nodes that importing each source
    yields; with pageBreaks, a page-break paragraph comes before the nodes
    of a source whenever the body is not empty at that point.  The
    children that the body had stay in front, in their order.  Without
    pageBreaks the body is its former children followed by the imported
    nodes of all sources. *)
Theorem X12_sources_are_appended_in_order srcs opt atEnd bp q a : ∀ cs d b d' b',
  bodyEl d = Some bp → get_at bp d = Some (Elem q a cs) →
  appendAll srcs opt atEnd (d, b) = OK (d', b') →
  ∃ nss, importAll srcs opt b = OK (nss, b')
         ∧ bodyEl d' = Some bp
         ∧ get_at bp d' = Some (Elem q a (appendBlocks (r_pageBreaks opt) cs nss))
         ∧ (r_pageBreaks opt = false →
            appendBlocks (r_pageBreaks opt) cs nss = cs ++ concat nss).
Proof.
  unfold appendAll.
  induction srcs as [|src srcs IH]; intros cs d b d' b' Hb Hg H; simpl in H.
  - injection H as <- <-. exists []. split_and!; try done. intros _. simpl. by rewrite app_nil_r.
  - apply bind_OK in H as ([d1 b1] & H1 & H).
    destruct (appendDocInto_children bp q a cs src opt atEnd d b d1 b1 Hb Hg H1)
      as (ns & Hi & Hb1 & Hg1).
    destruct (IH _ d1 b1 d' b' Hb1 Hg1 H) as (nss & Hall & Hb' & Hg' & Hno).
    exists (ns :: nss). split_and!; [|done|done|].
    + simpl. rewrite Hi. simpl. by rewrite Hall.
    + intros Hpb. simpl. rewrite (Hno Hpb). unfold appendBlock. rewrite Hpb. simpl.
      by rewrite <- app_assoc.
Qed.

(** Two sources appended to a base of one paragraph, with page breaks. *)
Lemma X12_witness :
  ∃ d' b' nss,
    appendAll [packageOf [paragraph "First"]; packageOf [paragraph "Second"]]
      (withDefaults endWithBreaks) true
      (documentOf [paragraph "Base"], loaded [paragraph "Base"]) = OK (d', b')
    ∧ get_at [O] d'
      = Some (Elem (wName "body") []
                (appendBlocks true [paragraph "Base"] nss)).
Proof.
  destruct (returned_OK
              (appendAll [packageOf [paragraph "First"]; packageOf [paragraph "Second"]]
                 (withDefaults endWithBreaks) true
                 (documentOf [paragraph "Base"], loaded [paragraph "Base"])))
    as [[d' b'] E]; [vm_compute; reflexivity|].
  destruct (X12_sources_are_appended_in_order
              [packageOf [paragraph "First"]; packageOf [paragraph "Second"]]
              (withDefaults endWithBreaks) true [O] (wName "body") []
              [paragraph "Base"] (documentOf [paragraph "Base"]) (loaded [paragraph "Base"])
              d' b' eq_refl eq_refl E) as (nss & _ & _ & Hg & _).
  by exists d', b', nss.
Defined.

(** ** The relationships of the style parts *)

Lemma ensureStyleRelationships_fold baseRels :
  ensureStyleRelationships baseRels = foldl ensureRelationship baseRels styleRelationships.
Proof. reflexivity. Qed.

Lemma ensureRelationship_isElement r tt :
  isElement r = true → isElement (ensureRelationship r tt) = true.
Proof.
  intros H. unfold ensureRelationship. destruct (findRelationshipByTypeAndTarget _ _ _ _); [done|].
  by apply addRelationship_isElement.
Qed.

Lemma find_kept r id type target mode ty tg m :
  isElement r = true →
  is_Some (findRelationshipByTypeAndTarget r ty tg m) →
  is_Some (findRelationshipByTypeAndTarget (addRelationship id type target mode r) ty tg m).
Proof.
  intros Hel [el H]. unfold findRelationshipByTypeAndTarget in *.
  destruct (proj1 (find_relationships_add _ id type target mode r
                     (byTypeAndTarget_readsAttributes ty tg m) Hel) el H) as (el' & -> & _).
  by eexists.
Qed.

Lemma ensureRelationship_kept r tt ty tg m :
  isElement r = true →
  is_Some (findRelationshipByTypeAndTarget r ty tg m) →
  is_Some (findRelationshipByTypeAndTarget (ensureRelationship r tt) ty tg m).
Proof.
  intros Hel H. unfold ensureRelationship.
  destruct (findRelationshipByTypeAndTarget r (Some tt.1) _ _); [done|]. by apply find_kept.
Qed.

Lemma ensureRelationship_found r tt :
  isElement r = true →
  is_Some (findRelationshipByTypeAndTarget (ensureRelationship r tt)
             (Some tt.1) (Some tt.2) None).
Proof.
  intros Hel. unfold ensureRelationship.
  destruct (findRelationshipByTypeAndTarget r (Some tt.1) (Some tt.2) None) eqn:E;
    [by rewrite E|].
  destruct (find_added r (allocRid r) tt.1 tt.2 None None Hel E eq_refl) as (el & -> & _).
  by eexists.
Qed.

Lemma ensure_fold_isElement l : ∀ r,
  isElement r = true → isElement (foldl ensureRelationship r l) = true.
Proof. induction l as [|tt l IH]; intros r H; simpl; [done|]. by apply IH, ensureRelationship_isElement. Qed.

Lemma ensure_fold_kept l ty tg m : ∀ r,
  isElement r = true →
  is_Some (findRelationshipByTypeAndTarget r ty tg m) →
  is_Some (findRelationshipByTypeAndTarget (foldl ensureRelationship r l) ty tg m).
Proof.
  induction l as [|tt l IH]; intros r Hel H; simpl; [done|].
  apply IH; [by apply ensureRelationship_isElement | by apply ensureRelationship_kept].
Qed.

Lemma ensure_fold_found l : ∀ r tt,
  isElement r = true → tt ∈ l →
  is_Some (findRelationshipByTypeAndTarget (foldl ensureRelationship r l)
             (Some tt.1) (Some tt.2) None).
Proof.
  induction l as [|t l IH]; intros r tt Hel Hin; simpl; [by apply elem_of_nil in Hin|].
  apply elem_of_cons in Hin as [->|Hin].
  - apply ensure_fold_kept; [by apply ensureRelationship_isElement|].
    by apply ensureRelationship_found.
  - apply IH; [by apply ensureRelationship_isElement | done].
Qed.

Lemma ensure_fold_id l : ∀ r,
  (∀ tt, tt ∈ l → is_Some (findRelationshipByTypeAndTarget r (Some tt.1) (Some tt.2) None)) →
  foldl ensureRelationship r l = r.
Proof.
  induction l as [|t l IH]; intros r H; simpl; [done|].
  assert (ensureRelationship r t = r) as ->.
  { unfold ensureRelationship. destruct (H t) as [el ->]; [left | done]. }
  apply IH. intros tt Hin. apply H. by right.
Qed.

Lemma ridsFrom_S m k : ridsFrom m (S k) = ridsFrom m k ++ ["rId" +:+ Js.ofZ (m + 1 + Z.of_nat k)].
Proof. unfold ridsFrom. by rewrite seq_S, fmap_app. Qed.

(** The IDs that the loop adds are those that repeated allocation gives. *)
Lemma ensure_fold_ids l : ∀ r,
  isElement r = true →
  ∃ k, (k ≤ length l)%nat
       ∧ relIds (foldl ensureRelationship r l) = relIds r ++ ridsFrom (ridMax r) k
       ∧ ridMax (foldl ensureRelationship r l) = ridMax r + Z.of_nat k.
Proof.
  induction l as [|tt l IH] using rev_ind; intros r Hel.
  - exists O. cbn [foldl length]. split_and!; [done | by rewrite app_nil_r | lia].
  - destruct (IH r Hel) as (k & Hk & Hids & Hmax). rewrite foldl_app. cbn [foldl].
    set (r1 := foldl ensureRelationship r l) in *.
    assert (isElement r1 = true) as Hel1 by by apply ensure_fold_isElement.
    unfold ensureRelationship.
    destruct (findRelationshipByTypeAndTarget r1 _ _ _).
    + exists k. split_and!; [rewrite length_app; simpl; clear -Hk; lia|done|done].
    + exists (S k). split_and!; [rewrite length_app; simpl; clear -Hk; lia| |].
      * rewrite relIds_addRelationship, Hids, ridsFrom_S, allocRid_max, Hmax by done.
        rewrite <- app_assoc.
        by replace (ridMax r + Z.of_nat k + 1) with (ridMax r + 1 + Z.of_nat k) by lia.
      * rewrite ridMax_addRelationship, Hmax by done. lia.
Qed.

Lemma ridsFrom_elem m k id :
  id ∈ ridsFrom m k → ∃ j, (j < k)%nat ∧ id = "rId" +:+ Js.ofZ (m + 1 + Z.of_nat j).
Proof.
  unfold ridsFrom. intros (j & -> & Hj)%list_elem_of_fmap.
  apply elem_of_seq in Hj. exists j. split; [lia | done].
Qed.

Lemma ridsFrom_NoDup m k : NoDup (ridsFrom m k).
Proof.
  unfold ridsFrom. apply NoDup_fmap_2; [|apply NoDup_seq].
  intros i j H. apply append_inj_l, ofZ_inj in H. lia.
Qed.

Lemma ridsFrom_fresh r k id : id ∈ ridsFrom (ridMax r) k → id ∉ relIds r.
Proof.
  intros (j & Hj & ->)%ridsFrom_elem Hin. unfold relIds in Hin.
  apply list_elem_of_fmap in Hin as (el & Heq & Hel).
  destruct (getAttribute "Id" el) as [i|] eqn:Hi; simpl in Heq.
  - destruct (String.eqb i EmptyString); [done|]. subst i.
    by apply (rId_fresh r el (Z.of_nat j) ltac:(lia)) in Hel.
  - done.
Qed.



(** ** The numbers of the copied instances *)

Lemma maxList_numbers (ids : list Z) : Js.maxList (Some <$> ids) = Some (foldl Z.max 0 ids).
Proof.
  unfold Js.maxList. generalize 0. induction ids as [|z ids IH]; intros m; simpl; [done|].
  apply IH.
Qed.

Lemma foldl_max_ge (ids : list Z) : ∀ m z, z = m ∨ z ∈ ids → z ≤ foldl Z.max m ids.
Proof.
  induction ids as [|y ids IH]; intros m z H; simpl.
  - destruct H as [->|H%elem_of_nil]; [lia | done].
  - destruct H as [->|[->|H]%elem_of_cons].
    + transitivity (Z.max m y); [lia|]. apply IH. by left.
    + transitivity (Z.max m y); [lia|]. apply IH. by left.
    + apply IH. by right.
Qed.

Lemma assign_numbers (xs : list node) : ∀ m,
  (assign (Some m) xs).*1 = (λ k, Some (m + 1 + Z.of_nat k)) <$> seq 0 (length xs).
Proof.
  induction xs as [|x xs IH]; intros m; [done|].
  cbn [assign fmap list_fmap length seq fst]. f_equal; [simpl; f_equal; lia|].
  change (Js.incr (Some m)) with (Some (Z.succ m)). rewrite IH.
  rewrite <- (fmap_S_seq 0), <- list_fmap_compose. apply list_fmap_ext.
  intros i k _. simpl. f_equal. lia.
Qed.

(** The instances of the merged table are those of the base followed by
    the renumbered instances of the source. *)
Lemma merged_instances srcNum baseNum absIdMap mxA mxN :
  isElement baseNum = true → flatTable srcNum = true →
  instances (appendChildren
               ((λ nx, renumberNum absIdMap nx.1 nx.2) <$> assign mxN (instances srcNum))
               (appendChildren
                  ((λ nx, renumberAbstractNum nx.1 nx.2)
                     <$> assign mxA (abstractDefinitions srcNum)) baseNum))
  = instances baseNum
    ++ ((λ nx, renumberNum absIdMap nx.1 nx.2) <$> assign mxN (instances srcNum)).
Proof.
  intros Hel Hflat. unfold instances at 1. rewrite getElementsByTagNameNS_append2 by done.
  rewrite flat_map_app. fold (instances baseNum). f_equal.
  rewrite flat_map_empty, flat_map_singletons; [done| |].
  - intros c ([new x] & -> & Hin)%list_elem_of_fmap. simpl.
    apply (list_elem_of_fmap_2 snd) in Hin. rewrite assign_snd in Hin. simpl in Hin.
    destruct (getElements_hasTag _ _ _ _ Hin) as [Htag _].
    rewrite (flat_entry srcNum x); [|done|by right|apply renumberNum_shape].
    assert (hasTagNS NS_w "num" (renumberNum absIdMap new x) = true) as ->; [|done].
    by rewrite <- hasTagNS_shape, renumberNum_shape, hasTagNS_shape.
  - intros c ([new x] & -> & Hin)%list_elem_of_fmap. simpl.
    apply (list_elem_of_fmap_2 snd) in Hin. rewrite assign_snd in Hin. simpl in Hin.
    destruct (getElements_hasTag _ _ _ _ Hin) as [Htag _].
    rewrite (flat_entry srcNum x); [|done|by left|].
    + rewrite hasTagNS_abstractNum_num; [done|].
      unfold renumberAbstractNum. by rewrite setAttributeNS_hasTagNS.
    + apply shape_rootAttrOnly, rootAttrOnly_setAttributeNS.
Qed.

Lemma copies_numbers absIdMap mxN xs :
  (∀ x, x ∈ xs → isElement x = true) →
  srcNumId <$> ((λ nx, renumberNum absIdMap nx.1 nx.2) <$> assign mxN xs)
  = (assign mxN xs).*1.
Proof.
  intros Hel. rewrite <- list_fmap_compose. apply list_fmap_ext.
  intros i [new x] Hi. simpl. apply renumberNum_id, Hel.
  apply list_elem_of_lookup_2 in Hi. apply (list_elem_of_fmap_2 snd) in Hi.
  by rewrite assign_snd in Hi.
Qed.



(** ** Elements and their paths *)

Lemma childPaths_lookup cs : ∀ k i c p,
  cs !! i = Some c → p ∈ elementPaths c → (k + i)%nat :: p ∈ childPaths k cs.
Proof.
  induction cs as [|c0 cs IH]; intros k i c p Hi Hp; [done|]. simpl.
  apply elem_of_app. destruct i as [|i]; simpl in Hi.
  - injection Hi as ->. left. rewrite Nat.add_0_r. by apply list_elem_of_fmap_2.
  - right. replace (k + S i)%nat with (S k + i)%nat by lia. by eapply IH.
Qed.

Lemma get_at_elementPaths p : ∀ t e,
  get_at p t = Some e → isElement e = true → p ∈ elementPaths t.
Proof.
  induction p as [|i p IH]; intros t e Hg He.
  - injection Hg as ->. destruct e; [left | done].
  - destruct t as [q a cs|s]; [|done]. simpl in Hg.
    destruct (cs !! i) as [c|] eqn:Hc; [|done]. simpl in Hg.
    rewrite elementPaths_Elem. right.
    apply (childPaths_lookup cs O i c p Hc). by eapply IH.
Qed.

Lemma pathsBelow_elem test t p e :
  p ≠ [] → get_at p t = Some e → test e = true → isElement e = true →
  p ∈ pathsBelow test t.
Proof.
  intros Hne Hg Ht He. apply list_elem_of_filter. split; [done|].
  apply list_elem_of_filter. split; [by rewrite Hg; simpl; rewrite Ht|].
  by eapply get_at_elementPaths.
Qed.

(** ** A loop of in-place updates of attributes *)

Lemma get_at_update_None p f t : get_at p t = None → get_at p (update_at p f t) = None.
Proof.
  revert t. induction p as [|i p IH]; intros t; simpl; [done|].
  destruct t as [q a cs|s]; simpl; [|done].
  rewrite list_lookup_alter_eq. destruct (cs !! i) as [c|]; simpl; [apply IH | done].
Qed.

Lemma update_fold_attributes f ps :
  rootAttrOnly f → readsOwnAttributes f → NoDup ps →
  ∀ b p,
    attributes <$> get_at p (foldl (λ b q, update_at q f b) b ps)
    = attributes <$> (if bool_decide (p ∈ ps) then f <$> get_at p b else get_at p b).
Proof.
  intros Hroot Hown. induction ps as [|q ps IH]; intros Hnd b p; cbn [foldl].
  - rewrite bool_decide_false; [done|]. apply not_elem_of_nil.
  - apply NoDup_cons in Hnd as [Hq Hnd]. rewrite (IH Hnd).
    destruct (decide (p = q)) as [->|Hne].
    + rewrite (bool_decide_false (q ∈ ps)), (bool_decide_true (q ∈ q :: ps)); [|left|done].
      destruct (get_at q b) as [e|] eqn:E.
      * by rewrite (get_update_eq _ _ _ _ E).
      * by rewrite get_at_update_None.
    + pose proof (get_at_update_ne q p f b Hroot Hne) as Hat.
      rewrite (bool_decide_ext (p ∈ q :: ps) (p ∈ ps)).
      2:{ rewrite elem_of_cons. split; [by intros [?|?] | by right]. }
      destruct (bool_decide (p ∈ ps)); [|done].
      pose proof (get_at_shape_eq p _ _ (shape_update_at q f b
                    (λ x, shape_rootAttrOnly f x Hroot))) as Hsh.
      destruct (get_at p (update_at q f b)) as [x|], (get_at p b) as [y|]; simplify_eq/=;
        [|done]. f_equal. apply Hown; [|done]. by destruct x, y.
Qed.

Lemma update_fold_shape f ps :
  rootAttrOnly f → ∀ b, shape (foldl (λ b q, update_at q f b) b ps) = shape b.
Proof.
  intros Hroot. induction ps as [|q ps IH]; intros b; simpl; [done|].
  rewrite IH. apply shape_update_at. intros x. by apply shape_rootAttrOnly.
Qed.

(** ** References to notes *)

Lemma remapNoteRef_readsOwnAttributes idMap : readsOwnAttributes (remapNoteRef idMap).
Proof.
  intros x y He H. unfold remapNoteRef, noteId.
  rewrite (readW_attributes _ _ _ _ x y H).
  destruct (idMap !! _); [|done].
  destruct x as [q a cs|s], y as [q' a' cs'|s']; simpl in *; by subst.
Qed.

Lemma remapNoteRef_noteId idMap r :
  isElement r = true →
  noteId "NaN" (remapNoteRef idMap r)
  = default (noteId "NaN" r) (idMap !! noteId "NaN" r).
Proof.
  intros Hel. unfold remapNoteRef. destruct (idMap !! _) as [new|]; [|done].
  simpl. by apply readW_setAttributeNS.
Qed.

Lemma tags_differ r :
  hasTagNS NS_w "footnoteReference" r = true → hasTagNS NS_w "endnoteReference" r = false.
Proof.
  destruct r as [[ns pre loc] ? ?|]; [|done]. unfold hasTagNS. simpl.
  intros [_ H%String.eqb_eq]%andb_true_iff. subst loc. by rewrite andb_false_r.
Qed.

(** X15. [remapNoteRefsInBody] applies the one map it is given to the
    references of both kinds: with a map that is not empty, every
    [w:footnoteReference] and every [w:endnoteReference] below the body
    whose ID the map binds reads the bound ID afterwards, and one whose ID
    the map does not bind keeps its ID; each reference is rewritten once,
    and the attributes of every other element are left as they were.  (The
    map of the footnotes is thus applied to the endnote references as
    well, and the map of the endnotes to the footnote references.) *)
Theorem X15_references_of_both_kinds_are_rewritten idMap body p r :
  size idMap ≠ O →
  p ≠ [] →
  get_at p body = Some r →
  isElement r = true →
  ∃ r', get_at p (remapNoteRefsInBody idMap body) = Some r'
        ∧ (isNoteReference r = true →
           noteId "NaN" r' = default (noteId "NaN" r) (idMap !! noteId "NaN" r))
        ∧ (isNoteReference r = false → attributes r' = attributes r).
Proof.
  intros Hsize Hne Hg Hel. unfold remapNoteRefsInBody.
  rewrite bool_decide_false by done. cbn [foldl].
  set (f := remapNoteRef idMap).
  set (ps1 := pathsBelow (hasTagNS NS_w "footnoteReference") body).
  set (b1 := foldl (λ b q, update_at q f b) body ps1).
  assert (shape b1 = shape body) as Hshape
    by apply update_fold_shape, remapNoteRef_rootAttrOnly.
  rewrite (pathsBelow_shape_eq NS_w "endnoteReference" b1 body Hshape).
  set (ps2 := pathsBelow (hasTagNS NS_w "endnoteReference") body).
  pose proof (update_fold_attributes f ps1 (remapNoteRef_rootAttrOnly idMap)
                (remapNoteRef_readsOwnAttributes idMap) (pathsBelow_NoDup _ _) body p) as H1.
  pose proof (update_fold_attributes f ps2 (remapNoteRef_rootAttrOnly idMap)
                (remapNoteRef_readsOwnAttributes idMap) (pathsBelow_NoDup _ _) b1 p) as H2.
  fold b1 in H1. rewrite Hg in H1.
  assert (shape (foldl (λ b q, update_at q f b) b1 ps2) = shape body) as Hshape2.
  { rewrite <- Hshape. apply update_fold_shape, remapNoteRef_rootAttrOnly. }
  destruct (get_at_shape_eq_Some p body _ r (eq_sym Hshape2) Hg) as (r' & Hr' & _).
  destruct (get_at_shape_eq_Some p body _ r (eq_sym Hshape) Hg) as (r1 & Hr1 & _).
  rewrite Hr' in H2 |- *. rewrite Hr1 in H1, H2. simpl in H1, H2.
  exists r'. split; [done|].
  assert (p ∈ ps1 ↔ hasTagNS NS_w "footnoteReference" r = true) as Hin1.
  { split.
    - intros (_ & e & He & Ht)%elem_of_pathsBelow. congruence.
    - intros Ht. by apply (pathsBelow_elem _ body p r). }
  assert (p ∈ ps2 ↔ hasTagNS NS_w "endnoteReference" r = true) as Hin2.
  { split.
    - intros (_ & e & He & Ht)%elem_of_pathsBelow. congruence.
    - intros Ht. by apply (pathsBelow_elem _ body p r). }
  unfold isNoteReference.
  destruct (hasTagNS NS_w "footnoteReference" r) eqn:Ef.
  - rewrite (bool_decide_true (p ∈ ps1)) in H1 by by apply Hin1.
    rewrite (bool_decide_false (p ∈ ps2)) in H2.
    2:{ rewrite Hin2. by rewrite (tags_differ r Ef). }
    simpl in H1, H2. injection H1 as H1. injection H2 as H2.
    split; [intros _ | done].
    unfold noteId at 1. rewrite (readW_attributes _ _ _ _ r' (f r)) by congruence.
    by apply remapNoteRef_noteId.
  - rewrite (bool_decide_false (p ∈ ps1)) in H1 by (rewrite Hin1; congruence).
    simpl in H1. injection H1 as H1.
    destruct (hasTagNS NS_w "endnoteReference" r) eqn:Ee.
    + rewrite (bool_decide_true (p ∈ ps2)) in H2 by by apply Hin2.
      simpl in H2. injection H2 as H2. split; [intros _ | done].
      unfold noteId at 1. rewrite (readW_attributes _ _ _ _ r' (f r1)) by congruence.
      unfold f. rewrite remapNoteRef_noteId.
      * unfold noteId. by rewrite (readW_attributes _ _ _ _ r1 r H1).
      * destruct r1, r; simpl in *; try done.
        pose proof (get_at_shape_eq p body b1 (eq_sym Hshape)) as Hs.
        rewrite Hg, Hr1 in Hs. done.
    + rewrite (bool_decide_false (p ∈ ps2)) in H2 by (rewrite Hin2; congruence).
      simpl in H2. injection H2 as H2. split; [done | intros _; congruence].
Qed.

(** An endnote reference, rewritten with a map that sends 1 to 5. *)
Lemma X15_witness :
  ∃ r', get_at [O] (remapNoteRefsInBody oneToFive
                      (Elem (wName "body") [] [noteReference "endnoteReference" "1"]))
        = Some r'
        ∧ noteId "NaN" r' = Some 5.
Proof.
  destruct (X15_references_of_both_kinds_are_rewritten oneToFive
              (Elem (wName "body") [] [noteReference "endnoteReference" "1"]) [O]
              (noteReference "endnoteReference" "1"))
    as (r' & Hg & Href & _).
  - vm_compute. lia.
  - discriminate.
  - reflexivity.
  - reflexivity.
  - exists r'. split; [exact Hg|]. rewrite (Href eq_refl). vm_compute. reflexivity.
Defined.

(** ** What an import leaves of the source *)

Lemma attrIsNS_rewritable ns loc a :
  attrIsNS ns loc a = true → rewritable a = rewritableName ns loc.
Proof.
  unfold attrIsNS, rewritable. intros [H1 H2]%andb_true_iff.
  apply String.eqb_eq in H1, H2. by rewrite H1, H2.
Qed.

Lemma filter_setAttr_rewritable ns loc new l :
  rewritableName ns loc = true → rewritable new = true →
  filter (λ x, rewritable x = false) (setAttr (attrIsNS ns loc) new l)
  = filter (λ x, rewritable x = false) l.
Proof.
  intros Hn Hnew. induction l as [|a l IH]; simpl.
  - rewrite filter_cons_False, filter_nil; [done | congruence].
  - destruct (attrIsNS ns loc a) eqn:E.
    + pose proof (attrIsNS_rewritable ns loc a E) as Ha.
      rewrite !filter_cons_False; [done | congruence |].
      unfold rewritable in *. simpl. congruence.
    + by rewrite !filter_cons, IH.
Qed.

Lemma filter_removeAttr_rewritable ns loc l :
  rewritableName ns loc = true →
  filter (λ x, rewritable x = false) (removeAttr (attrIsNS ns loc) l)
  = filter (λ x, rewritable x = false) l.
Proof.
  intros Hn. induction l as [|a l IH]; simpl; [done|].
  destruct (attrIsNS ns loc a) eqn:E.
  - pose proof (attrIsNS_rewritable ns loc a E) as Ha.
    rewrite filter_cons_False; [done | congruence].
  - by rewrite !filter_cons, IH.
Qed.

Lemma importView_setAttributeNS ns pre loc v el :
  rewritableName ns loc = true →
  importView (setAttributeNS ns pre loc v el) = importView el.
Proof.
  intros Hn. destruct el as [q a cs|]; [|done]. simpl. f_equal.
  by apply filter_setAttr_rewritable.
Qed.

Lemma importView_removeAttributeNS ns loc el :
  rewritableName ns loc = true →
  importView (removeAttributeNS ns loc el) = importView el.
Proof.
  intros Hn. destruct el as [q a cs|]; [|done]. simpl. f_equal.
  by apply filter_removeAttr_rewritable.
Qed.

Lemma importView_update_at p f t :
  (∀ x, importView (f x) = importView x) →
  importView (update_at p f t) = importView t.
Proof.
  intros Hf. revert t. induction p as [|i p IH]; intros t; simpl; [done|].
  destruct t as [q a cs|s]; [|done]. simpl. f_equal.
  change (map importView ?l) with (importView <$> l). apply list_eq. intros j.
  rewrite !list_lookup_fmap. destruct (decide (i = j)) as [->|Hij].
  - rewrite list_lookup_alter_eq. destruct (cs !! j) as [c|]; simpl; [|done].
    by rewrite IH.
  - by rewrite list_lookup_alter_ne.
Qed.

Lemma importView_remapParagraph M p : importView (remapParagraph M p) = importView p.
Proof.
  unfold remapParagraph. destruct (numIdRef p) as [r|]; [|done].
  destruct (get_at r p); [|done]. destruct (M !! _); [|done].
  destruct (Js.isFinite _); [|done]. apply importView_update_at. intros x.
  by apply importView_setAttributeNS.
Qed.

Lemma importView_remapNumberingInBody M body :
  importView (remapNumberingInBody M body) = importView body.
Proof.
  unfold remapNumberingInBody. generalize (pathsBelow (hasTagNS NS_w "p") body).
  intros ps. revert body. induction ps as [|p ps IH]; intros body; [done|].
  simpl. rewrite IH. apply importView_update_at, importView_remapParagraph.
Qed.

Lemma importView_remapNoteRefsInBody m body :
  importView (remapNoteRefsInBody m body) = importView body.
Proof.
  unfold remapNoteRefsInBody. case_bool_decide; [done|].
  assert (∀ ps b, importView (foldl (λ b p, update_at p (remapNoteRef m) b) b ps)
                  = importView b) as Hfold.
  { induction ps as [|p ps IH]; intros b; [done|]. simpl. rewrite IH.
    apply importView_update_at. intros x. unfold remapNoteRef.
    destruct (m !! _); [|done]. by apply importView_setAttributeNS. }
  simpl. by rewrite !Hfold.
Qed.

Lemma importView_remapAttribute srcRels srcZip el b a el' b' :
  remapAttribute srcRels srcZip (el, b) a = OK (el', b') →
  importView el' = importView el.
Proof.
  unfold remapAttribute. destruct (needsRemap a); [|by intros [= <- <-]].
  intros H. apply bind_OK in H as ([newRid b1] & _ & H).
  destruct newRid as [rid|]; [destruct (Js.truthy _)|]; injection H as <- <-;
    by auto using importView_setAttributeNS, importView_removeAttributeNS.
Qed.

Lemma importView_remapAttributes srcRels srcZip attrs : ∀ el b el' b',
  foldlM (remapAttribute srcRels srcZip) (el, b) attrs = OK (el', b') →
  importView el' = importView el.
Proof.
  induction attrs as [|a attrs IH]; intros el b el' b' H; simpl in H.
  - by injection H as <- <-.
  - apply bind_OK in H as ([el1 b1] & H1 & H).
    rewrite (IH _ _ _ _ H). by apply importView_remapAttribute in H1.
Qed.

Lemma importView_remapRelIds srcRels srcZip n : ∀ b n' b',
  remapRelIds srcRels srcZip n b = OK (n', b') → importView n' = importView n.
Proof.
  induction n as [s|q a cs IH] using node_ind; intros b n' b' H; simpl in H.
  - by injection H as <- <-.
  - apply bind_OK in H as ([el b1] & Hattrs & H).
    apply bind_OK in H as ([cs' b2] & Hcs & H). injection H as <- <-.
    apply importView_remapAttributes in Hattrs.
    destruct el as [q' a' cs0|]; [|done]. simpl in Hattrs. injection Hattrs as -> Ha _.
    simpl. f_equal; [done|].
    clear Ha. revert b1 cs' b2 Hcs. induction cs as [|c cs IHcs]; intros b1 cs' b2 Hcs.
    + by injection Hcs as <- <-.
    + apply Forall_cons in IH as [Hc Hall].
      apply bind_OK in Hcs as ([c' b3] & Hc' & Hcs).
      apply bind_OK in Hcs as ([l'' b4] & Hl & Hcs). injection Hcs as <- <-.
      simpl. f_equal; [by apply (Hc b1 c' b3) | by apply (IHcs Hall b3 l'' b4)].
Qed.

Lemma isElement_importView n : isElement (importView n) = isElement n.
Proof. by destruct n. Qed.

Lemma textContent_importView n : textContent (importView n) = textContent n.
Proof.
  induction n as [s|q a cs IH] using node_ind; [done|]. simpl.
  induction cs as [|c cs IHcs]; [done|]. apply Forall_cons in IH as [Hc Hcs].
  simpl. by rewrite Hc, IHcs.
Qed.

Lemma filter_isElement_importView (l l' : list node) :
  importView <$> l = importView <$> l' →
  importView <$> filter (λ n, isElement n = true) l
  = importView <$> filter (λ n, isElement n = true) l'.
Proof.
  revert l'. induction l as [|x l IH]; intros [|y l'] H; try done.
  rewrite !fmap_cons in H. injection H as Hxy H. rewrite !filter_cons.
  assert (isElement x = isElement y) as He
    by by rewrite <- (isElement_importView x), Hxy, isElement_importView.
  rewrite He. destruct (decide (isElement y = true)); rewrite ?fmap_cons, ?Hxy; [f_equal|];
    by apply IH.
Qed.

Lemma childNodes_importView x y :
  importView x = importView y →
  importView <$> childNodes x = importView <$> childNodes y.
Proof. destruct x, y; simpl; try done. by intros [= _ _ H]. Qed.

(** The import loop yields one node per element among the children, in
    their order. *)
Lemma importNodes_importView srcRels srcZip cs : ∀ acc b nodes b',
  foldlM (importNodes srcRels srcZip) (acc, b) cs = OK (nodes, b') →
  importView <$> nodes
  = (importView <$> acc) ++ (importView <$> filter (λ n, isElement n = true) cs).
Proof.
  induction cs as [|c cs IH]; intros acc b nodes b' H; simpl in H.
  - injection H as <- <-. by rewrite app_nil_r.
  - apply bind_OK in H as ([acc1 b1] & Hc & H). apply IH in H. rewrite H.
    rewrite filter_cons. unfold importNodes in Hc. destruct (isElement c) eqn:E.
    + apply bind_OK in Hc as ([imported b2] & Hi & Hc). injection Hc as <- <-.
      apply importView_remapRelIds in Hi.
      rewrite decide_True by done. rewrite fmap_app, fmap_cons, <- app_assoc. simpl.
      by rewrite Hi.
    + injection Hc as <- <-. rewrite decide_False; [done | congruence].
Qed.

(** X16. An import writes three attributes and nothing else: [w:val],
    [w:id] and [r:id], each taken by its namespace and local name.  Apart
    from these, the nodes that importing a source yields are, in order,
    the element children of the source body (its last section properties
    detached): the same elements under the same names, the same character
    data and the same other attributes, whatever the options.  So every
    imported node has the text of the child it comes from, and a reference
    to a relationship by another attribute, such as [r:embed] on a
    picture, is left as it was in the source. *)
Theorem X16_import_writes_three_attributes_only srcZip opt b nodes b' srcDoc bp srcBody :
  readXml srcZip P_document = OK srcDoc →
  bodyEl srcDoc = Some bp →
  get_at bp srcDoc = Some srcBody →
  importBodyNodes srcZip opt b = OK (nodes, b') →
  let children := filter (λ n, isElement n = true) (childNodes (withoutSectPr srcBody)) in
  importView <$> nodes = importView <$> children
  ∧ textContent <$> nodes = textContent <$> children.
Proof.
  intros Hdoc Hbp Hbody H children.
  assert (importView <$> nodes = importView <$> children) as Hmain.
  2:{ split; [done|].
      rewrite <- (list_fmap_ext (textContent ∘ importView) textContent nodes)
        by (intros; apply textContent_importView).
      rewrite <- (list_fmap_ext (textContent ∘ importView) textContent children)
        by (intros; apply textContent_importView).
      by rewrite !list_fmap_compose, Hmain. }
  unfold importBodyNodes in H. apply bind_OK in H as ([[body4 srcRels] b3] & Hprep & H).
  unfold prepareBody in Hprep. rewrite Hdoc in Hprep. cbn [mbind result_bind] in Hprep.
  rewrite Hbp in Hprep. cbn [mbind option_bind] in Hprep. rewrite Hbody in Hprep.
  cbn [mbind option_bind] in Hprep.
  apply bind_OK in Hprep as (body1 & Hsect & Hprep).
  assert (body1 = Some (withoutSectPr srcBody)) as ->.
  { unfold withoutSectPr. destruct (lastSectPr srcBody) as [sp|]; simpl in Hsect.
    - apply fmap_OK in Hsect as (x & Hx & ->). unfold removeChild in Hx.
      destruct sp as [|i [|]]; try done. by injection Hx as <-.
    - by injection Hsect as <-. }
  apply bind_OK in Hprep as (srcRels' & _ & Hprep).
  apply bind_OK in Hprep as ([body2 b1] & Hn & Hprep).
  assert (∃ x, body2 = Some x ∧ importView x = importView (withoutSectPr srcBody))
    as (x2 & -> & Hx2).
  { destruct (r_mergeNumbering opt); [|injection Hn as <- <-; eauto].
    apply bind_OK in Hn as ([[numIdMap absIdMap] bn] & _ & Hn).
    simpl in Hn. injection Hn as <- <-. eexists. split; [done|].
    apply importView_remapNumberingInBody. }
  apply bind_OK in Hprep as (b2 & _ & Hprep).
  apply bind_OK in Hprep as ([body3 b3'] & Hnotes & Hprep). injection Hprep as <- <- <-.
  assert (∃ x, body3 = Some x ∧ importView x = importView x2) as (x3 & -> & Hx3).
  { destruct (r_mergeFootnotes opt); [|injection Hnotes as <- <-; eauto].
    apply bind_OK in Hnotes as (bf & _ & Hnotes).
    apply bind_OK in Hnotes as (be & _ & Hnotes).
    apply bind_OK in Hnotes as (o1 & H1 & Hnotes).
    apply bind_OK in Hnotes as (o2 & H2 & Hnotes). injection Hnotes as <- <-.
    assert (∃ x, o1 = Some x ∧ importView x = importView x2) as (y1 & -> & Hy1).
    { destruct (bool_decide (size (getNoteIdRemap footnotes be) = 0%nat)); simpl in H1;
        injection H1 as <-; eexists; (split; [done|]); [done|].
      apply importView_remapNoteRefsInBody. }
    assert (∃ x, o2 = Some x ∧ importView x = importView y1) as (y2 & -> & Hy2).
    { destruct (bool_decide (size (getNoteIdRemap endnotes be) = 0%nat)); simpl in H2;
        injection H2 as <-; eexists; (split; [done|]); [done|].
      apply importView_remapNoteRefsInBody. }
    exists y2. split; [done | congruence]. }
  apply importNodes_importView in H. rewrite H. simpl.
  apply filter_isElement_importView, childNodes_importView. congruence.
Qed.

(** A source with a picture that refers to its image by [r:embed]: the
    reference is imported as it is. *)
Lemma X16_witness :
  ∃ nodes b',
    importBodyNodes (packageOf [paragraph "One"; blip "rId7"; sectPr]) (withDefaults endOnly)
      (loaded [paragraph "Base"]) = OK (nodes, b')
    ∧ importView <$> nodes = [paragraph "One"; blip "rId7"].
Proof.
  destruct (returned_OK
              (importBodyNodes (packageOf [paragraph "One"; blip "rId7"; sectPr])
                 (withDefaults endOnly) (loaded [paragraph "Base"])))
    as [[nodes b'] E]; [vm_compute; reflexivity|].
  exists nodes, b'. split; [exact E|].
  destruct (X16_import_writes_three_attributes_only
              (packageOf [paragraph "One"; blip "rId7"; sectPr]) (withDefaults endOnly)
              (loaded [paragraph "Base"]) nodes b'
              (documentOf [paragraph "One"; blip "rId7"; sectPr]) [O]
              (Elem (wName "body") [] [paragraph "One"; blip "rId7"; sectPr])
              eq_refl eq_refl eq_refl E) as [Hv _].
  exact Hv.
Defined.

(** ** The parts that go with the styles *)

(** The steps of [mergeStylesPart]. *)
Lemma mergeStylesPart_steps srcZip zip zip' :
  mergeStylesPart srcZip zip = OK zip' →
  ∃ styles' z1 z2 z3,
    mergeOptionalStylePart srcZip P_fontTable fontTableSkeleton (Some "font")
      (writeXml P_styles styles' zip) = OK z1
    ∧ mergeOptionalStylePart srcZip P_theme themeSkeleton None z1 = OK z2
    ∧ mergeOptionalStylePart srcZip P_webSettings webSettingsSkeleton None z2 = OK z3
    ∧ mergeSettingsPart srcZip z3 = OK zip'.
Proof.
  unfold mergeStylesPart. intros H.
  apply bind_OK in H as (x & _ & H). apply bind_OK in H as (y & _ & H).
  destruct (foldl _ _ _) as [styles' ?].
  apply bind_OK in H as (z1 & H1 & H). apply bind_OK in H as (z2 & H2 & H).
  apply bind_OK in H as (z3 & H3 & H). by exists styles', z1, z2, z3.
Qed.

Lemma copyIfAbsent srcZip part skel zip zip' :
  mergeOptionalStylePart srcZip part skel None zip = OK zip' →
  zip' !! part = match zip !! part with Some c => Some c | None => srcZip !! part end.
Proof.
  unfold mergeOptionalStylePart. intros H.
  destruct (srcZip !! part) as [f|] eqn:Es.
  - destruct (zip !! part) as [c|] eqn:Ez; injection H as <-; [done|].
    by rewrite lookup_insert_eq.
  - injection H as <-. by destruct (zip !! part).
Qed.

(** X17. In the styles merge the theme and the web settings are never
    merged: a part of the base is kept as it is, and when the base has
    none the file of the source is copied as it is (and nothing is created
    when neither has one).  The font table and the settings of the base
    are left alone when the source has none. *)
Theorem X17_theme_of_the_base_wins srcZip zip zip' :
  mergeStylesPart srcZip zip = OK zip' →
  (∀ part, part = P_theme ∨ part = P_webSettings →
     zip' !! part = match zip !! part with Some c => Some c | None => srcZip !! part end)
  ∧ (srcZip !! P_fontTable = None → zip' !! P_fontTable = zip !! P_fontTable)
  ∧ (srcZip !! P_settings = None → zip' !! P_settings = zip !! P_settings).
Proof.
  intros H. destruct (mergeStylesPart_steps _ _ _ H) as (styles' & z1 & z2 & z3 & H1 & H2 & H3 & H4).
  split_and!.
  - intros part [-> | ->].
    + rewrite (mergeSettingsPart_frame _ _ _ P_theme H4) by done.
      rewrite (mergeOptionalStylePart_frame _ _ _ _ _ _ P_theme H3) by done.
      rewrite (copyIfAbsent _ _ _ _ _ H2).
      rewrite (mergeOptionalStylePart_frame _ _ _ _ _ _ P_theme H1) by done.
      unfold writeXml. by rewrite lookup_insert_ne.
    + rewrite (mergeSettingsPart_frame _ _ _ P_webSettings H4) by done.
      rewrite (copyIfAbsent _ _ _ _ _ H3).
      rewrite (mergeOptionalStylePart_frame _ _ _ _ _ _ P_webSettings H2) by done.
      rewrite (mergeOptionalStylePart_frame _ _ _ _ _ _ P_webSettings H1) by done.
      unfold writeXml. by rewrite lookup_insert_ne.
  - intros Hs. rewrite (mergeSettingsPart_frame _ _ _ P_fontTable H4) by done.
    rewrite (mergeOptionalStylePart_frame _ _ _ _ _ _ P_fontTable H3) by done.
    rewrite (mergeOptionalStylePart_frame _ _ _ _ _ _ P_fontTable H2) by done.
    unfold mergeOptionalStylePart in H1. rewrite Hs in H1. injection H1 as <-.
    unfold writeXml. by rewrite lookup_insert_ne.
  - intros Hs. unfold mergeSettingsPart in H4. rewrite Hs in H4. injection H4 as <-.
    rewrite (mergeOptionalStylePart_frame _ _ _ _ _ _ P_settings H3) by done.
    rewrite (mergeOptionalStylePart_frame _ _ _ _ _ _ P_settings H2) by done.
    rewrite (mergeOptionalStylePart_frame _ _ _ _ _ _ P_settings H1) by done.
    unfold writeXml. by rewrite lookup_insert_ne.
Qed.

(** A base and a source that both have a theme. *)
Lemma X17_witness :
  ∃ zip', mergeStylesPart (themePackage "source") (themePackage "base") = OK zip'
          ∧ zip' !! P_theme = Some (Bin "base").
Proof.
  destruct (returned_OK (mergeStylesPart (themePackage "source") (themePackage "base")))
    as [zip' E]; [vm_compute; reflexivity|].
  exists zip'. split; [exact E|].
  destruct (X17_theme_of_the_base_wins (themePackage "source") (themePackage "base") zip' E)
    as (H & _ & _).
  rewrite (H P_theme (or_introl eq_refl)). vm_compute. reflexivity.
Defined.

(** ** The font table *)

Lemma fontTable_after srcZip zip zip' baseFonts srcFonts :
  srcZip !! P_fontTable = Some (Xml srcFonts) →
  readXmlOrCreate zip P_fontTable fontTableSkeleton = OK baseFonts →
  mergeStylesPart srcZip zip = OK zip' →
  isElement srcFonts = true
  ∧ zip' !! P_fontTable
    = Some (Xml (appendChildren
                   (keptKeyed fontName
                      (list_to_set ((λ el, Some (Js.orLit (fontName el) EmptyString))
                                      <$> fonts baseFonts))
                      (fonts srcFonts)) baseFonts)).
Proof.
  intros Hs Hb H.
  destruct (mergeStylesPart_steps _ _ _ H) as (styles' & z1 & z2 & z3 & H1 & H2 & H3 & H4).
  rewrite (mergeSettingsPart_frame _ _ _ P_fontTable H4) by done.
  rewrite (mergeOptionalStylePart_frame _ _ _ _ _ _ P_fontTable H3) by done.
  rewrite (mergeOptionalStylePart_frame _ _ _ _ _ _ P_fontTable H2) by done.
  unfold mergeOptionalStylePart in H1. rewrite Hs in H1.
  assert (readXmlOrCreate (writeXml P_styles styles' zip) P_fontTable fontTableSkeleton
          = OK baseFonts) as Hb'.
  { unfold readXmlOrCreate, writeXml in *. by rewrite lookup_insert_ne. }
  rewrite Hb' in H1. cbn [mbind result_bind] in H1.
  unfold readXml in H1. rewrite Hs in H1. unfold parseXml in H1.
  destruct (isElement srcFonts) eqn:Hel; [|done]. cbn [mbind result_bind] in H1.
  fold fontName in H1. fold (fonts baseFonts) in H1. fold (fonts srcFonts) in H1.
  rewrite foldl_mergeKeyed in H1. injection H1 as <-.
  split; [done|]. unfold writeXml. by rewrite lookup_insert_eq.
Qed.

(** X18. The font table is merged by font name, the first writer winning:
    when the source has a font table, the merged table is the table of the
    base (or an empty one) followed by fonts of the source, in their
    order; a font is appended only if it has a name that no font of the
    base carries, no two appended fonts share a name, and every such name
    that the source defines is appended with the first font that carries
    it. *)
Theorem X18_fonts_first_writer_wins srcZip zip zip' baseFonts srcFonts :
  srcZip !! P_fontTable = Some (Xml srcFonts) →
  readXmlOrCreate zip P_fontTable fontTableSkeleton = OK baseFonts →
  mergeStylesPart srcZip zip = OK zip' →
  ∃ appended,
    zip' !! P_fontTable = Some (Xml (appendChildren appended baseFonts))
    ∧ sublist appended (fonts srcFonts)
    ∧ NoDup (fontName <$> appended)
    ∧ (∀ f g, f ∈ appended → g ∈ fonts baseFonts →
         Js.truthy (fontName f) = true ∧ fontName f ≠ fontName g)
    ∧ (∀ f, f ∈ fonts srcFonts → Js.truthy (fontName f) = true →
         (∀ g, g ∈ fonts baseFonts → fontName g ≠ fontName f) →
         ∃ f', f' ∈ appended ∧ fontName f' = fontName f
               ∧ head (filter (λ x, fontName x = fontName f) (fonts srcFonts)) = Some f').
Proof.
  intros Hs Hb H. destruct (fontTable_after _ _ _ _ _ Hs Hb H) as [Hel Hz].
  set (existing := list_to_set ((λ el, Some (Js.orLit (fontName el) EmptyString))
                                  <$> fonts baseFonts) : gset (option string)) in *.
  assert (∀ f, Js.truthy (fontName f) = true →
            (fontName f ∈ existing ↔ ∃ g, g ∈ fonts baseFonts ∧ fontName g = fontName f))
    as Hex.
  { intros f Ht. unfold existing. rewrite elem_of_list_to_set, list_elem_of_fmap.
    destruct (fontName f) as [n|] eqn:En; [|done]. simpl in Ht.
    split.
    - intros (g & Hg & Hin). exists g. split; [done|].
      destruct (fontName g) as [m|]; simpl in Hg.
      + destruct (String.eqb_spec m EmptyString) as [Hm|Hm]; injection Hg as Hg.
        * subst n. by rewrite String.eqb_refl in Ht.
        * by subst n.
      + injection Hg as Hg. subst n. by rewrite String.eqb_refl in Ht.
    - intros (g & Hin & Hg). exists g. split; [|done].
      rewrite Hg. simpl. destruct (String.eqb_spec n EmptyString); [|done].
      subst n. done. }
  exists (keptKeyed fontName existing (fonts srcFonts)). split_and!.
  - exact Hz.
  - apply keptKeyed_sublist.
  - apply keptKeyed_NoDup.
  - intros f g Hf Hg. apply keptKeyed_elem in Hf as [Ht Hn]. split; [done|].
    intros Heq. apply Hn, Hex; [done|]. by exists g.
  - intros f Hf Ht Hbase. apply keptKeyed_first; [done..|].
    intros Hin. apply Hex in Hin as (g & Hg & Heq); [|done]. by apply (Hbase g).
Qed.

(** A base with the font Arial and a source with Arial and Courier. *)
Lemma X18_witness :
  ∃ zip' appended,
    mergeStylesPart (fontPackage [font "Arial"; font "Courier"]) (fontPackage [font "Arial"])
    = OK zip'
    ∧ zip' !! P_fontTable
      = Some (Xml (appendChildren appended (Elem (wName "fonts") [] [font "Arial"])))
    ∧ sublist appended (fonts (Elem (wName "fonts") [] [font "Arial"; font "Courier"])).
Proof.
  destruct (returned_OK (mergeStylesPart (fontPackage [font "Arial"; font "Courier"])
                           (fontPackage [font "Arial"])))
    as [zip' E]; [vm_compute; reflexivity|].
  destruct (X18_fonts_first_writer_wins
              (fontPackage [font "Arial"; font "Courier"]) (fontPackage [font "Arial"]) zip'
              (Elem (wName "fonts") [] [font "Arial"])
              (Elem (wName "fonts") [] [font "Arial"; font "Courier"])
              eq_refl eq_refl E) as (appended & Hz & Hsub & _).
  by exists zip', appended.
Defined.

(** ** The settings *)

Lemma mergeSetting_isElement src b name :
  isElement b = true → isElement (mergeSetting src b name) = true.
Proof.
  intros H. unfold mergeSetting.
  destruct (head (docElementsByTagNameNS NS_w name src)); [|done].
  destruct (head (docElementsByTagNameNS NS_w name b)); [done|]. by destruct b.
Qed.

Lemma present_appendChildren ns loc l b :
  docElementsByTagNameNS ns loc b ≠ [] →
  docElementsByTagNameNS ns loc (appendChildren l b) ≠ [].
Proof.
  intros H. destruct (isElement b) eqn:Hel.
  - destruct (docElementsByTagNameNS_appendChildren ns loc l b Hel) as (root' & H1 & H2 & _).
    rewrite H2. rewrite H1 in H. destruct (hasTagNS ns loc b); [done|].
    simpl in *. by destruct (getElementsByTagNameNS ns loc b).
  - destruct b; [done|]. by destruct H.
Qed.

Lemma present_appended ns loc e b :
  isElement b = true → hasTagNS ns loc e = true →
  docElementsByTagNameNS ns loc (appendChild e b) ≠ [].
Proof.
  intros Hel Ht.
  destruct (docElementsByTagNameNS_appendChildren ns loc [e] b Hel) as (root' & _ & H2 & _).
  change (appendChildren [e] b) with (appendChild e b) in H2. rewrite H2.
  pose proof (docElements_self ns loc e Ht) as He. cbn [flat_map]. rewrite app_nil_r.
  intros Hnil. apply app_eq_nil in Hnil as [_ Hnil]. apply app_eq_nil in Hnil as [_ Hnil].
  rewrite Hnil in He. by apply elem_of_nil in He.
Qed.

Lemma head_elem {A} (l : list A) x : head l = Some x → x ∈ l.
Proof. destruct l; [done|]. intros [= ->]. left. Qed.

Lemma mergeSetting_fold src names : ∀ b,
  isElement b = true →
  ∃ added,
    foldl (mergeSetting src) b names = appendChildren added b
    ∧ (∀ e, e ∈ added →
         ∃ name, name ∈ names
                 ∧ head (docElementsByTagNameNS NS_w name src) = Some e
                 ∧ docElementsByTagNameNS NS_w name b = [])
    ∧ (∀ name, name ∈ names → docElementsByTagNameNS NS_w name src ≠ [] →
         docElementsByTagNameNS NS_w name (appendChildren added b) ≠ [])
    ∧ (length added ≤ length names)%nat.
Proof.
  induction names as [|name names IH]; intros b Hel.
  - exists []. split_and!; [done| |by intros ? ?%elem_of_nil|done].
    by intros e ?%elem_of_nil.
  - cbn [foldl].
    destruct (IH (mergeSetting src b name) (mergeSetting_isElement src b name Hel))
      as (added & Hfold & Hadded & Hcover & Hlen).
    unfold mergeSetting in *.
    destruct (head (docElementsByTagNameNS NS_w name src)) as [e|] eqn:Hsrc.
    + destruct (head (docElementsByTagNameNS NS_w name b)) eqn:Hbase.
      * exists added. split_and!; [done| | |simpl; lia].
        -- intros e' He'. destruct (Hadded e' He') as (nm & Hn & Hh & Hb).
           exists nm. split_and!; [by right|done..].
        -- intros nm [->|Hn]%elem_of_cons Hs; [|by apply Hcover].
           apply present_appendChildren. by destruct (docElementsByTagNameNS NS_w name b).
      * exists (e :: added). split_and!; [done| | |simpl; lia].
        -- intros e' [->|He']%elem_of_cons.
           ++ exists name. split_and!; [left|done|].
              by destruct (docElementsByTagNameNS NS_w name b).
           ++ destruct (Hadded e' He') as (nm & Hn & Hh & Hb).
              exists nm. split_and!; [by right|done|].
              destruct (docElementsByTagNameNS NS_w nm b) eqn:E; [done|].
              exfalso. apply (present_appendChildren NS_w nm [e] b); [by rewrite E|done].
        -- intros nm [->|Hn]%elem_of_cons Hs; [|by apply Hcover].
           change (appendChildren (e :: added) b) with (appendChildren added (appendChild e b)).
           apply present_appendChildren, present_appended; [done|].
           by apply head_elem, docElements_hasTag in Hsrc.
    + exists added. split_and!; [done| | |simpl; lia].
      * intros e' He'. destruct (Hadded e' He') as (nm & Hn & Hh & Hb).
        exists nm. split_and!; [by right|done..].
      * intros nm [->|Hn]%elem_of_cons Hs; [|by apply Hcover].
        by destruct (docElementsByTagNameNS NS_w name src).
Qed.

(** X19. Of the settings of a source, the settings merge carries over six
    and nothing else: the merged settings are those of the base (or an
    empty part) followed by at most six elements, each the first element
    of the source with one of the six names, added only when the base has
    no element of that name.  Afterwards each of the six settings that the
    source has is present in the merged part.  A setting of the base is
    never changed or dropped. *)
Theorem X19_settings_only_missing_ones_are_added srcZip zip zip' baseSettings srcSettings :
  srcZip !! P_settings = Some (Xml srcSettings) →
  readXmlOrCreate zip P_settings settingsSkeleton = OK baseSettings →
  mergeSettingsPart srcZip zip = OK zip' →
  ∃ added,
    zip' !! P_settings = Some (Xml (appendChildren added baseSettings))
    ∧ (length added ≤ 6)%nat
    ∧ (∀ e, e ∈ added →
         ∃ name, name ∈ settingNames
                 ∧ head (docElementsByTagNameNS NS_w name srcSettings) = Some e
                 ∧ docElementsByTagNameNS NS_w name baseSettings = [])
    ∧ (∀ name, name ∈ settingNames →
         docElementsByTagNameNS NS_w name srcSettings ≠ [] →
         docElementsByTagNameNS NS_w name (appendChildren added baseSettings) ≠ []).
Proof.
  intros Hs Hb H. unfold mergeSettingsPart in H. rewrite Hs, Hb in H.
  cbn [mbind result_bind] in H. unfold readXml in H. rewrite Hs in H. unfold parseXml in H.
  destruct (isElement srcSettings); [|done]. cbn [mbind result_bind] in H.
  pose proof (readXmlOrCreate_isElement zip P_settings settingsSkeleton baseSettings
                eq_refl Hb) as Hel.
  destruct (mergeSetting_fold srcSettings settingNames baseSettings Hel)
    as (added & Hfold & Hadded & Hcover & Hlen).
  change (foldl _ baseSettings _) with (foldl (mergeSetting srcSettings) baseSettings settingNames)
    in H.
  rewrite Hfold in H. injection H as <-. exists added. split_and!; [|done..].
  unfold writeXml. by rewrite lookup_insert_eq.
Qed.

(** A base that sets the default tab stop and a source that sets it too,
    with another setting. *)
Lemma X19_witness :
  ∃ zip' added,
    mergeSettingsPart
      (settingsPackage [setting "defaultTabStop" "720"; setting "mwSmallCaps" "1"])
      (settingsPackage [setting "defaultTabStop" "360"]) = OK zip'
    ∧ zip' !! P_settings
      = Some (Xml (appendChildren added
                     (Elem (wName "settings") [] [setting "defaultTabStop" "360"])))
    ∧ (length added ≤ 6)%nat.
Proof.
  destruct (returned_OK
              (mergeSettingsPart
                 (settingsPackage [setting "defaultTabStop" "720"; setting "mwSmallCaps" "1"])
                 (settingsPackage [setting "defaultTabStop" "360"])))
    as [zip' E]; [vm_compute; reflexivity|].
  destruct (X19_settings_only_missing_ones_are_added
              (settingsPackage [setting "defaultTabStop" "720"; setting "mwSmallCaps" "1"])
              (settingsPackage [setting "defaultTabStop" "360"]) zip'
              (Elem (wName "settings") [] [setting "defaultTabStop" "360"])
              (Elem (wName "settings") [] [setting "defaultTabStop" "720"; setting "mwSmallCaps" "1"])
              eq_refl eq_refl E) as (added & Hz & Hlen & _).
  by exists zip', added.
Defined.
